(** * Chaterjee's Equal Probabilities Approach: dominance reduction,
      row LP and strategy expansion ([chaterjee_algorithm.py]).

    The payoffs of the source are binary64 numbers.  Wherever the code
    only compares or copies them they are modelled by the rationals they
    denote: comparisons are those of a total order (there is no NaN).
    The arithmetic of the source ([np.ones(n) / n] and the two [np.dot]
    calls that produce the game value) is modelled twice: with exact
    rational arithmetic in [chaterjee_epa_algorithm], and with binary64
    arithmetic, every operation rounded, in
    [Binary64.chaterjee_epa_algorithm].  A two-dimensional [numpy] array
    is its shape together with its indexing function; an argument that is
    not two-dimensional is an [argument].  Python lists of 0/1 flags are
    lists of naturals, updated in place with list insert; every index the
    code writes to is inside the list.  Exceptions ([IndexError],
    [ValueError]) are [None] in the option monad.  The LP routine of
    [scipy] is a parameter of the development. *)

From stdpp Require Import list sorting.
From Stdlib Require Import QArith Qabs Qminmax Lqa Floats.

Close Scope Q_scope.
Local Open Scope nat_scope.

(** ** Data model *)

(** [np.ndarray] with [ndim = 2]: [matrix.shape] and [matrix[i, j]]. *)
Record ndarray := NdArray {
  shape0 : nat;
  shape1 : nat;
  item : nat -> nat -> Q
}.

(** A literal [np.array([[...], ...])] with the given column count. *)
Definition of_rows (cols : nat) (rows : list (list Q)) : ndarray :=
  NdArray (length rows) cols (fun i j => nth j (nth i rows []) 0%Q).

(** Same shape and same entries at every index inside the shape. *)
Definition arr_eq (A B : ndarray) : Prop :=
  shape0 A = shape0 B /\ shape1 A = shape1 B /\
  forall i j, i < shape0 A -> j < shape1 A -> item A i j = item B i j.

(** [range(n)]. *)
Definition range (n : nat) : list nat := seq 0 n.

(** [x < y] on rationals, as a boolean. *)
Definition Qlt_bool (x y : Q) : bool :=
  (Qnum x * QDen y <? Qnum y * QDen x)%Z.

(** ** Dominance Analyzer *)

(** [np.all(matrix[i, :] <= matrix[j, :])]. *)
Definition row_all_le (A : ndarray) (i j : nat) : bool :=
  forallb (fun k => Qle_bool (item A i k) (item A j k)) (range (shape1 A)).

(** [np.any(matrix[i, :] < matrix[j, :])]. *)
Definition row_any_lt (A : ndarray) (i j : nat) : bool :=
  existsb (fun k => Qlt_bool (item A i k) (item A j k)) (range (shape1 A)).

(** The condition of the [if] in [eliminate_weakly_dominated_rows]. *)
Definition row_dominated_by (A : ndarray) (i j : nat) : bool :=
  row_all_le A i j && row_any_lt A i j.

(** [np.all(matrix[:, j] >= matrix[:, k])]. *)
Definition col_all_ge (A : ndarray) (j k : nat) : bool :=
  forallb (fun i => Qle_bool (item A i k) (item A i j)) (range (shape0 A)).

(** [np.any(matrix[:, j] > matrix[:, k])]. *)
Definition col_any_gt (A : ndarray) (j k : nat) : bool :=
  existsb (fun i => Qlt_bool (item A i k) (item A i j)) (range (shape0 A)).

(** The condition of the [if] in [eliminate_weakly_dominated_cols]. *)
Definition col_dominated_by (A : ndarray) (j k : nat) : bool :=
  col_all_ge A j k && col_any_gt A j k.

(** The inner [for j in range(...)] loop: [true] when the [break] is
    taken, that is when [keep[i] = 0] is executed. *)
Fixpoint inner_scan (dom : nat -> nat -> bool) (i : nat) (js : list nat)
  : bool :=
  match js with
  | [] => false
  | j :: js' =>
      if Nat.eqb i j then inner_scan dom i js'        (* continue *)
      else if dom i j then true                       (* keep[i] = 0; break *)
      else inner_scan dom i js'
  end.

(** The outer loop over [n] indices, starting from [keep = [1] * n]. *)
Definition dominance_pass (dom : nat -> nat -> bool) (n : nat) : list nat :=
  fold_left
    (fun keep i => if inner_scan dom i (range n) then <[i:=0]> keep else keep)
    (range n) (replicate n 1).

Definition eliminate_weakly_dominated_rows (A : ndarray) : list nat :=
  dominance_pass (row_dominated_by A) (shape0 A).

Definition eliminate_weakly_dominated_cols (A : ndarray) : list nat :=
  dominance_pass (col_dominated_by A) (shape1 A).

(** ** Iterated Reducer *)

(** [A[np.ix_(rows, cols)]]. *)
Definition ix_ (A : ndarray) (rows cols : list nat) : ndarray :=
  NdArray (length rows) (length cols)
          (fun i j => item A (nth i rows 0) (nth j cols 0)).

(** [[r for r, keep in zip(active, keep) if keep == 1]]. *)
Definition select_kept (active keep : list nat) : list nat :=
  map fst (List.filter (fun rk => Nat.eqb (snd rk) 1) (combine active keep)).

(** [r in new_active]. *)
Definition mem (r : nat) (l : list nat) : bool := existsb (Nat.eqb r) l.

(** [for r in active: if r not in new_active: flags[r] = 0]. *)
Definition clear_flags (active new_active flags : list nat) : list nat :=
  fold_left (fun fl r => if mem r new_active then fl else <[r:=0]> fl)
            active flags.

Record reducer_state := ReducerState {
  active_rows : list nat;
  active_cols : list nat;
  row_flags : list nat;
  col_flags : list nat
}.

Definition initial_state (A : ndarray) : reducer_state :=
  ReducerState (range (shape0 A)) (range (shape1 A))
               (replicate (shape0 A) 1) (replicate (shape1 A) 1).

(** The row half of the loop body; the boolean is [changed]. *)
Definition row_step (A : ndarray) (st : reducer_state)
  : reducer_state * bool :=
  let current_matrix := ix_ A (active_rows st) (active_cols st) in
  let row_keep := eliminate_weakly_dominated_rows current_matrix in
  if sum_list row_keep <? length row_keep then
    let new_active_rows := select_kept (active_rows st) row_keep in
    (ReducerState new_active_rows (active_cols st)
       (clear_flags (active_rows st) new_active_rows (row_flags st))
       (col_flags st), true)
  else (st, false).

(** The column half of the loop body. *)
Definition col_step (A : ndarray) (st : reducer_state)
  : reducer_state * bool :=
  let current_matrix := ix_ A (active_rows st) (active_cols st) in
  let col_keep := eliminate_weakly_dominated_cols current_matrix in
  if sum_list col_keep <? length col_keep then
    let new_active_cols := select_kept (active_cols st) col_keep in
    (ReducerState (active_rows st) new_active_cols (row_flags st)
       (clear_flags (active_cols st) new_active_cols (col_flags st)), true)
  else (st, false).

(** One iteration of [while changed]: rows first, then columns on the
    rows just updated. *)
Definition reduction_pass (A : ndarray) (st : reducer_state)
  : reducer_state * bool :=
  let '(st1, ch1) := row_step A st in
  let '(st2, ch2) := col_step A st1 in
  (st2, ch1 || ch2).

(** The [while changed] loop; the natural number returned is the number
    of iterations performed. *)
Fixpoint reduction_loop (fuel : nat) (A : ndarray) (st : reducer_state)
  : option (reducer_state * nat) :=
  match fuel with
  | 0 => None
  | S fuel' =>
      let '(st', changed) := reduction_pass A st in
      if changed then
        '(st'', k) ← reduction_loop fuel' A st'; Some (st'', S k)
      else Some (st', 1)
  end.

Definition iterated_elimination_dominated_strategies (A : ndarray)
  : option (ndarray * list nat * list nat) :=
  '(st, _) ← reduction_loop (S (shape0 A + shape1 A)) A (initial_state A);
  Some (ix_ A (active_rows st) (active_cols st), row_flags st, col_flags st).

(** ** Strategy Expander *)

(** [sum] of a list or array of rationals. *)
Definition Qsum (l : list Q) : Q := foldr Qplus 0%Q l.

(** [enumerate(flags)]. *)
Definition enumerate {T} (l : list T) : list (nat * T) :=
  combine (range (length l)) l.

(** The body of the expansion loop on the state [(full, idx)];
    [reduced[idx]] raises [IndexError] past the end. *)
Definition expand_step (reduced : list Q) (st : list Q * nat)
  (ifl : nat * nat) : option (list Q * nat) :=
  let '(full, idx) := st in
  let '(i, flag) := ifl in
  if Nat.eqb flag 1 then
    v ← reduced !! idx; Some (<[i:=v]> full, S idx)
  else Some st.

Fixpoint expand_loop (reduced : list Q) (ifls : list (nat * nat))
  (st : list Q * nat) : option (list Q * nat) :=
  match ifls with
  | [] => Some st
  | ifl :: rest =>
      st' ← expand_step reduced st ifl; expand_loop reduced rest st'
  end.

(** [full = np.zeros(len(flags)); idx = 0;
    for i, flag in enumerate(flags): ...]. *)
Definition expand (flags : list nat) (reduced : list Q) : option (list Q) :=
  '(full, _) ← expand_loop reduced (enumerate flags)
                           (replicate (length flags) 0%Q, 0);
  Some full.

(** ** Row-LP Solver *)

(** The arguments of [scipy.optimize.linprog]. *)
Record lp_problem := LpProblem {
  lp_c : list Q;
  lp_A_ub : list (list Q);
  lp_b_ub : list Q;
  lp_A_eq : list (list Q);
  lp_b_eq : list Q;
  lp_bounds : list (option Q * option Q)
}.

(** The fields of the [OptimizeResult] that the code reads. *)
Record lp_result := LpResult {
  success : bool;
  x : list Q
}.

(** The dot product of two one-dimensional arrays of equal length, in
    exact arithmetic. *)
Definition dot (a b : list Q) : Q := Qsum (zip_with Qmult a b).

(** [np.dot(a, b)] for one-dimensional [a], [b]: [ValueError] on a shape
    mismatch.  The sum is exact here; [Binary64.np_dot_vec] rounds. *)
Definition np_dot_vec (a b : list Q) : option Q :=
  if length a =? length b then Some (dot a b) else None.

(** [matrix[i, :]]. *)
Definition row_of (A : ndarray) (i : nat) : list Q :=
  map (item A i) (range (shape1 A)).

(** [np.dot(matrix, v)] for one-dimensional [v].  The sums are exact
    here; [Binary64.np_dot_mat] rounds. *)
Definition np_dot_mat (A : ndarray) (v : list Q) : option (list Q) :=
  if shape1 A =? length v then
    Some (map (fun i => dot (row_of A i) v) (range (shape0 A)))
  else None.

(** The linear program built by [solve_row_player_lp]:
    variables [p_0 .. p_{m-1}, V]. *)
Definition row_lp (A : ndarray) : lp_problem :=
  let m := shape0 A in
  let n := shape1 A in
  LpProblem
    (<[m:=(-1)%Q]> (replicate (m + 1) 0%Q))
    (map (fun j => map (fun i => (- item A i j)%Q) (range m) ++ [1%Q])
         (range n))
    (replicate n 0%Q)
    [replicate m 1%Q ++ [0%Q]]
    [1%Q]
    (replicate m (Some 0%Q, None) ++ [(None, None)]).

(** What a successful [linprog] call promises about its [x]. *)
Definition within_bounds (b : option Q * option Q) (v : Q) : Prop :=
  match fst b with Some lo => (lo <= v)%Q | None => True end /\
  match snd b with Some hi => (v <= hi)%Q | None => True end.

Definition lp_feasible (P : lp_problem) (xs : list Q) : Prop :=
  length xs = length (lp_c P) /\
  Forall2 (fun row b => (dot row xs <= b)%Q) (lp_A_ub P) (lp_b_ub P) /\
  Forall2 (fun row b => (dot row xs == b)%Q) (lp_A_eq P) (lp_b_eq P) /\
  Forall2 within_bounds (lp_bounds P) xs.

Definition lp_optimal (P : lp_problem) (xs : list Q) : Prop :=
  lp_feasible P xs /\
  forall ys, lp_feasible P ys -> (dot (lp_c P) xs <= dot (lp_c P) ys)%Q.

(** ** EPA Orchestrator *)

Section EPA.

(** [scipy.optimize.linprog(..., method='highs')]. *)
Variable linprog : lp_problem -> lp_result.

Definition solve_row_player_lp (A : ndarray) : option (list Q * Q) :=
  let m := shape0 A in
  let result := linprog (row_lp A) in
  if success result then
    game_value ← x result !! m;
    Some (take m (x result), game_value)
  else None.

(** The orchestrator in exact arithmetic: [np.ones(n) / n] is the
    rational [1/n] and the value is the exact double sum. *)
Definition chaterjee_epa_algorithm (A : ndarray)
  : option (list Q * list Q * Q) :=
  '(reduced_matrix, rflags, cflags) ←
      iterated_elimination_dominated_strategies A;
  '(row_strategy_reduced, _) ← solve_row_player_lp reduced_matrix;
  let num_active_cols := sum_list cflags in
  let col_strategy_reduced :=
    map (fun o => (o / inject_Z (Z.of_nat num_active_cols))%Q)
        (replicate num_active_cols 1%Q) in
  row_strategy_full ← expand rflags row_strategy_reduced;
  col_strategy_full ← expand cflags col_strategy_reduced;
  Mc ← np_dot_mat A col_strategy_full;
  game_value_epa ← np_dot_vec row_strategy_full Mc;
  Some (row_strategy_full, col_strategy_full, game_value_epa).

End EPA.

(** ** The orchestrator in binary64 *)

Module Binary64.

(** The rational number that a finite binary64 number denotes.  The
    payoffs are never infinite or NaN; those are given 0. *)
Definition to_Q (f : float) : Q :=
  match Prim2SF f with
  | S754_finite s m e =>
      let n := if s then Z.neg m else Z.pos m in
      match e with
      | Z.neg k => n # Pos.pow 2 k
      | _ => inject_Z (n * 2 ^ e)
      end
  | _ => 0%Q
  end.

(** The binary64 number of a Python [int]. *)
Definition of_nat (n : nat) : float :=
  of_uint63 (Uint63Axioms.of_Z (Z.of_nat n)).

(** [np.ndarray] with [ndim = 2] and [dtype = float64]. *)
Record farray := FArray {
  frows : nat;
  fcols : nat;
  fitem : nat -> nat -> float
}.

(** A literal [np.array([[...], ...])] with the given column count. *)
Definition of_rows (cols : nat) (rows : list (list float)) : farray :=
  FArray (length rows) cols (fun i j => nth j (nth i rows []) 0%float).

(** The same array with every entry read as a rational. *)
Definition exact (A : farray) : ndarray :=
  NdArray (frows A) (fcols A) (fun i j => to_Q (fitem A i j)).

(** [A[np.ix_(rows, cols)]]. *)
Definition ix_ (A : farray) (rows cols : list nat) : farray :=
  FArray (length rows) (length cols)
         (fun i j => fitem A (nth i rows 0) (nth j cols 0)).

(** The reducer only compares entries, so its loop runs on the rationals
    that the entries denote. *)
Definition iterated_elimination_dominated_strategies (A : farray)
  : option (farray * list nat * list nat) :=
  '(st, _) ← reduction_loop (S (frows A + fcols A)) (exact A)
                            (initial_state (exact A));
  Some (ix_ A (active_rows st) (active_cols st), row_flags st, col_flags st).

(** The fields of the [OptimizeResult] that the code reads; [x] is an
    array of binary64 numbers. *)
Record lp_result := LpResult {
  success : bool;
  x : list float
}.

(** The expansion loop on binary64 entries. *)
Definition expand_step (reduced : list float) (st : list float * nat)
  (ifl : nat * nat) : option (list float * nat) :=
  let '(full, idx) := st in
  let '(i, flag) := ifl in
  if Nat.eqb flag 1 then
    v ← reduced !! idx; Some (<[i:=v]> full, S idx)
  else Some st.

Fixpoint expand_loop (reduced : list float) (ifls : list (nat * nat))
  (st : list float * nat) : option (list float * nat) :=
  match ifls with
  | [] => Some st
  | ifl :: rest =>
      st' ← expand_step reduced st ifl; expand_loop reduced rest st'
  end.

Definition expand (flags : list nat) (reduced : list float)
  : option (list float) :=
  '(full, _) ← expand_loop reduced (enumerate flags)
                           (replicate (length flags) 0%float, 0);
  Some full.

(** The dot product in binary64: every product and every partial sum is
    rounded to nearest, and the terms are added in index order. *)
Definition dot (a b : list float) : float :=
  fold_left PrimFloat.add (zip_with PrimFloat.mul a b) 0%float.

Definition np_dot_vec (a b : list float) : option float :=
  if length a =? length b then Some (dot a b) else None.

Definition row_of (A : farray) (i : nat) : list float :=
  map (fitem A i) (range (fcols A)).

Definition np_dot_mat (A : farray) (v : list float) : option (list float) :=
  if fcols A =? length v then
    Some (map (fun i => dot (row_of A i) v) (range (frows A)))
  else None.

Section EPA.

(** [scipy.optimize.linprog]: the vectors and matrices it is given hold
    zeros, ones and negated payoffs, which are built without rounding, so
    the problem is stated on the rationals they denote. *)
Variable linprog : lp_problem -> lp_result.

Definition solve_row_player_lp (A : farray) : option (list float * float) :=
  let m := frows A in
  let result := linprog (row_lp (exact A)) in
  if success result then
    game_value ← x result !! m;
    Some (take m (x result), game_value)
  else None.

Definition chaterjee_epa_algorithm (A : farray)
  : option (list float * list float * float) :=
  '(reduced_matrix, rflags, cflags) ←
      iterated_elimination_dominated_strategies A;
  '(row_strategy_reduced, _) ← solve_row_player_lp reduced_matrix;
  let num_active_cols := sum_list cflags in
  let col_strategy_reduced :=
    map (fun o => (o / of_nat num_active_cols)%float)
        (replicate num_active_cols 1%float) in
  row_strategy_full ← expand rflags row_strategy_reduced;
  col_strategy_full ← expand cflags col_strategy_reduced;
  Mc ← np_dot_mat A col_strategy_full;
  game_value_epa ← np_dot_vec row_strategy_full Mc;
  Some (row_strategy_full, col_strategy_full, game_value_epa).

End EPA.

End Binary64.

(** ** Arguments that are not two-dimensional *)

(** What the two entry points can be handed: a two-dimensional array, or
    the one-dimensional array of row objects that [numpy] makes of rows
    of unequal length. *)
Inductive argument :=
  | ObjectArray (rows : list (list Q))
  | Matrix (A : ndarray).

(** [matrix.shape]. *)
Definition shape_of (M : argument) : list nat :=
  match M with
  | ObjectArray rows => [length rows]
  | Matrix A => [shape0 A; shape1 A]
  end.

(** [orig_rows, orig_cols = ...]: unpacking a tuple that does not have
    exactly two components raises [ValueError]. *)
Definition unpack2 (t : list nat) : option (nat * nat) :=
  match t with
  | [a; b] => Some (a, b)
  | _ => None
  end.

(** A call of the reducer on any argument: the number of iterations of
    [while changed] that were run, and the result.  The shape is unpacked
    before the loop is entered. *)
Definition reduce_call (M : argument)
  : nat * option (ndarray * list nat * list nat) :=
  match unpack2 (shape_of M), M with
  | Some (orig_rows, orig_cols), Matrix A =>
      match reduction_loop (S (orig_rows + orig_cols)) A (initial_state A)
      with
      | Some (st, k) =>
          (k, Some (ix_ A (active_rows st) (active_cols st),
                    row_flags st, col_flags st))
      | None => (S (orig_rows + orig_cols), None)
      end
  | _, _ => (0, None)
  end.

(** A call of the orchestrator on any argument: the reducer is called
    first, and the other stages follow only if it returns. *)
Definition solve_call (linprog : lp_problem -> lp_result) (M : argument)
  : nat * option (list Q * list Q * Q) :=
  match reduce_call M, M with
  | (k, Some _), Matrix A => (k, chaterjee_epa_algorithm linprog A)
  | (k, _), _ => (k, None)
  end.

(** ** Colonel Blotto payoff generator *)

(** The inner loop of [combinations_with_replacement]: every choice of a
    first element, followed by the combinations that start no earlier in
    the pool. *)
Fixpoint combinations_from (rec : list nat -> list (list nat))
  (suffix : list nat) : list (list nat) :=
  match suffix with
  | [] => []
  | e :: rest => map (cons e) (rec suffix) ++ combinations_from rec rest
  end.

(** [itertools.combinations_with_replacement(pool, r)], in the order
    [itertools] emits them. *)
Fixpoint combinations_with_replacement (pool : list nat) (r : nat)
  : list (list nat) :=
  match r with
  | 0 => [[]]
  | S r' =>
      combinations_from
        (fun suffix => combinations_with_replacement suffix r') pool
  end.

(** Comparison of tuples of integers, as [sort] uses it: the first
    differing component decides, and a proper prefix is smaller. *)
Fixpoint tuple_leb (a b : list nat) : bool :=
  match a, b with
  | [], _ => true
  | _ :: _, [] => false
  | u :: a', v :: b' =>
      if u <? v then true else if v <? u then false else tuple_leb a' b'
  end.

Definition tuple_le (a b : list nat) : Prop := tuple_leb a b = true.

#[global] Instance tuple_le_dec (a b : list nat) : Decision (tuple_le a b).
Proof. unfold tuple_le. apply _. Defined.

(** The entry for one pair of allocations: 1 if the guerrillas outnumber
    the police at some arsenal, 1/2 if the two allocations coincide, 0
    otherwise. *)
Definition blotto_cell (g_alloc p_alloc : list nat) : Q :=
  let guerrillas_win :=
    existsb (fun gp => snd gp <? fst gp) (combine g_alloc p_alloc) in
  if guerrillas_win then 1%Q
  else
    let all_equal :=
      forallb (fun gp => fst gp =? snd gp) (combine g_alloc p_alloc) in
    if all_equal then (1 # 2)%Q else 0%Q.

Section Blotto.

(** The order in which a [set] of tuples is iterated.  It is not
    specified; the lists are sorted afterwards. *)
Variable set_iter : list (list nat) -> list (list nat).

(** The loop that collects the allocations of one side, and the [sort]
    that follows it.  [itertools.permutations] is taken up to order,
    which the [set] forgets. *)
Definition blotto_allocations (total : Z) (num_arsenals : nat)
  : list (list nat) :=
  merge_sort tuple_le
    (combinations_with_replacement (seq 0 (Z.to_nat (total + 1)))
                                   num_arsenals
     ≫= fun allocation =>
          if (Z.of_nat (sum_list allocation) =? total)%Z
          then set_iter (permutations allocation)
          else []).

Definition generate_colonel_blotto_payoffs
  (guerrillas police : Z) (num_arsenals : nat)
  : ndarray * list (list nat) * list (list nat) :=
  let guerrilla_allocations := blotto_allocations guerrillas num_arsenals in
  let police_allocations := blotto_allocations police num_arsenals in
  (NdArray (length guerrilla_allocations) (length police_allocations)
           (fun i j => blotto_cell (nth i guerrilla_allocations [])
                                   (nth j police_allocations [])),
   guerrilla_allocations, police_allocations).

End Blotto.

(** ** Auxiliary notions used in the statements *)

(** The negated transpose [-M.T]. *)
Definition neg_transpose (A : ndarray) : ndarray :=
  NdArray (shape1 A) (shape0 A) (fun i j => (- item A j i)%Q).

(** Every entry is [0] or [1]. *)
Definition binary (l : list nat) : Prop := Forall (fun f => f = 0 \/ f = 1) l.

(** The bookkeeping invariant tying an Active Index List to its
    Index-Flag Vector. *)
Record tracks (n : nat) (active flags : list nat) : Prop := Tracks {
  tracks_length : length flags = n;
  tracks_nodup : NoDup active;
  tracks_member : forall r, r ∈ active <-> flags !! r = Some 1;
  tracks_binary : binary flags
}.

Definition state_inv (A : ndarray) (st : reducer_state) : Prop :=
  tracks (shape0 A) (active_rows st) (row_flags st) /\
  tracks (shape1 A) (active_cols st) (col_flags st).

Definition nonempty_state (st : reducer_state) : Prop :=
  active_rows st <> [] /\ active_cols st <> [].

(** The loop variant: active rows plus active columns. *)
Definition weight (st : reducer_state) : nat :=
  length (active_rows st) + length (active_cols st).

(** Number of flags equal to 1. *)
Definition count_ones (flags : list nat) : nat :=
  length (List.filter (Nat.eqb 1) flags).

(** Indices [s, s+1, ...] whose flag is 1, in increasing order. *)
Fixpoint flagged_from (s : nat) (flags : list nat) : list nat :=
  match flags with
  | [] => []
  | f :: fl =>
      if Nat.eqb f 1 then s :: flagged_from (S s) fl
      else flagged_from (S s) fl
  end.

Definition true_indices (flags : list nat) : list nat := flagged_from 0 flags.

(** The expanded vector as a function of the flags and of the reduced
    entries not yet consumed. *)
Fixpoint scatter (flags : list nat) (reduced : list Q) : list Q :=
  match flags with
  | [] => []
  | f :: fl =>
      if Nat.eqb f 1 then
        match reduced with
        | v :: rest => v :: scatter fl rest
        | [] => 0%Q :: scatter fl []
        end
      else 0%Q :: scatter fl reduced
  end.

(** All entries of the matrix, row by row. *)
Definition entries (A : ndarray) : list Q :=
  flat_map (row_of A) (range (shape0 A)).

(** [np.min(matrix)] and [np.max(matrix)] of a non-empty matrix. *)
Definition matrix_min (A : ndarray) : Q := foldr Qmin (item A 0 0) (entries A).

(** ** Concrete LP routines and games used to instantiate the statements *)

Fixpoint forall2b {S T} (f : S -> T -> bool) (l : list S) (k : list T)
  : bool :=
  match l, k with
  | [], [] => true
  | a :: l', b :: k' => f a b && forall2b f l' k'
  | _, _ => false
  end.

Definition within_bounds_b (b : option Q * option Q) (v : Q) : bool :=
  match fst b with Some lo => Qle_bool lo v | None => true end &&
  match snd b with Some hi => Qle_bool v hi | None => true end.

Definition lp_feasible_b (P : lp_problem) (xs : list Q) : bool :=
  (length xs =? length (lp_c P)) &&
  forall2b (fun row b => Qle_bool (dot row xs) b) (lp_A_ub P) (lp_b_ub P) &&
  forall2b (fun row b => Qeq_bool (dot row xs) b) (lp_A_eq P) (lp_b_eq P) &&
  forall2b within_bounds_b (lp_bounds P) xs.

(** A routine that proposes one fixed point and reports success exactly
    when that point is feasible for the problem. *)
Definition checking_solver (candidate : list Q) (P : lp_problem)
  : lp_result :=
  LpResult (lp_feasible_b P candidate) candidate.

(** [[1, 0], [0, 1]]: no strategy is dominated. *)
Definition identity_game : ndarray := of_rows 2 [[1; 0]; [0; 1]]%Q.

(** [[1, 2, 3], [0, 1, 2], [5, 5, 5]]: the last row dominates the others. *)
Definition dominated_game : ndarray :=
  of_rows 3 [[1; 2; 3]; [0; 1; 2]; [5; 5; 5]]%Q.

(** [np.array([[]])], of shape [(1, 0)]. *)
Definition empty_game : ndarray := of_rows 0 [[]].

(** ** Further notions used in the statements *)

(** [matrix[:, j]]. *)
Definition col_of (A : ndarray) (j : nat) : list Q :=
  map (fun i => item A i j) (range (shape0 A)).

(** A mixed strategy over [n] pure strategies. *)
Definition distribution (n : nat) (p : list Q) : Prop :=
  length p = n /\ Forall (fun v => (0 <= v)%Q) p /\ (Qsum p == 1)%Q.

#[global] Instance Q_eq_dec : EqDecision Q.
Proof. solve_decision. Defined.

#[global] Instance lp_problem_eq_dec : EqDecision lp_problem.
Proof. solve_decision. Defined.

(** A routine that knows the solution of one problem and refuses every
    other problem. *)
Definition table_solver (known : lp_problem) (solution : list Q)
  (P : lp_problem) : lp_result :=
  if decide (P = known) then LpResult true solution else LpResult false [].

(** [np.ones(n) / n]. *)
Definition uniform (n : nat) : list Q :=
  map (fun o => (o / inject_Z (Z.of_nat n))%Q) (replicate n 1%Q).

(** [a * matrix + b]. *)
Definition affine (a b : Q) (A : ndarray) : ndarray :=
  NdArray (shape0 A) (shape1 A) (fun i j => (a * item A i j + b)%Q).

(** Both active lists are in increasing order. *)
Definition sorted_state (st : reducer_state) : Prop :=
  StronglySorted lt (active_rows st) /\ StronglySorted lt (active_cols st).

(** Every original row lies, on the active columns, below an active row;
    every original column lies, on the active rows, above an active
    column. *)
Definition covered (A : ndarray) (st : reducer_state) : Prop :=
  (forall r, r < shape0 A ->
     exists r', r' ∈ active_rows st /\
       forall c, c ∈ active_cols st -> (item A r c <= item A r' c)%Q) /\
  (forall c, c < shape1 A ->
     exists c', c' ∈ active_cols st /\
       forall r, r ∈ active_rows st -> (item A r c' <= item A r c)%Q).

(** [[3, 1], [3, 1], [1, 0]]: the last row and then the first column are
    eliminated. *)
Definition interleaved_game : ndarray :=
  of_rows 2 [[3; 1]; [3; 1]; [1; 0]]%Q.

(** [np.array([[100., 100., 100.]])]. *)
Definition hundreds : Binary64.farray :=
  Binary64.of_rows 3 [[100; 100; 100]]%float.


(** * Verification *)

(** ** Comparisons *)

Lemma Qlt_bool_iff (a b : Q) : Qlt_bool a b = true <-> (a < b)%Q.
Proof. unfold Qlt_bool, Qlt. apply Z.ltb_lt. Qed.

Lemma Qle_bool_opp (a b : Q) : Qle_bool (- a) (- b) = Qle_bool b a.
Proof.
  apply eq_true_iff_eq. rewrite !Qle_bool_iff.
  split; intros H; lra.
Qed.

Lemma Qlt_bool_opp (a b : Q) : Qlt_bool (- a) (- b) = Qlt_bool b a.
Proof.
  apply eq_true_iff_eq. rewrite !Qlt_bool_iff.
  split; intros H; lra.
Qed.

Lemma in_range (n i : nat) : In i (range n) <-> i < n.
Proof. unfold range. rewrite in_seq. lia. Qed.

(** ** The single dominance pass *)

Lemma inner_scan_true (dom : nat -> nat -> bool) (i : nat) (js : list nat) :
  inner_scan dom i js = true <->
  exists j, In j js /\ j <> i /\ dom i j = true.
Proof.
  induction js as [|j js IH]; simpl.
  - split; [discriminate | intros (j & [] & _)].
  - destruct (Nat.eqb_spec i j) as [->|Hne].
    + rewrite IH. split.
      * intros (k & Hk & Hne & Hd). exists k. auto.
      * intros (k & [<-|Hk] & Hne & Hd); [congruence | exists k; auto].
    + destruct (dom i j) eqn:Hd.
      * split; [intros _; exists j; auto | reflexivity].
      * rewrite IH. split.
        -- intros (k & Hk & Hk' & Hdk). exists k. auto.
        -- intros (k & [<-|Hk] & Hk' & Hdk); [congruence | exists k; auto].
Qed.

Lemma dominance_prefix (p : nat -> bool) (n k i : nat) :
  k <= n -> i < n ->
  fold_left (fun keep i => if p i then <[i:=0]> keep else keep)
            (seq 0 k) (replicate n 1) !! i
  = Some (if (i <? k) && p i then 0 else 1) /\
  length (fold_left (fun keep i => if p i then <[i:=0]> keep else keep)
                    (seq 0 k) (replicate n 1)) = n.
Proof.
  intros Hk Hi. induction k as [|k IH].
  - simpl. rewrite length_replicate. split; [|reflexivity].
    apply lookup_replicate_2. exact Hi.
  - rewrite seq_S, fold_left_app. simpl.
    destruct IH as [IHl IHn]; [lia|].
    destruct (p k) eqn:Hp.
    + rewrite length_insert. split; [|exact IHn].
      destruct (Nat.eq_dec i k) as [->|Hne].
      * rewrite list_lookup_insert_eq by lia.
        rewrite Hp. replace (k <? S k) with true; [reflexivity|].
        symmetry. apply Nat.ltb_lt. lia.
      * rewrite list_lookup_insert_ne by congruence. rewrite IHl.
        destruct (Nat.ltb_spec i k), (Nat.ltb_spec i (S k)); try lia;
          reflexivity.
    + split; [|exact IHn]. rewrite IHl.
      destruct (Nat.ltb_spec i k), (Nat.ltb_spec i (S k));
        try reflexivity; try lia.
      assert (i = k) as -> by lia. rewrite Hp. reflexivity.
Qed.

Lemma dominance_pass_length (dom : nat -> nat -> bool) (n : nat) :
  length (dominance_pass dom n) = n.
Proof.
  destruct n as [|n]; [reflexivity|].
  unfold dominance_pass, range.
  apply (dominance_prefix (fun i => inner_scan dom i (seq 0 (S n)))
                          (S n) (S n) 0); lia.
Qed.

Lemma dominance_pass_lookup (dom : nat -> nat -> bool) (n i : nat) :
  i < n ->
  dominance_pass dom n !! i
  = Some (if inner_scan dom i (range n) then 0 else 1).
Proof.
  intros Hi. unfold dominance_pass, range.
  destruct (dominance_prefix (fun i => inner_scan dom i (seq 0 n)) n n i)
    as [H _]; [lia | exact Hi |].
  rewrite H. replace (i <? n) with true; [reflexivity|].
  symmetry. apply Nat.ltb_lt. exact Hi.
Qed.

Lemma dominance_pass_marked (dom : nat -> nat -> bool) (n i : nat) :
  i < n ->
  (dominance_pass dom n !! i = Some 0 <->
   exists j, j < n /\ j <> i /\ dom i j = true).
Proof.
  intros Hi. rewrite dominance_pass_lookup by exact Hi.
  destruct (inner_scan dom i (range n)) eqn:Hs.
  - apply inner_scan_true in Hs. destruct Hs as (j & Hj & Hne & Hd).
    apply in_range in Hj. split; [intros _; eauto | reflexivity].
  - split; [discriminate|]. intros (j & Hj & Hne & Hd).
    assert (inner_scan dom i (range n) = true) as Hs'.
    { apply inner_scan_true. exists j. rewrite in_range. auto. }
    congruence.
Qed.

Lemma dominance_pass_flag (dom : nat -> nat -> bool) (n i f : nat) :
  dominance_pass dom n !! i = Some f -> f = 0 \/ f = 1.
Proof.
  intros H. assert (i < n) as Hi.
  { apply lookup_lt_Some in H. rewrite dominance_pass_length in H. exact H. }
  rewrite dominance_pass_lookup in H by exact Hi.
  destruct (inner_scan dom i (range n)); inversion H; auto.
Qed.

Lemma row_dominated_by_iff (A : ndarray) (i j : nat) :
  row_dominated_by A i j = true <->
  (forall k, k < shape1 A -> (item A i k <= item A j k)%Q) /\
  (exists k, k < shape1 A /\ (item A i k < item A j k)%Q).
Proof.
  unfold row_dominated_by, row_all_le, row_any_lt.
  rewrite andb_true_iff, forallb_forall, existsb_exists.
  split.
  - intros [Hall (k & Hk & Hlt)]. split.
    + intros k' Hk'. apply Qle_bool_iff, Hall, in_range, Hk'.
    + exists k. split; [apply in_range, Hk | apply Qlt_bool_iff, Hlt].
  - intros [Hall (k & Hk & Hlt)]. split.
    + intros k' Hk'. apply Qle_bool_iff, Hall, in_range, Hk'.
    + exists k. split; [apply in_range, Hk | apply Qlt_bool_iff, Hlt].
Qed.

Lemma col_dominated_by_iff (A : ndarray) (j k : nat) :
  col_dominated_by A j k = true <->
  (forall i, i < shape0 A -> (item A i k <= item A i j)%Q) /\
  (exists i, i < shape0 A /\ (item A i k < item A i j)%Q).
Proof.
  unfold col_dominated_by, col_all_ge, col_any_gt.
  rewrite andb_true_iff, forallb_forall, existsb_exists.
  split.
  - intros [Hall (i & Hi & Hlt)]. split.
    + intros i' Hi'. apply Qle_bool_iff, Hall, in_range, Hi'.
    + exists i. split; [apply in_range, Hi | apply Qlt_bool_iff, Hlt].
  - intros [Hall (i & Hi & Hlt)]. split.
    + intros i' Hi'. apply Qle_bool_iff, Hall, in_range, Hi'.
    + exists i. split; [apply in_range, Hi | apply Qlt_bool_iff, Hlt].
Qed.

Lemma forallb_ext_in {T} (f g : T -> bool) (l : list T) :
  (forall a, In a l -> f a = g a) -> forallb f l = forallb g l.
Proof.
  induction l as [|a l IH]; simpl; intros H; [reflexivity|].
  rewrite (H a) by auto. rewrite IH by auto. reflexivity.
Qed.

Lemma existsb_ext_in {T} (f g : T -> bool) (l : list T) :
  (forall a, In a l -> f a = g a) -> existsb f l = existsb g l.
Proof.
  induction l as [|a l IH]; simpl; intros H; [reflexivity|].
  rewrite (H a) by auto. rewrite IH by auto. reflexivity.
Qed.

Lemma inner_scan_ext (dom dom' : nat -> nat -> bool) (i : nat) (js : list nat) :
  (forall j, In j js -> dom i j = dom' i j) ->
  inner_scan dom i js = inner_scan dom' i js.
Proof.
  induction js as [|j js IH]; simpl; intros H; [reflexivity|].
  rewrite (H j) by auto. rewrite IH by auto. reflexivity.
Qed.

Lemma mark_fold_ext (p p' : nat -> bool) (l keep : list nat) :
  (forall i, In i l -> p i = p' i) ->
  fold_left (fun keep i => if p i then <[i:=0]> keep else keep) l keep
  = fold_left (fun keep i => if p' i then <[i:=0]> keep else keep) l keep.
Proof.
  revert keep. induction l as [|i l IH]; simpl; intros keep H; [reflexivity|].
  rewrite (H i) by auto. apply IH. auto.
Qed.

Lemma dominance_pass_ext (dom dom' : nat -> nat -> bool) (n : nat) :
  (forall i j, i < n -> j < n -> dom i j = dom' i j) ->
  dominance_pass dom n = dominance_pass dom' n.
Proof.
  intros H. unfold dominance_pass.
  apply (mark_fold_ext (fun i => inner_scan dom i (range n))
                       (fun i => inner_scan dom' i (range n))).
  intros i Hi. apply inner_scan_ext. intros j Hj.
  apply H; apply in_range; assumption.
Qed.

(** C5: the single-pass row check writes [keep[i] = 0] exactly when some
    other row [j] is at least as large in every column and strictly
    larger in one; the column check is the mirrored rule with [>=]; all
    other flags stay [1]; and a row (column) equal to another everywhere
    is not dominated by it. *)
Theorem single_pass_dominance_rule (A : ndarray) :
  (forall i, i < shape0 A ->
     (eliminate_weakly_dominated_rows A !! i = Some 0 <->
      exists j, j < shape0 A /\ j <> i /\
        (forall k, k < shape1 A -> (item A i k <= item A j k)%Q) /\
        (exists k, k < shape1 A /\ (item A i k < item A j k)%Q)) /\
     (eliminate_weakly_dominated_rows A !! i <> Some 0 ->
      eliminate_weakly_dominated_rows A !! i = Some 1)) /\
  (forall j, j < shape1 A ->
     (eliminate_weakly_dominated_cols A !! j = Some 0 <->
      exists k, k < shape1 A /\ k <> j /\
        (forall i, i < shape0 A -> (item A i j >= item A i k)%Q) /\
        (exists i, i < shape0 A /\ (item A i j > item A i k)%Q)) /\
     (eliminate_weakly_dominated_cols A !! j <> Some 0 ->
      eliminate_weakly_dominated_cols A !! j = Some 1)) /\
  (forall i j,
     (forall k, k < shape1 A -> (item A i k == item A j k)%Q) ->
     row_dominated_by A i j = false) /\
  (forall j k,
     (forall i, i < shape0 A -> (item A i j == item A i k)%Q) ->
     col_dominated_by A j k = false).
Proof.
  split; [|split; [|split]].
  - intros i Hi. split; [split|].
    + intros H. apply dominance_pass_marked in H; [|assumption].
      destruct H as (j & Hj & Hne & Hd). apply row_dominated_by_iff in Hd.
      exists j. tauto.
    + intros (j & Hj & Hne & Hd). apply dominance_pass_marked; [assumption|].
      exists j. rewrite row_dominated_by_iff. tauto.
    + unfold eliminate_weakly_dominated_rows.
      rewrite dominance_pass_lookup by assumption.
      destruct (inner_scan _ _ _); [intros []; reflexivity | reflexivity].
  - intros j Hj. split; [split|].
    + intros H. apply dominance_pass_marked in H; [|assumption].
      destruct H as (k & Hk & Hne & Hd). apply col_dominated_by_iff in Hd.
      exists k. unfold Qge, Qgt. tauto.
    + intros (k & Hk & Hne & Hd). apply dominance_pass_marked; [assumption|].
      exists k. rewrite col_dominated_by_iff. unfold Qge, Qgt in Hd. tauto.
    + unfold eliminate_weakly_dominated_cols.
      rewrite dominance_pass_lookup by assumption.
      destruct (inner_scan _ _ _); [intros []; reflexivity | reflexivity].
  - intros i j H.
    destruct (row_dominated_by A i j) eqn:Hd; [|reflexivity].
    apply row_dominated_by_iff in Hd. destruct Hd as [_ (k & Hk & Hlt)].
    specialize (H k Hk). lra.
  - intros j k H.
    destruct (col_dominated_by A j k) eqn:Hd; [|reflexivity].
    apply col_dominated_by_iff in Hd. destruct Hd as [_ (i & Hi & Hlt)].
    specialize (H i Hi). lra.
Qed.

(** ** Flag vectors *)

Lemma binary_replicate (n : nat) : binary (replicate n 1).
Proof. apply Forall_replicate. auto. Qed.

Lemma dominance_pass_binary (dom : nat -> nat -> bool) (n : nat) :
  binary (dominance_pass dom n).
Proof.
  apply Forall_lookup. intros i f H. exact (dominance_pass_flag _ _ _ _ H).
Qed.

Lemma binary_sum_le (l : list nat) : binary l -> sum_list l <= length l.
Proof.
  induction 1 as [|f l [->| ->] _ IH]; simpl; lia.
Qed.

Lemma binary_sum_full (l : list nat) :
  binary l -> length l <= sum_list l ->
  forall i, i < length l -> l !! i = Some 1.
Proof.
  induction 1 as [|f l Hf Hl IH]; simpl; intros Hs i Hi; [lia|].
  pose proof (binary_sum_le l Hl).
  destruct Hf as [->| ->]; simpl in Hs; [lia|].
  destruct i as [|i]; [reflexivity|]. simpl. apply IH; lia.
Qed.

Lemma sum_list_lookup_pos (l : list nat) (i : nat) :
  l !! i = Some 1 -> 1 <= sum_list l.
Proof.
  intros H. apply list_elem_of_lookup_2 in H.
  apply (sum_list_with_in _ id) in H. exact H.
Qed.

Lemma select_kept_length (active keep : list nat) :
  length active = length keep -> binary keep ->
  length (select_kept active keep) = sum_list keep.
Proof.
  unfold select_kept. revert keep.
  induction active as [|r active IH]; intros [|k keep] Hlen Hb;
    simpl in *; try reflexivity; try discriminate.
  inversion Hb as [|? ? Hk Hb']; subst.
  destruct Hk as [->| ->]; simpl; rewrite IH by (try lia; assumption);
    reflexivity.
Qed.

Lemma select_kept_sublist (active keep : list nat) :
  select_kept active keep `sublist_of` active.
Proof.
  unfold select_kept. revert keep.
  induction active as [|r active IH]; intros [|k keep]; simpl.
  - constructor.
  - constructor.
  - apply sublist_nil_l.
  - destruct (Nat.eqb k 1); simpl.
    + apply sublist_skip, IH.
    + apply sublist_cons, IH.
Qed.

Lemma mem_iff (r : nat) (l : list nat) : mem r l = true <-> r ∈ l.
Proof.
  unfold mem. rewrite existsb_exists, list_elem_of_In. split.
  - intros (y & Hy & Heq). apply Nat.eqb_eq in Heq. subst. exact Hy.
  - intros H. exists r. split; [exact H | apply Nat.eqb_refl].
Qed.

Lemma clear_flags_length (active new flags : list nat) :
  length (clear_flags active new flags) = length flags.
Proof.
  unfold clear_flags. revert flags.
  induction active as [|r active IH]; intros flags; simpl; [reflexivity|].
  rewrite IH. destruct (mem r new); [reflexivity | apply length_insert].
Qed.

Lemma clear_flags_lookup (active new flags : list nat) (r : nat) :
  clear_flags active new flags !! r =
  match flags !! r with
  | None => None
  | Some f =>
      Some (if existsb (fun r' => Nat.eqb r' r && negb (mem r' new)) active
            then 0 else f)
  end.
Proof.
  unfold clear_flags. revert flags.
  induction active as [|r' active IH]; intros flags; simpl.
  - destruct (flags !! r); reflexivity.
  - rewrite IH. destruct (mem r' new); simpl.
    + rewrite andb_false_r. reflexivity.
    + rewrite andb_true_r. destruct (Nat.eqb_spec r' r) as [->|Hne]; simpl.
      * destruct (flags !! r) as [f|] eqn:Hf.
        -- rewrite list_lookup_insert_eq by (eapply lookup_lt_Some; eauto).
           destruct (existsb _ active); reflexivity.
        -- rewrite list_insert_ge by (apply lookup_ge_None; exact Hf).
           rewrite Hf. reflexivity.
      * rewrite list_lookup_insert_ne by exact Hne. reflexivity.
Qed.

Lemma clear_flags_binary (active new flags : list nat) :
  binary flags -> binary (clear_flags active new flags).
Proof.
  intros Hb. apply Forall_lookup. intros i f H.
  rewrite clear_flags_lookup in H.
  destruct (flags !! i) as [f0|] eqn:Hf; [|discriminate].
  inversion H; subst.
  destruct (existsb _ active); [auto|].
  eapply Forall_lookup in Hb; eauto.
Qed.

Lemma tracks_initial (n : nat) : tracks n (range n) (replicate n 1).
Proof.
  split.
  - apply length_replicate.
  - apply NoDup_seq.
  - intros r. unfold range. rewrite elem_of_seq. split.
    + intros H. apply lookup_replicate_2. lia.
    + intros H. apply lookup_replicate in H. lia.
  - apply binary_replicate.
Qed.

Lemma tracks_step (n : nat) (active flags keep : list nat) :
  tracks n active flags ->
  tracks n (select_kept active keep)
           (clear_flags active (select_kept active keep) flags).
Proof.
  intros [Hlen Hnd Hmem Hbin].
  pose proof (select_kept_sublist active keep) as Hsub.
  split.
  - rewrite clear_flags_length. exact Hlen.
  - eapply sublist_NoDup; eauto.
  - intros r. rewrite clear_flags_lookup. split.
    + intros Hr. assert (r ∈ active) as Ha by (eapply elem_of_sublist; eauto).
      apply Hmem in Ha. rewrite Ha. f_equal.
      destruct (existsb _ active) eqn:He; [|reflexivity].
      apply existsb_exists in He. destruct He as (r' & _ & Hc).
      apply andb_true_iff in Hc. destruct Hc as [Heq Hn].
      apply Nat.eqb_eq in Heq. subst r'.
      apply mem_iff in Hr. rewrite Hr in Hn. discriminate.
    + destruct (flags !! r) as [f|] eqn:Hf; [|discriminate].
      destruct (existsb _ active) eqn:He; [discriminate|].
      intros H. inversion H; subst f.
      apply Hmem in Hf.
      destruct (mem r (select_kept active keep)) eqn:Hm;
        [apply mem_iff; exact Hm|].
      exfalso. apply not_true_iff_false in He. apply He.
      apply existsb_exists. exists r. split.
      * apply list_elem_of_In. exact Hf.
      * rewrite Nat.eqb_refl, Hm. reflexivity.
  - apply clear_flags_binary. exact Hbin.
Qed.

(** ** A dominance pass never removes everything *)

Lemma Qsum_map_le (a b : nat -> Q) (l : list nat) :
  (forall k, In k l -> (a k <= b k)%Q) ->
  (Qsum (map a l) <= Qsum (map b l))%Q.
Proof.
  induction l as [|k l IH]; simpl; intros H; [lra|].
  pose proof (H k (or_introl eq_refl)).
  assert (Qsum (map a l) <= Qsum (map b l))%Q by (apply IH; auto).
  lra.
Qed.

Lemma Qsum_map_lt (a b : nat -> Q) (l : list nat) :
  (forall k, In k l -> (a k <= b k)%Q) ->
  (exists k, In k l /\ (a k < b k)%Q) ->
  (Qsum (map a l) < Qsum (map b l))%Q.
Proof.
  induction l as [|k l IH]; simpl; intros H (k0 & Hin & Hlt); [contradiction|].
  pose proof (H k (or_introl eq_refl)).
  assert (Qsum (map a l) <= Qsum (map b l))%Q
    by (apply Qsum_map_le; auto).
  destruct Hin as [->|Hin].
  - lra.
  - assert (Qsum (map a l) < Qsum (map b l))%Q by (apply IH; eauto).
    lra.
Qed.

(** A list of indices has one whose measure is maximal. *)
Lemma exists_maximal (mu : nat -> Q) (l : list nat) :
  l <> [] -> exists i, In i l /\ forall j, In j l -> (mu j <= mu i)%Q.
Proof.
  induction l as [|a l IH]; [congruence|]. intros _.
  destruct l as [|b l'].
  - exists a. split; [left; reflexivity|].
    intros j [<-|[]]. lra.
  - destruct IH as (i & Hi & Hmax); [discriminate|].
    destruct (Qlt_le_dec (mu i) (mu a)) as [Hlt|Hle].
    + exists a. split; [left; reflexivity|].
      intros j [<-|Hj]; [lra|]. specialize (Hmax j Hj). lra.
    + exists i. split; [right; exact Hi|].
      intros j [<-|Hj]; [exact Hle | apply Hmax, Hj].
Qed.

(** A dominance relation that strictly increases some measure leaves at
    least one index unmarked. *)
Lemma dominance_pass_keeps_one (dom : nat -> nat -> bool) (mu : nat -> Q)
  (n : nat) :
  (forall i j, i < n -> j < n -> dom i j = true -> (mu i < mu j)%Q) ->
  0 < n ->
  exists i, i < n /\ dominance_pass dom n !! i = Some 1.
Proof.
  intros Hmu Hn.
  destruct (exists_maximal mu (range n)) as (i & Hi & Hmax).
  { unfold range. destruct n; [lia | discriminate]. }
  apply in_range in Hi. exists i. split; [exact Hi|].
  rewrite dominance_pass_lookup by exact Hi.
  destruct (inner_scan dom i (range n)) eqn:Hs; [|reflexivity].
  apply inner_scan_true in Hs. destruct Hs as (j & Hj & _ & Hd).
  specialize (Hmax j Hj). apply in_range in Hj.
  specialize (Hmu i j Hi Hj Hd). lra.
Qed.

Lemma row_dominated_by_sum (A : ndarray) (i j : nat) :
  row_dominated_by A i j = true ->
  (Qsum (row_of A i) < Qsum (row_of A j))%Q.
Proof.
  intros H. apply row_dominated_by_iff in H.
  destruct H as [Hall (k & Hk & Hlt)].
  unfold row_of. apply Qsum_map_lt.
  - intros k' Hk'. apply Hall, in_range, Hk'.
  - exists k. split; [apply in_range, Hk | exact Hlt].
Qed.

Lemma rows_keep_one (A : ndarray) :
  0 < shape0 A ->
  exists i, i < shape0 A /\ eliminate_weakly_dominated_rows A !! i = Some 1.
Proof.
  intros Hm. unfold eliminate_weakly_dominated_rows.
  apply (dominance_pass_keeps_one _ (fun i => Qsum (row_of A i))); [|exact Hm].
  intros i j _ _. apply row_dominated_by_sum.
Qed.

(** The column check is the row check of the negated transpose. *)
Lemma col_check_neg_transpose (A : ndarray) :
  eliminate_weakly_dominated_cols A
  = eliminate_weakly_dominated_rows (neg_transpose A).
Proof.
  unfold eliminate_weakly_dominated_cols, eliminate_weakly_dominated_rows.
  simpl. apply dominance_pass_ext. intros j k _ _.
  unfold col_dominated_by, row_dominated_by, col_all_ge, row_all_le,
    col_any_gt, row_any_lt. simpl.
  f_equal.
  - apply forallb_ext_in. intros i _. symmetry. apply Qle_bool_opp.
  - apply existsb_ext_in. intros i _. symmetry. apply Qlt_bool_opp.
Qed.

Lemma cols_keep_one (A : ndarray) :
  0 < shape1 A ->
  exists j, j < shape1 A /\ eliminate_weakly_dominated_cols A !! j = Some 1.
Proof.
  intros Hn. rewrite col_check_neg_transpose.
  apply (rows_keep_one (neg_transpose A)). exact Hn.
Qed.

Lemma rows_length (A : ndarray) :
  length (eliminate_weakly_dominated_rows A) = shape0 A.
Proof. apply dominance_pass_length. Qed.

Lemma cols_length (A : ndarray) :
  length (eliminate_weakly_dominated_cols A) = shape1 A.
Proof. apply dominance_pass_length. Qed.

(** C9: the column check on [M] returns the same keep-vector as the row
    check on the negated transpose of [M]. *)
Theorem col_check_is_row_check_of_neg_transpose (A : ndarray) :
  eliminate_weakly_dominated_cols A
  = eliminate_weakly_dominated_rows (neg_transpose A).
Proof. exact (col_check_neg_transpose A). Qed.

(** ** One iteration of the reducer *)

Lemma length_pos_nonempty {T} (l : list T) : 0 < length l <-> l <> [].
Proof. destruct l; simpl; split; intros; try congruence; lia. Qed.

Lemma row_step_changed (A : ndarray) (st st' : reducer_state) :
  row_step A st = (st', true) ->
  length (active_rows st') < length (active_rows st) /\
  active_cols st' = active_cols st /\
  (active_rows st <> [] -> active_rows st' <> []).
Proof.
  unfold row_step.
  set (keep := eliminate_weakly_dominated_rows
                 (ix_ A (active_rows st) (active_cols st))).
  assert (length keep = length (active_rows st)) as Hlen
    by (unfold keep; rewrite rows_length; reflexivity).
  assert (binary keep) as Hb by apply dominance_pass_binary.
  destruct (Nat.ltb_spec (sum_list keep) (length keep)) as [Hlt|Hge];
    [|discriminate].
  intros H. inversion H; subst st'; clear H. simpl.
  rewrite select_kept_length by (try symmetry; assumption).
  split; [lia|]. split; [reflexivity|].
  intros Hne. apply length_pos_nonempty.
  rewrite select_kept_length by (try symmetry; assumption).
  destruct (rows_keep_one (ix_ A (active_rows st) (active_cols st)))
    as (i & _ & Hi).
  { simpl. apply length_pos_nonempty. exact Hne. }
  eapply sum_list_lookup_pos. exact Hi.
Qed.

Lemma row_step_unchanged (A : ndarray) (st st' : reducer_state) :
  row_step A st = (st', false) ->
  st' = st /\
  length (eliminate_weakly_dominated_rows
            (ix_ A (active_rows st) (active_cols st)))
  <= sum_list (eliminate_weakly_dominated_rows
                 (ix_ A (active_rows st) (active_cols st))).
Proof.
  unfold row_step.
  destruct (Nat.ltb_spec
              (sum_list (eliminate_weakly_dominated_rows
                           (ix_ A (active_rows st) (active_cols st))))
              (length (eliminate_weakly_dominated_rows
                         (ix_ A (active_rows st) (active_cols st)))))
    as [Hlt|Hge]; [discriminate|].
  intros H. inversion H; subst. split; [reflexivity | exact Hge].
Qed.

Lemma col_step_changed (A : ndarray) (st st' : reducer_state) :
  col_step A st = (st', true) ->
  length (active_cols st') < length (active_cols st) /\
  active_rows st' = active_rows st /\
  (active_cols st <> [] -> active_cols st' <> []).
Proof.
  unfold col_step.
  set (keep := eliminate_weakly_dominated_cols
                 (ix_ A (active_rows st) (active_cols st))).
  assert (length keep = length (active_cols st)) as Hlen
    by (unfold keep; rewrite cols_length; reflexivity).
  assert (binary keep) as Hb by apply dominance_pass_binary.
  destruct (Nat.ltb_spec (sum_list keep) (length keep)) as [Hlt|Hge];
    [|discriminate].
  intros H. inversion H; subst st'; clear H. simpl.
  rewrite select_kept_length by (try symmetry; assumption).
  split; [lia|]. split; [reflexivity|].
  intros Hne. apply length_pos_nonempty.
  rewrite select_kept_length by (try symmetry; assumption).
  destruct (cols_keep_one (ix_ A (active_rows st) (active_cols st)))
    as (i & _ & Hi).
  { simpl. apply length_pos_nonempty. exact Hne. }
  eapply sum_list_lookup_pos. exact Hi.
Qed.

Lemma col_step_unchanged (A : ndarray) (st st' : reducer_state) :
  col_step A st = (st', false) ->
  st' = st /\
  length (eliminate_weakly_dominated_cols
            (ix_ A (active_rows st) (active_cols st)))
  <= sum_list (eliminate_weakly_dominated_cols
                 (ix_ A (active_rows st) (active_cols st))).
Proof.
  unfold col_step.
  destruct (Nat.ltb_spec
              (sum_list (eliminate_weakly_dominated_cols
                           (ix_ A (active_rows st) (active_cols st))))
              (length (eliminate_weakly_dominated_cols
                         (ix_ A (active_rows st) (active_cols st)))))
    as [Hlt|Hge]; [discriminate|].
  intros H. inversion H; subst. split; [reflexivity | exact Hge].
Qed.

Lemma row_step_inv (A : ndarray) (st : reducer_state) :
  state_inv A st -> state_inv A (fst (row_step A st)).
Proof.
  intros [Hr Hc]. unfold row_step.
  destruct (_ <? _); simpl; [|split; assumption].
  split; simpl; [apply tracks_step; exact Hr | exact Hc].
Qed.

Lemma col_step_inv (A : ndarray) (st : reducer_state) :
  state_inv A st -> state_inv A (fst (col_step A st)).
Proof.
  intros [Hr Hc]. unfold col_step.
  destruct (_ <? _); simpl; [|split; assumption].
  split; simpl; [exact Hr | apply tracks_step; exact Hc].
Qed.

Lemma reduction_pass_eq (A : ndarray) (st : reducer_state) :
  reduction_pass A st =
  (fst (col_step A (fst (row_step A st))),
   snd (row_step A st) || snd (col_step A (fst (row_step A st)))).
Proof.
  unfold reduction_pass.
  destruct (row_step A st) as [st1 ch1]. simpl.
  destruct (col_step A st1) as [st2 ch2]. reflexivity.
Qed.

Lemma reduction_pass_inv (A : ndarray) (st : reducer_state) :
  state_inv A st -> state_inv A (fst (reduction_pass A st)).
Proof.
  intros H. rewrite reduction_pass_eq. simpl.
  apply col_step_inv, row_step_inv, H.
Qed.

Lemma reduction_pass_nonempty (A : ndarray) (st : reducer_state) :
  nonempty_state st -> nonempty_state (fst (reduction_pass A st)).
Proof.
  intros [Hr Hc]. rewrite reduction_pass_eq. simpl.
  destruct (row_step A st) as [st1 [|]] eqn:H1; simpl.
  - apply row_step_changed in H1. destruct H1 as (_ & Hcols & Hne).
    destruct (col_step A st1) as [st2 [|]] eqn:H2; simpl.
    + apply col_step_changed in H2. destruct H2 as (_ & Hrows & Hne2).
      split; [rewrite Hrows; auto | apply Hne2; rewrite Hcols; exact Hc].
    + apply col_step_unchanged in H2. destruct H2 as [-> _].
      split; [auto | rewrite Hcols; exact Hc].
  - apply row_step_unchanged in H1. destruct H1 as [-> _].
    destruct (col_step A st) as [st2 [|]] eqn:H2; simpl.
    + apply col_step_changed in H2. destruct H2 as (_ & Hrows & Hne2).
      split; [rewrite Hrows; exact Hr | auto].
    + apply col_step_unchanged in H2. destruct H2 as [-> _].
      split; assumption.
Qed.

Lemma reduction_pass_progress (A : ndarray) (st st' : reducer_state) :
  reduction_pass A st = (st', true) -> weight st' < weight st.
Proof.
  rewrite reduction_pass_eq. unfold weight. intros H.
  injection H as Hst Hch. subst st'.
  destruct (row_step A st) as [st1 [|]] eqn:E1; simpl in *.
  - apply row_step_changed in E1. destruct E1 as (Hlt & Hcols & _).
    destruct (col_step A st1) as [st2 [|]] eqn:E2; simpl.
    + apply col_step_changed in E2. destruct E2 as (Hlt2 & Hrows & _).
      rewrite Hrows, <- Hcols. lia.
    + apply col_step_unchanged in E2. destruct E2 as [-> _].
      rewrite Hcols. lia.
  - apply row_step_unchanged in E1. destruct E1 as [-> _].
    destruct (col_step A st) as [st2 [|]] eqn:E2; simpl in *;
      [|discriminate].
    apply col_step_changed in E2. destruct E2 as (Hlt2 & Hrows & _).
    rewrite Hrows. lia.
Qed.

Lemma reduction_pass_stable (A : ndarray) (st st' : reducer_state) :
  reduction_pass A st = (st', false) ->
  st' = st /\
  length (eliminate_weakly_dominated_rows
            (ix_ A (active_rows st) (active_cols st)))
  <= sum_list (eliminate_weakly_dominated_rows
                 (ix_ A (active_rows st) (active_cols st))) /\
  length (eliminate_weakly_dominated_cols
            (ix_ A (active_rows st) (active_cols st)))
  <= sum_list (eliminate_weakly_dominated_cols
                 (ix_ A (active_rows st) (active_cols st))).
Proof.
  rewrite reduction_pass_eq. intros H. injection H as Hst Hch.
  apply orb_false_iff in Hch. destruct Hch as [Hr Hc].
  destruct (row_step A st) as [st1 ch1] eqn:E1. simpl in *. subst ch1.
  apply row_step_unchanged in E1. destruct E1 as [-> Hrows].
  destruct (col_step A st) as [st2 ch2] eqn:E2. simpl in *. subst ch2.
  apply col_step_unchanged in E2. destruct E2 as [-> Hcols].
  subst st'. auto.
Qed.

(** ** The [while changed] loop *)

Lemma reduction_loop_S (fuel : nat) (A : ndarray) (st : reducer_state) :
  reduction_loop (S fuel) A st =
  if snd (reduction_pass A st) then
    '(st'', k) ← reduction_loop fuel A (fst (reduction_pass A st));
    Some (st'', S k)
  else Some (fst (reduction_pass A st), 1).
Proof. simpl. destruct (reduction_pass A st) as [st' ch]. reflexivity. Qed.

Lemma reduction_loop_terminates (A : ndarray) (fuel : nat)
  (st : reducer_state) :
  weight st < fuel ->
  exists st' k, reduction_loop fuel A st = Some (st', k) /\ k <= S (weight st).
Proof.
  revert st. induction fuel as [|fuel IH]; intros st Hw; [lia|].
  rewrite reduction_loop_S.
  destruct (reduction_pass A st) as [st1 [|]] eqn:Hp; simpl.
  - apply reduction_pass_progress in Hp.
    destruct (IH st1) as (st' & k & Hl & Hk); [lia|].
    rewrite Hl. simpl. exists st', (S k). split; [reflexivity | lia].
  - exists st1, 1. split; [reflexivity | lia].
Qed.

Lemma nonempty_weight (st : reducer_state) :
  nonempty_state st -> 2 <= weight st.
Proof.
  intros [Hr Hc]. apply length_pos_nonempty in Hr, Hc. unfold weight. lia.
Qed.

Lemma reduction_loop_bound (A : ndarray) (fuel : nat) (st : reducer_state) :
  nonempty_state st -> weight st <= S fuel ->
  exists st' k, reduction_loop fuel A st = Some (st', k) /\ S k <= weight st.
Proof.
  revert st. induction fuel as [|fuel IH]; intros st Hne Hw.
  - apply nonempty_weight in Hne. lia.
  - rewrite reduction_loop_S.
    pose proof (reduction_pass_nonempty A st Hne) as Hne'.
    destruct (reduction_pass A st) as [st1 [|]] eqn:Hp; simpl in *.
    + apply reduction_pass_progress in Hp.
      destruct (IH st1 Hne') as (st' & k & Hl & Hk); [lia|].
      rewrite Hl. simpl. exists st', (S k). split; [reflexivity | lia].
    + apply nonempty_weight in Hne.
      exists st1, 1. split; [reflexivity | lia].
Qed.

Lemma reduction_loop_mono (A : ndarray) (fuel fuel' : nat)
  (st : reducer_state) (r : reducer_state * nat) :
  reduction_loop fuel A st = Some r -> fuel <= fuel' ->
  reduction_loop fuel' A st = Some r.
Proof.
  revert fuel' st r. induction fuel as [|fuel IH]; intros fuel' st r H Hle;
    [discriminate|].
  destruct fuel' as [|fuel']; [lia|].
  rewrite reduction_loop_S in *.
  destruct (snd (reduction_pass A st)); [|exact H].
  destruct (reduction_loop fuel A _) as [[st2 k]|] eqn:Hl; [|discriminate].
  rewrite (IH fuel' _ _ Hl) by lia. exact H.
Qed.

Lemma reduction_loop_inv (A : ndarray) (fuel : nat)
  (st st' : reducer_state) (k : nat) :
  reduction_loop fuel A st = Some (st', k) ->
  (state_inv A st -> state_inv A st') /\
  (nonempty_state st -> nonempty_state st') /\
  reduction_pass A st' = (st', false).
Proof.
  revert st k. induction fuel as [|fuel IH]; intros st k H; [discriminate|].
  rewrite reduction_loop_S in H.
  pose proof (reduction_pass_inv A st) as Hinv.
  pose proof (reduction_pass_nonempty A st) as Hne.
  destruct (reduction_pass A st) as [st1 [|]] eqn:Hp; simpl in *.
  - destruct (reduction_loop fuel A st1) as [[st2 k2]|] eqn:Hl;
      [|discriminate].
    simpl in H. injection H as -> _.
    destruct (IH _ _ Hl) as (I1 & I2 & I3). auto.
  - injection H as -> _.
    destruct (reduction_pass_stable _ _ _ Hp) as (-> & _).
    auto.
Qed.

Lemma initial_state_inv (A : ndarray) : state_inv A (initial_state A).
Proof. split; apply tracks_initial. Qed.

Lemma initial_state_nonempty (A : ndarray) :
  0 < shape0 A -> 0 < shape1 A -> nonempty_state (initial_state A).
Proof.
  intros Hm Hn. unfold nonempty_state, initial_state, range. simpl.
  destruct (shape0 A), (shape1 A); try lia. split; discriminate.
Qed.

Lemma initial_state_weight (A : ndarray) :
  weight (initial_state A) = shape0 A + shape1 A.
Proof.
  unfold weight, initial_state, range. simpl. rewrite !length_seq.
  reflexivity.
Qed.

(** The reducer always returns, and its result comes from a state that
    satisfies the bookkeeping invariant and is a fixed point of the loop
    body. *)
Lemma reducer_returns (A : ndarray) :
  exists st k,
    reduction_loop (S (shape0 A + shape1 A)) A (initial_state A)
    = Some (st, k) /\
    iterated_elimination_dominated_strategies A
    = Some (ix_ A (active_rows st) (active_cols st),
            row_flags st, col_flags st) /\
    state_inv A st /\
    reduction_pass A st = (st, false) /\
    k <= S (shape0 A + shape1 A).
Proof.
  destruct (reduction_loop_terminates A (S (shape0 A + shape1 A))
                                       (initial_state A))
    as (st & k & Hl & Hk).
  { rewrite initial_state_weight. lia. }
  exists st, k. split; [exact Hl|].
  unfold iterated_elimination_dominated_strategies. rewrite Hl. simpl.
  split; [reflexivity|].
  destruct (reduction_loop_inv _ _ _ _ _ Hl) as (I1 & _ & I3).
  rewrite initial_state_weight in Hk.
  auto using initial_state_inv.
Qed.

Lemma reducer_returns_nonempty (A : ndarray) :
  0 < shape0 A -> 0 < shape1 A ->
  exists st k,
    reduction_loop (shape0 A + shape1 A) A (initial_state A) = Some (st, k) /\
    iterated_elimination_dominated_strategies A
    = Some (ix_ A (active_rows st) (active_cols st),
            row_flags st, col_flags st) /\
    state_inv A st /\ nonempty_state st /\
    reduction_pass A st = (st, false) /\
    S k <= shape0 A + shape1 A.
Proof.
  intros Hm Hn.
  destruct (reduction_loop_bound A (shape0 A + shape1 A) (initial_state A))
    as (st & k & Hl & Hk).
  { apply initial_state_nonempty; assumption. }
  { rewrite initial_state_weight. lia. }
  exists st, k. split; [exact Hl|].
  unfold iterated_elimination_dominated_strategies.
  rewrite (reduction_loop_mono _ _ (S (shape0 A + shape1 A)) _ _ Hl) by lia.
  simpl. split; [reflexivity|].
  destruct (reduction_loop_inv _ _ _ _ _ Hl) as (I1 & I2 & I3).
  rewrite initial_state_weight in Hk.
  auto using initial_state_inv, initial_state_nonempty.
Qed.

Lemma reduction_pass_shrinks (A : ndarray) (st : reducer_state) :
  length (active_rows (fst (reduction_pass A st))) <= length (active_rows st) /\
  length (active_cols (fst (reduction_pass A st))) <= length (active_cols st).
Proof.
  rewrite reduction_pass_eq. simpl.
  destruct (row_step A st) as [st1 [|]] eqn:E1; simpl.
  - apply row_step_changed in E1. destruct E1 as (Hlt & Hcols & _).
    destruct (col_step A st1) as [st2 [|]] eqn:E2; simpl.
    + apply col_step_changed in E2. destruct E2 as (Hlt2 & Hrows & _).
      rewrite Hrows, <- Hcols. lia.
    + apply col_step_unchanged in E2. destruct E2 as [-> _].
      rewrite Hcols. lia.
  - apply row_step_unchanged in E1. destruct E1 as [-> _].
    destruct (col_step A st) as [st2 [|]] eqn:E2; simpl.
    + apply col_step_changed in E2. destruct E2 as (Hlt2 & Hrows & _).
      rewrite Hrows. lia.
    + apply col_step_unchanged in E2. destruct E2 as [-> _]. lia.
Qed.

Lemma row_dominated_by_asym (A : ndarray) (i j : nat) :
  row_dominated_by A i j = true -> row_dominated_by A j i = false.
Proof.
  intros H. destruct (row_dominated_by A j i) eqn:H'; [|reflexivity].
  apply row_dominated_by_sum in H, H'. lra.
Qed.

Lemma col_dominated_by_row (A : ndarray) (j k : nat) :
  col_dominated_by A j k = row_dominated_by (neg_transpose A) j k.
Proof.
  unfold col_dominated_by, row_dominated_by, col_all_ge, row_all_le,
    col_any_gt, row_any_lt. simpl.
  f_equal.
  - apply forallb_ext_in. intros i _. symmetry. apply Qle_bool_opp.
  - apply existsb_ext_in. intros i _. symmetry. apply Qlt_bool_opp.
Qed.

Lemma row_dominated_by_irrefl (A : ndarray) (i : nat) :
  row_dominated_by A i i = false.
Proof.
  destruct (row_dominated_by A i i) eqn:H; [|reflexivity].
  apply row_dominated_by_sum in H. lra.
Qed.

Lemma tracks_flag_of_nonempty (n : nat) (active flags : list nat) :
  tracks n active flags -> active <> [] ->
  exists r, r < n /\ flags !! r = Some 1.
Proof.
  intros [Hlen _ Hmem _] Hne.
  destruct active as [|r active]; [congruence|].
  assert (flags !! r = Some 1) as Hr by (apply Hmem; left).
  exists r. split; [|exact Hr].
  apply lookup_lt_Some in Hr. lia.
Qed.

(** C4: on a non-empty matrix the reducer returns, and each of the two
    Index-Flag Vectors it returns has an entry equal to 1.  No strategy
    dominates itself, and two strategies never dominate each other. *)
Theorem reduction_keeps_a_row_and_a_column (A : ndarray) :
  0 < shape0 A -> 0 < shape1 A ->
  (exists B rf cf,
     iterated_elimination_dominated_strategies A = Some (B, rf, cf) /\
     (exists r, r < shape0 A /\ rf !! r = Some 1) /\
     (exists c, c < shape1 A /\ cf !! c = Some 1)) /\
  (forall M i, row_dominated_by M i i = false /\
               col_dominated_by M i i = false) /\
  (forall M i j,
     (row_dominated_by M i j = true -> row_dominated_by M j i = false) /\
     (col_dominated_by M i j = true -> col_dominated_by M j i = false)).
Proof.
  intros Hm Hn. split; [|split].
  - destruct (reducer_returns_nonempty A Hm Hn)
      as (st & k & _ & Hret & [Hr Hc] & [Hner Hnec] & _).
    exists (ix_ A (active_rows st) (active_cols st)),
           (row_flags st), (col_flags st).
    split; [exact Hret|].
    split; eapply tracks_flag_of_nonempty; eauto.
  - intros M i. rewrite col_dominated_by_row.
    split; apply row_dominated_by_irrefl.
  - intros M i j. rewrite !col_dominated_by_row.
    split; apply row_dominated_by_asym.
Qed.

(** C6: on a non-empty [m x n] matrix every iteration that continues the
    loop strictly decreases the active row count or the active column
    count, neither count ever increases or drops below 1, and the loop
    ends after at most [m + n] iterations. *)
Theorem reduction_loop_iteration_bound (A : ndarray) :
  0 < shape0 A -> 0 < shape1 A ->
  (forall st st',
     nonempty_state st -> reduction_pass A st = (st', true) ->
     (length (active_rows st') < length (active_rows st) \/
      length (active_cols st') < length (active_cols st)) /\
     length (active_rows st') <= length (active_rows st) /\
     length (active_cols st') <= length (active_cols st) /\
     1 <= length (active_rows st') /\ 1 <= length (active_cols st')) /\
  (exists st k,
     reduction_loop (shape0 A + shape1 A) A (initial_state A) = Some (st, k) /\
     k <= shape0 A + shape1 A /\
     iterated_elimination_dominated_strategies A
     = Some (ix_ A (active_rows st) (active_cols st),
             row_flags st, col_flags st)).
Proof.
  intros Hm Hn. split.
  - intros st st' Hne Hp.
    pose proof (reduction_pass_progress _ _ _ Hp) as Hw.
    pose proof (reduction_pass_shrinks A st) as [Hr Hc].
    pose proof (reduction_pass_nonempty A st Hne) as [Hner Hnec].
    rewrite Hp in Hr, Hc, Hner, Hnec. simpl in *.
    apply length_pos_nonempty in Hner, Hnec.
    unfold weight in Hw. lia.
  - destruct (reducer_returns_nonempty A Hm Hn)
      as (st & k & Hl & Hret & _ & _ & _ & Hk).
    exists st, k. split; [exact Hl|]. split; [lia | exact Hret].
Qed.

(** ** Running the reducer on its own result *)

Lemma rows_check_arr_eq (A B : ndarray) :
  arr_eq A B ->
  eliminate_weakly_dominated_rows A = eliminate_weakly_dominated_rows B.
Proof.
  intros (H0 & H1 & Hit). unfold eliminate_weakly_dominated_rows.
  rewrite <- H0. apply dominance_pass_ext. intros i j Hi Hj.
  unfold row_dominated_by, row_all_le, row_any_lt. rewrite <- H1.
  f_equal.
  - apply forallb_ext_in. intros k Hk. apply in_range in Hk.
    rewrite !Hit by assumption. reflexivity.
  - apply existsb_ext_in. intros k Hk. apply in_range in Hk.
    rewrite !Hit by assumption. reflexivity.
Qed.

Lemma cols_check_arr_eq (A B : ndarray) :
  arr_eq A B ->
  eliminate_weakly_dominated_cols A = eliminate_weakly_dominated_cols B.
Proof.
  intros (H0 & H1 & Hit). unfold eliminate_weakly_dominated_cols.
  rewrite <- H1. apply dominance_pass_ext. intros i j Hi Hj.
  unfold col_dominated_by, col_all_ge, col_any_gt. rewrite <- H0.
  f_equal.
  - apply forallb_ext_in. intros k Hk. apply in_range in Hk.
    rewrite !Hit by assumption. reflexivity.
  - apply existsb_ext_in. intros k Hk. apply in_range in Hk.
    rewrite !Hit by assumption. reflexivity.
Qed.

Lemma ix_range (B : ndarray) :
  arr_eq (ix_ B (range (shape0 B)) (range (shape1 B))) B.
Proof.
  unfold arr_eq, ix_, range. simpl. rewrite !length_seq.
  split; [reflexivity|]. split; [reflexivity|].
  intros i j Hi Hj. rewrite !seq_nth by assumption. reflexivity.
Qed.

(** A matrix on which neither check marks anything is returned at once. *)
Lemma reducer_on_fixed_point (B : ndarray) :
  length (eliminate_weakly_dominated_rows B)
  <= sum_list (eliminate_weakly_dominated_rows B) ->
  length (eliminate_weakly_dominated_cols B)
  <= sum_list (eliminate_weakly_dominated_cols B) ->
  reduction_pass B (initial_state B) = (initial_state B, false).
Proof.
  intros Hr Hc.
  assert (row_step B (initial_state B) = (initial_state B, false)) as E1.
  { unfold row_step. simpl. rewrite (rows_check_arr_eq _ _ (ix_range B)).
    destruct (Nat.ltb_spec (sum_list (eliminate_weakly_dominated_rows B))
                (length (eliminate_weakly_dominated_rows B)));
      [lia | reflexivity]. }
  assert (col_step B (initial_state B) = (initial_state B, false)) as E2.
  { unfold col_step. simpl. rewrite (cols_check_arr_eq _ _ (ix_range B)).
    destruct (Nat.ltb_spec (sum_list (eliminate_weakly_dominated_cols B))
                (length (eliminate_weakly_dominated_cols B)));
      [lia | reflexivity]. }
  unfold reduction_pass. rewrite E1, E2. reflexivity.
Qed.

(** C8: the reducer is idempotent.  Run on the reduced matrix it returned,
    it stops after one iteration without eliminating anything: both flag
    vectors are all ones and the matrix comes back unchanged. *)
Theorem reduce_idempotent (A : ndarray) :
  exists B rf cf,
    iterated_elimination_dominated_strategies A = Some (B, rf, cf) /\
    reduction_loop (S (shape0 B + shape1 B)) B (initial_state B)
    = Some (initial_state B, 1) /\
    exists B',
      iterated_elimination_dominated_strategies B
      = Some (B', replicate (shape0 B) 1, replicate (shape1 B) 1) /\
      arr_eq B' B.
Proof.
  destruct (reducer_returns A) as (st & k & _ & Hret & _ & Hfix & _).
  set (B := ix_ A (active_rows st) (active_cols st)).
  exists B, (row_flags st), (col_flags st). split; [exact Hret|].
  destruct (reduction_pass_stable _ _ _ Hfix) as (_ & Hr & Hc).
  fold B in Hr, Hc.
  pose proof (reducer_on_fixed_point B Hr Hc) as Hp.
  assert (reduction_loop (S (shape0 B + shape1 B)) B (initial_state B)
          = Some (initial_state B, 1)) as Hl.
  { rewrite reduction_loop_S, Hp. reflexivity. }
  split; [exact Hl|].
  exists (ix_ B (range (shape0 B)) (range (shape1 B))).
  split; [|apply ix_range].
  unfold iterated_elimination_dominated_strategies. rewrite Hl. reflexivity.
Qed.

(** ** Strategy expansion *)

Lemma count_ones_cons (f : nat) (fl : list nat) :
  count_ones (f :: fl) = (if Nat.eqb f 1 then 1 else 0) + count_ones fl.
Proof.
  unfold count_ones. destruct f as [|[|f]]; reflexivity.
Qed.

Lemma count_ones_binary (flags : list nat) :
  binary flags -> count_ones flags = sum_list flags.
Proof.
  induction 1 as [|f fl [->| ->] _ IH]; [reflexivity| |];
    rewrite count_ones_cons, IH; reflexivity.
Qed.

Lemma expand_loop_scatter (reduced : list Q) (fl : list nat) :
  forall (pre : list Q) (idx : nat),
    idx + count_ones fl <= length reduced ->
    expand_loop reduced (combine (seq (length pre) (length fl)) fl)
                (pre ++ replicate (length fl) 0%Q, idx)
    = Some (pre ++ scatter fl (drop idx reduced), idx + count_ones fl).
Proof.
  induction fl as [|f fl IH]; intros pre idx Hlen.
  - simpl. rewrite Nat.add_0_r. reflexivity.
  - rewrite count_ones_cons in *. simpl.
    destruct (Nat.eqb f 1) eqn:Hf.
    + destruct (reduced !! idx) as [v|] eqn:Hv.
      2:{ apply lookup_ge_None in Hv. lia. }
      simpl.
      replace (<[length pre:=v]> (pre ++ 0%Q :: replicate (length fl) 0%Q))
        with ((pre ++ [v]) ++ replicate (length fl) 0%Q).
      2:{ rewrite <- (Nat.add_0_r (length pre)) at 1.
          rewrite insert_app_r. simpl. rewrite <- app_assoc. reflexivity. }
      replace (S (length pre)) with (length (pre ++ [v]))
        by (rewrite length_app; simpl; lia).
      rewrite IH by lia.
      rewrite (drop_S _ _ _ Hv). rewrite <- app_assoc. simpl.
      do 3 f_equal. lia.
    + simpl.
      replace (pre ++ 0%Q :: replicate (length fl) 0%Q)
        with ((pre ++ [0%Q]) ++ replicate (length fl) 0%Q)
        by (rewrite <- app_assoc; reflexivity).
      replace (S (length pre)) with (length (pre ++ [0%Q]))
        by (rewrite length_app; simpl; lia).
      rewrite IH by lia.
      rewrite <- app_assoc. reflexivity.
Qed.

Lemma expand_scatter (flags : list nat) (reduced : list Q) :
  count_ones flags <= length reduced ->
  expand flags reduced = Some (scatter flags reduced).
Proof.
  intros H. unfold expand, enumerate, range.
  pose proof (expand_loop_scatter reduced flags [] 0) as E.
  simpl in E. rewrite E by exact H. reflexivity.
Qed.

Lemma scatter_length (fl : list nat) (red : list Q) :
  length (scatter fl red) = length fl.
Proof.
  revert red. induction fl as [|f fl IH]; intros red; simpl; [reflexivity|].
  destruct (Nat.eqb f 1); [destruct red|]; simpl; rewrite IH; reflexivity.
Qed.

Lemma scatter_gather (fl : list nat) :
  forall (pre red : list Q),
    length red = count_ones fl ->
    map (fun i => nth i (pre ++ scatter fl red) 0%Q)
        (flagged_from (length pre) fl) = red.
Proof.
  induction fl as [|f fl IH]; intros pre red Hlen.
  - destruct red; [reflexivity | discriminate].
  - rewrite count_ones_cons in Hlen. simpl.
    destruct (Nat.eqb f 1).
    + destruct red as [|v red]; [discriminate|]. simpl.
      rewrite nth_middle. f_equal.
      specialize (IH (pre ++ [v]) red).
      rewrite length_app, Nat.add_1_r, <- app_assoc in IH.
      apply IH. simpl in Hlen. lia.
    + specialize (IH (pre ++ [0%Q]) red).
      rewrite length_app, Nat.add_1_r, <- app_assoc in IH.
      apply IH. simpl in Hlen. lia.
Qed.

Lemma scatter_zero (fl : list nat) :
  forall (red : list Q) (i : nat),
    i < length fl -> fl !! i <> Some 1 -> scatter fl red !! i = Some 0%Q.
Proof.
  induction fl as [|f fl IH]; intros red i Hi Hf; simpl in *; [lia|].
  destruct i as [|i]; simpl in *.
  - destruct (Nat.eqb_spec f 1) as [->|_]; [congruence | reflexivity].
  - destruct (Nat.eqb f 1); [destruct red|]; simpl; apply IH; auto; lia.
Qed.

Lemma scatter_sum (fl : list nat) :
  forall red : list Q,
    length red = count_ones fl -> (Qsum (scatter fl red) == Qsum red)%Q.
Proof.
  induction fl as [|f fl IH]; intros red Hlen.
  - destruct red; [reflexivity | discriminate].
  - rewrite count_ones_cons in Hlen. simpl.
    destruct (Nat.eqb f 1).
    + destruct red as [|v red]; [discriminate|]. simpl.
      rewrite IH by (simpl in Hlen; lia). reflexivity.
    + simpl. rewrite IH by (simpl in Hlen; lia). lra.
Qed.

Lemma scatter_nonneg (fl : list nat) :
  forall red : list Q,
    Forall (fun v => (0 <= v)%Q) red ->
    Forall (fun v => (0 <= v)%Q) (scatter fl red).
Proof.
  induction fl as [|f fl IH]; intros red Hred; simpl; [constructor|].
  destruct (Nat.eqb f 1).
  - destruct red as [|v red].
    + constructor; [lra | apply IH; constructor].
    + inversion Hred; subst. constructor; [assumption | apply IH; assumption].
  - constructor; [lra | apply IH; assumption].
Qed.

(** C10: when the reduced vector has as many entries as there are flags
    equal to 1, expansion succeeds; the full vector has one entry per
    flag, read at the flagged indices in increasing order it is the
    reduced vector, it is zero at every other index, and its sum is the
    sum of the reduced vector. *)
Theorem expansion_preserves_content_and_mass
  (flags : list nat) (reduced : list Q) :
  length reduced = count_ones flags ->
  exists full,
    expand flags reduced = Some full /\
    length full = length flags /\
    map (fun i => nth i full 0%Q) (true_indices flags) = reduced /\
    (forall i, i < length flags -> flags !! i <> Some 1 ->
               full !! i = Some 0%Q) /\
    (Qsum full == Qsum reduced)%Q.
Proof.
  intros Hlen. exists (scatter flags reduced).
  split; [apply expand_scatter; lia|].
  split; [apply scatter_length|].
  split; [exact (scatter_gather flags [] reduced Hlen)|].
  split; [intros i; apply scatter_zero | apply scatter_sum, Hlen].
Qed.

Lemma expand_loop_raises (reduced : list Q) (fl : list nat) :
  forall (s : nat) (full : list Q) (idx : nat),
    idx <= length reduced -> length reduced < idx + count_ones fl ->
    expand_loop reduced (combine (seq s (length fl)) fl) (full, idx) = None.
Proof.
  induction fl as [|f fl IH]; intros s full idx Hle Hlt.
  - unfold count_ones in Hlt. simpl in Hlt. lia.
  - rewrite count_ones_cons in Hlt. simpl.
    destruct (Nat.eqb f 1).
    + destruct (reduced !! idx) as [v|] eqn:Hv; [|reflexivity].
      simpl. apply lookup_lt_Some in Hv. apply IH; lia.
    + simpl. apply IH; [exact Hle | simpl in Hlt; lia].
Qed.

(** Expansion succeeds exactly when the reduced vector is long enough,
    and then it is [scatter]. *)
Lemma expand_Some (flags : list nat) (reduced full : list Q) :
  expand flags reduced = Some full ->
  count_ones flags <= length reduced /\ full = scatter flags reduced.
Proof.
  intros H.
  destruct (Nat.le_gt_cases (count_ones flags) (length reduced)) as [Hle|Hgt].
  - rewrite expand_scatter in H by exact Hle. inversion H. auto.
  - unfold expand, enumerate, range in H.
    rewrite expand_loop_raises in H by (simpl; lia). discriminate.
Qed.

(** ** Counting the active indices *)

Lemma elem_of_flagged_from (fl : list nat) :
  forall s r,
    r ∈ flagged_from s fl <-> exists i, r = s + i /\ fl !! i = Some 1.
Proof.
  induction fl as [|f fl IH]; intros s r; simpl.
  - split; [intros H; inversion H | intros (i & _ & H); discriminate].
  - assert (r ∈ flagged_from (S s) fl <->
            exists i, r = s + S i /\ fl !! i = Some 1) as IH'.
    { rewrite IH. split; intros (i & -> & Hi); exists i; split; auto; lia. }
    destruct (Nat.eqb_spec f 1) as [->|Hne].
    + rewrite elem_of_cons, IH'. split.
      * intros [->|(i & -> & Hi)]; [exists 0 | exists (S i)]; split; auto; lia.
      * intros ([|i] & -> & Hi); [left; lia | right; exists i; auto].
    + rewrite IH'. split.
      * intros (i & -> & Hi). exists (S i). auto.
      * intros ([|i] & -> & Hi); [simpl in Hi; congruence | exists i; auto].
Qed.

Lemma NoDup_flagged_from (fl : list nat) : forall s, NoDup (flagged_from s fl).
Proof.
  induction fl as [|f fl IH]; intros s; simpl; [constructor|].
  destruct (Nat.eqb f 1); [|apply IH].
  constructor; [|apply IH].
  rewrite elem_of_flagged_from. intros (i & Hi & _). lia.
Qed.

Lemma flagged_from_length (fl : list nat) :
  forall s, length (flagged_from s fl) = count_ones fl.
Proof.
  induction fl as [|f fl IH]; intros s; [reflexivity|].
  rewrite count_ones_cons. simpl.
  destruct (Nat.eqb f 1); simpl; rewrite IH; reflexivity.
Qed.

Lemma tracks_count (n : nat) (active flags : list nat) :
  tracks n active flags ->
  count_ones flags = length active /\ sum_list flags = length active.
Proof.
  intros [Hlen Hnd Hmem Hbin].
  assert (count_ones flags = length active) as Hc.
  { rewrite <- (flagged_from_length flags 0).
    apply Permutation_length, NoDup_Permutation.
    - apply NoDup_flagged_from.
    - exact Hnd.
    - intros r. rewrite elem_of_flagged_from, Hmem. split.
      + intros (i & -> & Hi). exact Hi.
      + intros Hr. exists r. auto. }
  split; [exact Hc|]. rewrite <- count_ones_binary; assumption.
Qed.

(** ** Vectors of rationals *)

Lemma dot_cons (a b : Q) (l k : list Q) :
  dot (a :: l) (b :: k) = (a * b + dot l k)%Q.
Proof. reflexivity. Qed.

Lemma dot_comm (a b : list Q) : (dot a b == dot b a)%Q.
Proof.
  revert b. induction a as [|x a IH]; intros [|y b]; try reflexivity.
  rewrite !dot_cons, IH. ring.
Qed.


Lemma Qsum_replicate_map (f : Q -> Q) (k : nat) (c : Q) :
  (Qsum (map f (replicate k c)) == inject_Z (Z.of_nat k) * f c)%Q.
Proof.
  induction k as [|k IH].
  - simpl. ring.
  - change (Qsum (map f (replicate (S k) c)))
      with (f c + Qsum (map f (replicate k c)))%Q.
    rewrite IH, Nat2Z.inj_succ. unfold Z.succ. rewrite inject_Z_plus. ring.
Qed.

(** [np.ones(k) / k] is a probability vector when [k >= 1]. *)
Lemma uniform_distribution (k : nat) :
  0 < k ->
  let u := map (fun o => (o / inject_Z (Z.of_nat k))%Q) (replicate k 1%Q) in
  length u = k /\ Forall (fun v => (0 <= v)%Q) u /\ (Qsum u == 1)%Q.
Proof.
  intros Hk u.
  assert (0 < inject_Z (Z.of_nat k))%Q as Hq.
  { change 0%Q with (inject_Z 0). rewrite <- Zlt_Qlt. lia. }
  split; [|split].
  - unfold u. rewrite length_map, length_replicate. reflexivity.
  - unfold u. apply Forall_map, Forall_replicate. simpl.
    apply Qle_shift_div_l; [exact Hq | lra].
  - unfold u. rewrite Qsum_replicate_map. field. lra.
Qed.

(** ** What a feasible point of [row_lp] looks like *)

Lemma row_lp_bounds (m : nat) (tl : list (option Q * option Q)) :
  forall xs,
    Forall2 within_bounds (replicate m (Some 0%Q, None) ++ tl) xs ->
    Forall (fun v => (0 <= v)%Q) (take m xs).
Proof.
  induction m as [|m IH]; intros xs H; simpl; [constructor|].
  simpl in H. inversion H as [|b v bs vs [Hb _] Hrest]; subst. simpl in *.
  constructor; [exact Hb | apply IH; exact Hrest].
Qed.

Lemma row_lp_simplex (m : nat) :
  forall xs,
    length xs = m + 1 ->
    (dot (replicate m 1%Q ++ [0%Q]) xs == Qsum (take m xs))%Q.
Proof.
  induction m as [|m IH]; intros [|v xs] Hlen; try discriminate.
  - destruct xs; [|discriminate]. unfold dot. simpl. ring.
  - simpl replicate. simpl app. rewrite dot_cons. simpl take. simpl Qsum.
    rewrite IH by (simpl in Hlen; lia). ring.
Qed.

Lemma row_lp_c_length (A : ndarray) :
  length (lp_c (row_lp A)) = shape0 A + 1.
Proof. simpl. rewrite length_insert, length_replicate. reflexivity. Qed.

Lemma row_lp_feasible (A : ndarray) (xs : list Q) :
  lp_feasible (row_lp A) xs ->
  length xs = shape0 A + 1 /\
  Forall (fun v => (0 <= v)%Q) (take (shape0 A) xs) /\
  (Qsum (take (shape0 A) xs) == 1)%Q.
Proof.
  intros (Hlen & _ & Heq & Hbd). rewrite row_lp_c_length in Hlen.
  split; [exact Hlen|]. split.
  - eapply row_lp_bounds. exact Hbd.
  - simpl in Heq. inversion Heq as [|? ? ? ? H1 _]; subst.
    rewrite <- row_lp_simplex by exact Hlen. exact H1.
Qed.

(** ** The orchestrator *)












Section EPA_correct.

Variable linprog : lp_problem -> lp_result.

(** The contract of the LP routine: a result flagged successful is a
    feasible point of the problem it was given. *)
Hypothesis linprog_feasible :
  forall P, success (linprog P) = true -> lp_feasible P (x (linprog P)).

Lemma solve_row_player_lp_Some (B : ndarray) :
  success (linprog (row_lp B)) = true ->
  exists p v,
    solve_row_player_lp linprog B = Some (p, v) /\
    length p = shape0 B /\
    Forall (fun v => (0 <= v)%Q) p /\ (Qsum p == 1)%Q.
Proof using linprog_feasible.
  intros Hs. pose proof (linprog_feasible _ Hs) as Hf.
  apply row_lp_feasible in Hf. destruct Hf as (Hlen & Hnn & Hsum).
  unfold solve_row_player_lp. rewrite Hs.
  destruct (x (linprog (row_lp B)) !! shape0 B) as [v|] eqn:Hv.
  2:{ apply lookup_ge_None in Hv. lia. }
  exists (take (shape0 B) (x (linprog (row_lp B)))), v.
  split; [reflexivity|]. split; [|auto].
  rewrite length_take. lia.
Qed.

Lemma solve_row_player_lp_success (B : ndarray) (p : list Q) (v : Q) :
  solve_row_player_lp linprog B = Some (p, v) ->
  success (linprog (row_lp B)) = true.
Proof using Type.
  unfold solve_row_player_lp.
  destruct (success (linprog (row_lp B))); [reflexivity | discriminate].
Qed.

(** The whole pipeline on a non-empty matrix whose LP is solved. *)
Lemma epa_result (A B : ndarray) (rf cf : list nat) :
  0 < shape0 A -> 0 < shape1 A ->
  iterated_elimination_dominated_strategies A = Some (B, rf, cf) ->
  success (linprog (row_lp B)) = true ->
  exists r c,
    chaterjee_epa_algorithm linprog A
    = Some (r, c,
            dot r (map (fun i => dot (row_of A i) c) (range (shape0 A)))) /\
    length r = shape0 A /\ length c = shape1 A /\
    Forall (fun v => (0 <= v)%Q) r /\ Forall (fun v => (0 <= v)%Q) c /\
    (Qsum r == 1)%Q /\ (Qsum c == 1)%Q.
Proof using linprog_feasible.
  intros Hm Hn Hret Hs.
  destruct (reducer_returns_nonempty A Hm Hn)
    as (st & k & _ & Hret' & [Hr Hc] & [Hner Hnec] & _).
  rewrite Hret in Hret'. injection Hret' as -> -> ->.
  destruct (solve_row_player_lp_Some _ Hs) as (p & v & Hp & Hpl & Hpn & Hps).
  simpl in Hpl.
  destruct (tracks_count _ _ _ Hr) as [Hrc _].
  destruct (tracks_count _ _ _ Hc) as [Hcc Hcs].
  apply length_pos_nonempty in Hnec.
  destruct (uniform_distribution (sum_list (col_flags st)))
    as (Hul & Hun & Hus); [lia|].
  set (u := map (fun o => (o / inject_Z (Z.of_nat (sum_list (col_flags st))))%Q)
                (replicate (sum_list (col_flags st)) 1%Q)) in *.
  exists (scatter (row_flags st) p), (scatter (col_flags st) u).
  assert (length (scatter (row_flags st) p) = shape0 A) as Lr
    by (rewrite scatter_length; apply Hr).
  assert (length (scatter (col_flags st) u) = shape1 A) as Lc
    by (rewrite scatter_length; apply Hc).
  split.
  - unfold chaterjee_epa_algorithm. rewrite Hret. simpl. rewrite Hp. simpl.
    rewrite (expand_scatter (row_flags st) p) by lia. simpl. fold u.
    rewrite (expand_scatter (col_flags st) u) by lia. simpl.
    unfold np_dot_mat. rewrite Lc, Nat.eqb_refl. simpl.
    unfold np_dot_vec. rewrite Lr, length_map.
    unfold range at 1. rewrite length_seq, Nat.eqb_refl. reflexivity.
  - split; [exact Lr|]. split; [exact Lc|].
    split; [apply scatter_nonneg, Hpn|].
    split; [apply scatter_nonneg, Hun|].
    split.
    + rewrite scatter_sum by lia. exact Hps.
    + rewrite scatter_sum by lia. exact Hus.
Qed.

Lemma Qabs_of_one (q : Q) : (q == 1)%Q -> (Qabs (q - 1) <= 1 # 1000000)%Q.
Proof using Type.
  intros H. apply Qabs_Qle_condition. split.
  - rewrite H. apply Qle_bool_iff. reflexivity.
  - rewrite H. apply Qle_bool_iff. reflexivity.
Qed.

(** C1: on a non-empty matrix whose LP solve succeeds, the orchestrator
    returns a row strategy with one entry per row and a column strategy
    with one entry per column; all entries are nonnegative and each
    vector sums to 1 within [1e-6]. *)
Theorem epa_returns_probability_vectors
  (A B : ndarray) (rf cf : list nat) :
  0 < shape0 A -> 0 < shape1 A ->
  iterated_elimination_dominated_strategies A = Some (B, rf, cf) ->
  success (linprog (row_lp B)) = true ->
  exists r c v,
    chaterjee_epa_algorithm linprog A = Some (r, c, v) /\
    length r = shape0 A /\ length c = shape1 A /\
    Forall (fun p => (0 <= p)%Q) r /\ Forall (fun p => (0 <= p)%Q) c /\
    (Qabs (Qsum r - 1) <= 1 # 1000000)%Q /\
    (Qabs (Qsum c - 1) <= 1 # 1000000)%Q.
Proof using linprog_feasible.
  intros Hm Hn Hret Hs.
  destruct (epa_result A B rf cf Hm Hn Hret Hs)
    as (r & c & He & Lr & Lc & Nr & Nc & Sr & Sc).
  exists r, c, (dot r (map (fun i => dot (row_of A i) c) (range (shape0 A)))).
  repeat (split; [assumption|]).
  split; apply Qabs_of_one; assumption.
Qed.


(** C2: the flag vectors and the full strategies have the dimensions of
    the input matrix and a full strategy is exactly zero wherever its flag
    is 0, for whatever the orchestrator returns and whatever the LP
    routine is; and the orchestrator does return whenever the LP routine
    reports success with one entry of [x] per LP variable. *)
Theorem epa_dimension_consistency (A B : ndarray) (rf cf : list nat) :
  iterated_elimination_dominated_strategies A = Some (B, rf, cf) ->
  length rf = shape0 A /\ length cf = shape1 A /\
  (forall r c v,
     chaterjee_epa_algorithm linprog A = Some (r, c, v) ->
     length r = shape0 A /\ length c = shape1 A /\
     (forall i, rf !! i = Some 0 -> r !! i = Some 0%Q) /\
     (forall j, cf !! j = Some 0 -> c !! j = Some 0%Q)) /\
  (success (linprog (row_lp B)) = true ->
   length (x (linprog (row_lp B))) = length (lp_c (row_lp B)) ->
   exists r c v, chaterjee_epa_algorithm linprog A = Some (r, c, v)).
Proof using Type.
  intros Hret.
  destruct (reducer_returns A) as (st & k & _ & Hret' & [Hr Hc] & _).
  rewrite Hret in Hret'. injection Hret' as -> -> ->.
  pose proof (tracks_length _ _ _ Hr) as Lrf.
  pose proof (tracks_length _ _ _ Hc) as Lcf.
  split; [exact Lrf|]. split; [exact Lcf|]. split.
  - intros r c v He. unfold chaterjee_epa_algorithm in He.
    rewrite Hret in He. simpl in He.
    destruct (solve_row_player_lp linprog _) as [[p v0]|]; [|discriminate].
    simpl in He.
    destruct (expand (row_flags st) p) as [r'|] eqn:Er; [|discriminate].
    simpl in He.
    destruct (expand (col_flags st) _) as [c'|] eqn:Ec; [|discriminate].
    simpl in He.
    destruct (np_dot_mat A c') as [Mc|]; [|discriminate]. simpl in He.
    destruct (np_dot_vec r' Mc) as [v'|]; [|discriminate]. simpl in He.
    injection He as -> -> ->.
    apply expand_Some in Er, Ec. destruct Er as [_ ->], Ec as [_ ->].
    rewrite !scatter_length.
    split; [exact Lrf|]. split; [exact Lcf|]. split.
    + intros i Hi. apply scatter_zero; [|congruence].
      eapply lookup_lt_Some; eauto.
    + intros j Hj. apply scatter_zero; [|congruence].
      eapply lookup_lt_Some; eauto.
  - intros Hs Hx. rewrite row_lp_c_length in Hx.
    set (B := ix_ A (active_rows st) (active_cols st)) in *.
    assert (shape0 B = length (active_rows st)) as HB by reflexivity.
    destruct (tracks_count _ _ _ Hr) as [Hrc _].
    destruct (tracks_count _ _ _ Hc) as [Hcc Hcs].
    destruct (x (linprog (row_lp B)) !! shape0 B) as [V|] eqn:HV.
    2:{ apply lookup_ge_None in HV. lia. }
    set (p := take (shape0 B) (x (linprog (row_lp B)))).
    assert (solve_row_player_lp linprog B = Some (p, V)) as Hp
      by (unfold solve_row_player_lp; rewrite Hs, HV; reflexivity).
    assert (length p = shape0 B) as Hpl
      by (unfold p; rewrite length_take; lia).
    set (u := map (fun o => (o / inject_Z (Z.of_nat (sum_list (col_flags st))))%Q)
                  (replicate (sum_list (col_flags st)) 1%Q)).
    assert (length u = sum_list (col_flags st)) as Hul
      by (unfold u; rewrite length_map, length_replicate; reflexivity).
    exists (scatter (row_flags st) p), (scatter (col_flags st) u).
    eexists.
    unfold chaterjee_epa_algorithm. rewrite Hret. simpl. rewrite Hp. simpl.
    rewrite (expand_scatter (row_flags st) p) by lia. simpl. fold u.
    rewrite (expand_scatter (col_flags st) u) by lia. simpl.
    unfold np_dot_mat. rewrite scatter_length, Lcf, Nat.eqb_refl. simpl.
    unfold np_dot_vec. rewrite scatter_length, Lrf, length_map.
    unfold range at 1. rewrite length_seq, Nat.eqb_refl. reflexivity.
Qed.

End EPA_correct.

(** ** Empty matrices *)

Lemma inner_scan_never (i : nat) (js : list nat) :
  inner_scan (fun _ _ => false) i js = false.
Proof.
  induction js as [|j js IH]; simpl; [reflexivity|].
  destruct (Nat.eqb i j); exact IH.
Qed.

Lemma dominance_pass_none (dom : nat -> nat -> bool) (n : nat) :
  (forall i j, i < n -> j < n -> dom i j = false) ->
  dominance_pass dom n = replicate n 1.
Proof.
  intros H. rewrite (dominance_pass_ext dom (fun _ _ => false)) by exact H.
  apply list_eq. intros i.
  destruct (Nat.lt_ge_cases i n) as [Hi|Hi].
  - rewrite dominance_pass_lookup by exact Hi. rewrite inner_scan_never.
    symmetry. apply lookup_replicate_2. exact Hi.
  - rewrite !(proj2 (lookup_ge_None _ _)); [reflexivity | |].
    + rewrite length_replicate. exact Hi.
    + rewrite dominance_pass_length. exact Hi.
Qed.

Lemma empty_rows_check (A : ndarray) :
  shape0 A = 0 \/ shape1 A = 0 ->
  eliminate_weakly_dominated_rows A = replicate (shape0 A) 1.
Proof.
  intros [H|H]; unfold eliminate_weakly_dominated_rows.
  - rewrite H. reflexivity.
  - apply dominance_pass_none. intros i j _ _.
    unfold row_dominated_by, row_any_lt. rewrite H. apply andb_false_r.
Qed.

Lemma empty_cols_check (A : ndarray) :
  shape0 A = 0 \/ shape1 A = 0 ->
  eliminate_weakly_dominated_cols A = replicate (shape1 A) 1.
Proof.
  intros [H|H]; unfold eliminate_weakly_dominated_cols.
  - apply dominance_pass_none. intros i j _ _.
    unfold col_dominated_by, col_any_gt. rewrite H. apply andb_false_r.
  - rewrite H. reflexivity.
Qed.

Lemma empty_reduction (A : ndarray) :
  shape0 A = 0 \/ shape1 A = 0 ->
  reduction_loop (S (shape0 A + shape1 A)) A (initial_state A)
  = Some (initial_state A, 1) /\
  iterated_elimination_dominated_strategies A
  = Some (ix_ A (range (shape0 A)) (range (shape1 A)),
          replicate (shape0 A) 1, replicate (shape1 A) 1).
Proof.
  intros He.
  assert (reduction_pass A (initial_state A) = (initial_state A, false)) as Hp.
  { apply reducer_on_fixed_point.
    - rewrite empty_rows_check by exact He.
      rewrite length_replicate, sum_list_replicate. lia.
    - rewrite empty_cols_check by exact He.
      rewrite length_replicate, sum_list_replicate. lia. }
  assert (reduction_loop (S (shape0 A + shape1 A)) A (initial_state A)
          = Some (initial_state A, 1)) as Hl
    by (rewrite reduction_loop_S, Hp; reflexivity).
  split; [exact Hl|].
  unfold iterated_elimination_dominated_strategies. rewrite Hl. reflexivity.
Qed.

Lemma dot_objective (m : nat) (a : Q) :
  forall (zs : list Q) (z : Q),
    zs !! m = Some z -> length zs = m + 1 ->
    (dot (<[m:=a]> (replicate (m + 1) 0%Q)) zs == a * z)%Q.
Proof.
  induction m as [|m IH]; intros [|y zs] z Hz Hlen; try discriminate.
  - simpl in Hz. injection Hz as ->. destruct zs; [|discriminate].
    unfold dot. simpl. ring.
  - simpl in Hz. simpl replicate. simpl insert.
    change (<[S m:=a]> (0%Q :: replicate (m + 1) 0%Q))
      with (0%Q :: <[m:=a]> (replicate (m + 1) 0%Q)).
    rewrite dot_cons, (IH zs z Hz) by (simpl in Hlen; lia). ring.
Qed.

(** With no column constraints the value variable can always be raised. *)
Lemma row_lp_unbounded (B : ndarray) (xs : list Q) :
  shape1 B = 0 -> ~ lp_optimal (row_lp B) xs.
Proof.
  intros Hn [Hf Hopt].
  pose proof Hf as (Hlen & Hub & Heq & Hbd).
  rewrite row_lp_c_length in Hlen.
  destruct (xs !! shape0 B) as [z|] eqn:Hz.
  2:{ apply lookup_ge_None in Hz. lia. }
  set (ys := <[shape0 B := (z + 1)%Q]> xs).
  assert (length ys = shape0 B + 1) as Hlen'
    by (unfold ys; rewrite length_insert; exact Hlen).
  assert (lp_feasible (row_lp B) ys) as Hf'.
  { split; [rewrite row_lp_c_length; exact Hlen'|]. split; [|split].
    - simpl. rewrite Hn. constructor.
    - simpl. constructor; [|constructor].
      rewrite row_lp_simplex by exact Hlen'.
      unfold ys. rewrite take_insert_ge by lia.
      rewrite <- row_lp_simplex by exact Hlen.
      simpl in Heq. inversion Heq; subst. assumption.
    - simpl in *.
      rewrite <- (list_insert_id
                    (replicate (shape0 B) (Some 0%Q, None) ++ [(None, None)])
                    (shape0 B) (None, None)).
      + unfold ys. apply Forall2_insert; [exact Hbd | split; exact I].
      + rewrite lookup_app_r by (rewrite length_replicate; lia).
        rewrite length_replicate, Nat.sub_diag. reflexivity. }
  specialize (Hopt ys Hf'). simpl in Hopt.
  rewrite (dot_objective _ _ xs z Hz Hlen) in Hopt.
  rewrite (dot_objective _ _ ys (z + 1)%Q) in Hopt; [lra | | exact Hlen'].
  unfold ys. apply list_lookup_insert_eq. lia.
Qed.

(** With no rows the probabilities cannot sum to 1. *)
Lemma row_lp_infeasible (B : ndarray) (xs : list Q) :
  shape0 B = 0 -> ~ lp_feasible (row_lp B) xs.
Proof.
  intros Hm Hf. apply row_lp_feasible in Hf. destruct Hf as (_ & _ & Hs).
  rewrite Hm in Hs. simpl in Hs. unfold Qsum in Hs. simpl in Hs.
  apply (Qeq_bool_neq 0 1); [reflexivity | exact Hs].
Qed.

Section EPA_empty.

Variable linprog : lp_problem -> lp_result.

(** The contract of the LP routine: a result flagged successful is an
    optimal point of the problem it was given. *)
Hypothesis linprog_optimal :
  forall P, success (linprog P) = true -> lp_optimal P (x (linprog P)).

(** On a matrix with no rows or no columns the reducer runs one
    iteration, eliminates nothing and returns the input with all-ones flag
    vectors; the orchestrator runs that reduction first and fails
    afterwards, in the LP stage. *)
Lemma empty_matrix_epa (A : ndarray) :
  shape0 A = 0 \/ shape1 A = 0 ->
  reduction_loop (S (shape0 A + shape1 A)) A (initial_state A)
  = Some (initial_state A, 1) /\
  (exists B,
     iterated_elimination_dominated_strategies A
     = Some (B, replicate (shape0 A) 1, replicate (shape1 A) 1) /\
     arr_eq B A /\
     solve_row_player_lp linprog B = None) /\
  chaterjee_epa_algorithm linprog A = None.
Proof using linprog_optimal.
  intros He. destruct (empty_reduction A He) as [Hl Hret].
  set (B := ix_ A (range (shape0 A)) (range (shape1 A))) in *.
  assert (solve_row_player_lp linprog B = None) as Hlp.
  { unfold solve_row_player_lp.
    destruct (success (linprog (row_lp B))) eqn:Hs; [|reflexivity].
    exfalso. apply linprog_optimal in Hs.
    assert (shape0 B = shape0 A /\ shape1 B = shape1 A) as [H0 H1].
    { unfold B, range. simpl. rewrite !length_seq. auto. }
    destruct He as [He|He].
    - apply (row_lp_infeasible B (x (linprog (row_lp B)))); [lia|].
      apply Hs.
    - apply (row_lp_unbounded B (x (linprog (row_lp B)))); [lia|].
      exact Hs. }
  split; [exact Hl|]. split.
  - exists B. split; [exact Hret|]. split; [apply ix_range | exact Hlp].
  - unfold chaterjee_epa_algorithm. rewrite Hret. simpl.
    rewrite Hlp. reflexivity.
Qed.

(** C7, as the code has it: there is no validation step.  The reducer
    fails on an argument exactly when the argument is not
    two-dimensional, and it fails then where the shape is unpacked,
    before the loop is entered; so does the orchestrator.  A matrix with
    no rows or no columns is not refused: the reducer runs one iteration,
    eliminates nothing and returns the input with all-ones flag vectors;
    the orchestrator runs that reduction first and fails afterwards, in
    the LP stage. *)
Theorem malformed_input_behaviour :
  (forall M,
     snd (reduce_call M) = None <-> exists rows, M = ObjectArray rows) /\
  (forall rows,
     reduce_call (ObjectArray rows) = (0, None) /\
     solve_call linprog (ObjectArray rows) = (0, None)) /\
  (forall A,
     shape0 A = 0 \/ shape1 A = 0 ->
     exists B,
       reduce_call (Matrix A)
       = (1, Some (B, replicate (shape0 A) 1, replicate (shape1 A) 1)) /\
       arr_eq B A /\
       solve_row_player_lp linprog B = None /\
       solve_call linprog (Matrix A) = (1, None)).
Proof using linprog_optimal.
  split; [|split].
  - intros [rows|A]; split.
    + intros _. exists rows. reflexivity.
    + intros _. reflexivity.
    + intros H. exfalso. unfold reduce_call, shape_of, unpack2 in H.
      destruct (reducer_returns A) as (st & k & Hl & _).
      rewrite Hl in H. discriminate.
    + intros [rows H]. discriminate.
  - intros rows. split; reflexivity.
  - intros A He.
    destruct (empty_matrix_epa A He) as (Hl & (B & Hret & HB & Hlp) & Hepa).
    exists (ix_ A (range (shape0 A)) (range (shape1 A))).
    destruct (empty_reduction A He) as [_ Hret'].
    rewrite Hret' in Hret. injection Hret as <-.
    assert (reduce_call (Matrix A)
            = (1, Some (ix_ A (range (shape0 A)) (range (shape1 A)),
                        replicate (shape0 A) 1, replicate (shape1 A) 1)))
      as Hcall
      by (unfold reduce_call, shape_of, unpack2; rewrite Hl; reflexivity).
    split; [exact Hcall|]. split; [exact HB|]. split; [exact Hlp|].
    unfold solve_call. rewrite Hcall, Hepa. reflexivity.
Qed.

End EPA_empty.

(** ** Concrete routines satisfy the LP contracts *)

Lemma forall2b_Forall2 {S T} (f : S -> T -> bool) (P : S -> T -> Prop)
  (l : list S) (k : list T) :
  (forall a b, f a b = true -> P a b) ->
  forall2b f l k = true -> Forall2 P l k.
Proof.
  intros Hf. revert k. induction l as [|a l IH]; intros [|b k] H;
    simpl in H; try discriminate; constructor.
  - apply Hf. apply andb_true_iff in H. tauto.
  - apply IH. apply andb_true_iff in H. tauto.
Qed.

Lemma within_bounds_b_sound (b : option Q * option Q) (v : Q) :
  within_bounds_b b v = true -> within_bounds b v.
Proof.
  unfold within_bounds_b, within_bounds. intros H.
  apply andb_true_iff in H. destruct H as [H1 H2].
  destruct (fst b), (snd b); split;
    try exact I; apply Qle_bool_iff; assumption.
Qed.

Lemma lp_feasible_b_sound (P : lp_problem) (xs : list Q) :
  lp_feasible_b P xs = true -> lp_feasible P xs.
Proof.
  unfold lp_feasible_b, lp_feasible. intros H.
  repeat (apply andb_true_iff in H; destruct H as [H ?]).
  split; [apply Nat.eqb_eq; assumption|]. split; [|split].
  - eapply forall2b_Forall2; [|eassumption].
    intros a b Hab. apply Qle_bool_iff. exact Hab.
  - eapply forall2b_Forall2; [|eassumption].
    intros a b Hab. apply Qeq_bool_iff. exact Hab.
  - eapply forall2b_Forall2; [|eassumption].
    apply within_bounds_b_sound.
Qed.

Lemma checking_solver_feasible (candidate : list Q) (P : lp_problem) :
  success (checking_solver candidate P) = true ->
  lp_feasible P (x (checking_solver candidate P)).
Proof. simpl. apply lp_feasible_b_sound. Qed.

(** ** The statements at concrete games *)

Example identity_game_reduction :
  iterated_elimination_dominated_strategies identity_game
  = Some (ix_ identity_game [0; 1] [0; 1], [1; 1], [1; 1]).
Proof. reflexivity. Qed.

Example dominated_game_reduction :
  iterated_elimination_dominated_strategies dominated_game
  = Some (ix_ dominated_game [2] [0; 1; 2], [0; 0; 1], [1; 1; 1]).
Proof. reflexivity. Qed.

Example identity_game_epa :
  exists v,
    chaterjee_epa_algorithm (checking_solver [1 # 2; 1 # 2; 1 # 2]%Q)
                            identity_game
    = Some ([1 # 2; 1 # 2]%Q, [1 # 2; 1 # 2]%Q, v) /\
    (v == 1 # 2)%Q.
Proof. eexists. split; [reflexivity | vm_compute; reflexivity]. Qed.

Example no_dominance_3x3 :
  iterated_elimination_dominated_strategies
    (of_rows 3 [[1 # 2; 1; 1]; [1; 1 # 2; 1]; [1; 1; 0]]%Q)
  = Some (ix_ (of_rows 3 [[1 # 2; 1; 1]; [1; 1 # 2; 1]; [1; 1; 0]]%Q)
              [0; 1; 2] [0; 1; 2],
          [1; 1; 1], [1; 1; 1]).
Proof. reflexivity. Qed.

Example no_dominance_diagonal :
  iterated_elimination_dominated_strategies
    (of_rows 3 [[10; 0; 0]; [0; 5; 0]; [0; 0; 1]]%Q)
  = Some (ix_ (of_rows 3 [[10; 0; 0]; [0; 5; 0]; [0; 0; 1]]%Q)
              [0; 1; 2] [0; 1; 2],
          [1; 1; 1], [1; 1; 1]).
Proof. reflexivity. Qed.

Example one_by_one_game :
  iterated_elimination_dominated_strategies (of_rows 1 [[7]]%Q)
  = Some (ix_ (of_rows 1 [[7]]%Q) [0] [0], [1], [1]) /\
  exists v,
    chaterjee_epa_algorithm (checking_solver [1; 7]%Q) (of_rows 1 [[7]]%Q)
    = Some ([1]%Q, [1]%Q, v) /\
    (v == 7)%Q.
Proof.
  split; [reflexivity|].
  eexists. split; [reflexivity | vm_compute; reflexivity].
Qed.

(** Equal rows are both kept, and the column pass sees the rows that the
    row pass of the same iteration left. *)
Example interleaved_reduction :
  iterated_elimination_dominated_strategies
    (of_rows 2 [[3; 1]; [3; 1]; [1; 0]]%Q)
  = Some (ix_ (of_rows 2 [[3; 1]; [3; 1]; [1; 0]]%Q) [0; 1] [1],
          [1; 1; 0], [0; 1]).
Proof. reflexivity. Qed.

Lemma epa_returns_probability_vectors_witness :
  exists r c v,
    chaterjee_epa_algorithm (checking_solver [1 # 2; 1 # 2; 1 # 2]%Q)
                            identity_game = Some (r, c, v) /\
    length r = 2 /\ length c = 2 /\
    Forall (fun p => (0 <= p)%Q) r /\ Forall (fun p => (0 <= p)%Q) c /\
    (Qabs (Qsum r - 1) <= 1 # 1000000)%Q /\
    (Qabs (Qsum c - 1) <= 1 # 1000000)%Q.
Proof.
  apply (epa_returns_probability_vectors
           (checking_solver [1 # 2; 1 # 2; 1 # 2]%Q)
           (checking_solver_feasible _)
           identity_game (ix_ identity_game [0; 1] [0; 1]) [1; 1] [1; 1]).
  - simpl. lia.
  - simpl. lia.
  - reflexivity.
  - reflexivity.
Defined.

Lemma epa_dimension_consistency_witness :
  iterated_elimination_dominated_strategies interleaved_game
  = Some (ix_ interleaved_game [0; 1] [1], [1; 1; 0], [0; 1]) /\
  exists r c v,
    chaterjee_epa_algorithm (checking_solver [1 # 2; 1 # 2; 1]%Q)
                            interleaved_game = Some (r, c, v) /\
    length r = 3 /\ length c = 2 /\
    [1; 1; 0] !! 2 = Some 0 /\ r !! 2 = Some 0%Q /\
    [0; 1] !! 0 = Some 0 /\ c !! 0 = Some 0%Q.
Proof.
  split; [reflexivity|].
  destruct (epa_dimension_consistency
              (checking_solver [1 # 2; 1 # 2; 1]%Q)
              interleaved_game (ix_ interleaved_game [0; 1] [1])
              [1; 1; 0] [0; 1] eq_refl)
    as (_ & _ & Hdim & Hreturns).
  destruct (Hreturns eq_refl eq_refl) as (r & c & v & He).
  destruct (Hdim r c v He) as (Lr & Lc & Zr & Zc).
  exists r, c, v.
  split; [exact He|]. split; [exact Lr|]. split; [exact Lc|].
  split; [reflexivity|]. split; [exact (Zr 2 eq_refl)|].
  split; [reflexivity | exact (Zc 0 eq_refl)].
Defined.


Lemma reduction_keeps_a_row_and_a_column_witness :
  (0 < shape0 dominated_game /\ 0 < shape1 dominated_game) /\
  exists B rf cf,
    iterated_elimination_dominated_strategies dominated_game
    = Some (B, rf, cf) /\
    (exists r, r < shape0 dominated_game /\ rf !! r = Some 1) /\
    (exists c, c < shape1 dominated_game /\ cf !! c = Some 1).
Proof.
  assert (0 < shape0 dominated_game) as Hm by (simpl; lia).
  assert (0 < shape1 dominated_game) as Hn by (simpl; lia).
  split; [split; assumption|].
  exact (proj1 (reduction_keeps_a_row_and_a_column dominated_game Hm Hn)).
Defined.

Lemma reduction_loop_iteration_bound_witness :
  (0 < shape0 dominated_game /\ 0 < shape1 dominated_game) /\
  exists st k,
    reduction_loop (shape0 dominated_game + shape1 dominated_game)
                   dominated_game (initial_state dominated_game)
    = Some (st, k) /\
    k <= shape0 dominated_game + shape1 dominated_game /\
    iterated_elimination_dominated_strategies dominated_game
    = Some (ix_ dominated_game (active_rows st) (active_cols st),
            row_flags st, col_flags st).
Proof.
  assert (0 < shape0 dominated_game) as Hm by (simpl; lia).
  assert (0 < shape1 dominated_game) as Hn by (simpl; lia).
  split; [split; assumption|].
  exact (proj2 (reduction_loop_iteration_bound dominated_game Hm Hn)).
Defined.

Lemma expansion_preserves_content_and_mass_witness :
  length [1 # 2; 1 # 3; 1 # 6]%Q = count_ones [1; 0; 1; 1; 0] /\
  exists full,
    expand [1; 0; 1; 1; 0] [1 # 2; 1 # 3; 1 # 6]%Q = Some full /\
    length full = 5 /\
    map (fun i => nth i full 0%Q) (true_indices [1; 0; 1; 1; 0])
    = [1 # 2; 1 # 3; 1 # 6]%Q /\
    (forall i, i < 5 -> [1; 0; 1; 1; 0] !! i <> Some 1 ->
               full !! i = Some 0%Q) /\
    (Qsum full == Qsum [1 # 2; 1 # 3; 1 # 6])%Q.
Proof.
  split; [reflexivity|].
  apply (expansion_preserves_content_and_mass
           [1; 0; 1; 1; 0] [1 # 2; 1 # 3; 1 # 6]%Q).
  reflexivity.
Defined.

(** The reducer accepts the empty matrix [np.array([[]])]: it runs one
    iteration and returns, with the single row kept. *)
Lemma reduce_accepts_empty_matrix :
  reduction_loop 1 empty_game (initial_state empty_game)
  = Some (initial_state empty_game, 1) /\
  exists B,
    iterated_elimination_dominated_strategies empty_game = Some (B, [1], []).
Proof.
  split; [reflexivity|].
  exists (ix_ empty_game [0] []). reflexivity.
Qed.

(** * Further properties of the code *)

(** ** The row LP: what its solutions mean for the game *)

Lemma dot_app (a b x y : list Q) :
  length a = length x ->
  (dot (a ++ b) (x ++ y) == dot a x + dot b y)%Q.
Proof.
  revert x. induction a as [|u a IH]; intros [|v x] Hlen; try discriminate.
  - simpl. unfold dot at 2. simpl. ring.
  - simpl app. rewrite !dot_cons, IH by (simpl in Hlen; lia). ring.
Qed.

Lemma dot_map_opp (f : nat -> Q) (l : list nat) (xs : list Q) :
  (dot (map (fun i => - f i) l) xs == - dot (map f l) xs)%Q.
Proof.
  revert xs. induction l as [|i l IH]; intros [|v xs];
    try (unfold dot; simpl; ring).
  simpl map. rewrite !dot_cons, IH. ring.
Qed.

Lemma dot_zeros (m : nat) (xs : list Q) : (dot (replicate m 0%Q) xs == 0)%Q.
Proof.
  revert xs. induction m as [|m IH]; intros [|v xs];
    try (unfold dot; simpl; ring).
  simpl replicate. rewrite dot_cons, IH. ring.
Qed.

Lemma dot_ones (p : list Q) : (dot (replicate (length p) 1%Q) p == Qsum p)%Q.
Proof.
  induction p as [|v p IH]; [reflexivity|].
  simpl length. simpl replicate. rewrite dot_cons, IH. simpl. ring.
Qed.

Lemma objective_vector (m : nat) :
  <[m:=(-1)%Q]> (replicate (m + 1) 0%Q) = replicate m 0%Q ++ [(-1)%Q].
Proof.
  induction m as [|m IH]; [reflexivity|].
  simpl. f_equal. exact IH.
Qed.

Lemma Forall2_range_replicate {T} (P : list Q -> T -> Prop)
  (f : nat -> list Q) (c : T) (n : nat) :
  Forall2 P (map f (range n)) (replicate n c) <-> forall j, j < n -> P (f j) c.
Proof.
  unfold range. split.
  - intros H j Hj.
    eapply (Forall2_lookup_lr _ _ _ j) in H; [exact H | |].
    + rewrite list_lookup_fmap, lookup_seq_lt by exact Hj. reflexivity.
    + apply lookup_replicate_2. exact Hj.
  - intros H. apply Forall2_same_length_lookup_2.
    + rewrite length_map, length_seq, length_replicate. reflexivity.
    + intros j row b Hrow Hb. apply lookup_replicate in Hb.
      destruct Hb as [-> Hj].
      rewrite list_lookup_fmap, lookup_seq_lt in Hrow by exact Hj.
      simpl in Hrow. injection Hrow as <-. apply H, Hj.
Qed.

Lemma row_lp_bounds_iff (p : list Q) (V : Q) :
  Forall2 within_bounds
          (replicate (length p) (Some 0%Q, None) ++ [(None, None)]) (p ++ [V])
  <-> Forall (fun v => (0 <= v)%Q) p.
Proof.
  induction p as [|v p IH]; simpl.
  - split; [constructor|]. intros _. constructor; [split; exact I|constructor].
  - split.
    + intros H. inversion H as [|? ? ? ? [Hb _] Hrest]; subst.
      constructor; [exact Hb | apply IH, Hrest].
    + intros H. inversion H; subst.
      constructor; [split; [assumption | exact I] | apply IH; assumption].
Qed.

(** The feasible points of the LP built from [B] are the pairs of a mixed
    row strategy and a payoff level that the strategy secures against
    every column. *)
Lemma row_lp_feasible_iff (B : ndarray) (p : list Q) (V : Q) :
  length p = shape0 B ->
  (lp_feasible (row_lp B) (p ++ [V]) <->
   Forall (fun v => (0 <= v)%Q) p /\ (Qsum p == 1)%Q /\
   forall j, j < shape1 B -> (V <= dot p (col_of B j))%Q).
Proof.
  intros Hlen.
  assert (forall j,
            dot (map (fun i => (- item B i j)%Q) (range (shape0 B)) ++ [1%Q])
                (p ++ [V]) == V - dot p (col_of B j))%Q as Hrow.
  { intros j. rewrite dot_app.
    - rewrite dot_map_opp. fold (col_of B j).
      rewrite (dot_comm (col_of B j) p). unfold dot at 2. simpl. ring.
    - unfold range. rewrite length_map, length_seq. lia. }
  assert (dot (replicate (shape0 B) 1%Q ++ [0%Q]) (p ++ [V]) == Qsum p)%Q
    as Heq.
  { rewrite dot_app by (rewrite length_replicate; lia).
    rewrite <- Hlen, dot_ones. unfold dot at 1. simpl. ring. }
  unfold lp_feasible. rewrite row_lp_c_length. simpl.
  rewrite (Forall2_range_replicate
             (fun row b => (dot row (p ++ [V]) <= b)%Q)
             (fun j => map (fun i => (- item B i j)%Q) (range (shape0 B))
                       ++ [1%Q])).
  rewrite <- Hlen at 3. rewrite row_lp_bounds_iff.
  split.
  - intros (_ & Hub & He & Hbd). split; [exact Hbd|]. split.
    + inversion He as [|? ? ? ? H1 _]; subst. rewrite <- Heq. exact H1.
    + intros j Hj. specialize (Hub j Hj). rewrite Hrow in Hub. lra.
  - intros (Hbd & Hs & Hcols). split; [|split; [|split]].
    + rewrite length_app. simpl. lia.
    + intros j Hj. rewrite Hrow. specialize (Hcols j Hj). lra.
    + constructor; [|constructor]. rewrite Heq. exact Hs.
    + exact Hbd.
Qed.

Lemma split_last (m : nat) (xs : list Q) (V : Q) :
  length xs = m + 1 -> xs !! m = Some V -> xs = take m xs ++ [V].
Proof.
  intros Hlen HV. rewrite <- (take_drop m xs) at 1. f_equal.
  apply list_eq. intros [|i].
  - rewrite lookup_drop, Nat.add_0_r. exact HV.
  - rewrite lookup_drop. simpl. apply lookup_ge_None. lia.
Qed.

Lemma dot_unit (m i : nat) (xs : list Q) :
  i < m -> length xs = m ->
  (dot (<[i:=1%Q]> (replicate m 0%Q)) xs == nth i xs 0)%Q.
Proof.
  revert i xs. induction m as [|m IH]; intros i [|v xs] Hi Hlen;
    try discriminate; try lia.
  destruct i as [|i]; simpl.
  - rewrite dot_cons, dot_zeros. ring.
  - rewrite dot_cons, IH by (simpl in Hlen; lia). ring.
Qed.

Lemma unit_distribution (m i : nat) :
  i < m -> distribution m (<[i:=1%Q]> (replicate m 0%Q)).
Proof.
  intros Hi. split; [|split].
  - rewrite length_insert, length_replicate. reflexivity.
  - apply Forall_insert; [apply Forall_replicate; lra | lra].
  - rewrite <- (dot_ones (<[i:=1%Q]> (replicate m 0%Q))).
    rewrite length_insert, length_replicate, dot_comm.
    rewrite dot_unit by (try rewrite length_replicate; auto).
    rewrite (nth_lookup_Some (replicate m 1%Q) i 0%Q 1%Q); [reflexivity|].
    apply lookup_replicate_2, Hi.
Qed.

Lemma dot_le_upper (hi : Q) (w xs : list Q) :
  length w = length xs ->
  Forall (fun v => (0 <= v)%Q) w ->
  Forall (fun v => (v <= hi)%Q) xs ->
  (dot w xs <= hi * Qsum w)%Q.
Proof.
  revert xs. induction w as [|a w IH]; intros [|v xs] Hlen Hw Hx;
    try discriminate.
  - unfold dot. simpl. lra.
  - inversion Hw as [|? ? Ha Hw']; subst.
    inversion Hx as [|? ? Hv Hx']; subst.
    assert (dot w xs <= hi * Qsum w)%Q
      by (apply IH; [simpl in Hlen; lia | assumption..]).
    rewrite dot_cons. simpl.
    assert (v * a <= hi * a)%Q by (apply Qmult_le_compat_r; assumption).
    lra.
Qed.

Lemma col_of_nth (B : ndarray) (i j : nat) :
  i < shape0 B -> nth i (col_of B j) 0%Q = item B i j.
Proof.
  intros Hi. unfold col_of, range.
  apply nth_lookup_Some. rewrite list_lookup_fmap, lookup_seq_lt by exact Hi.
  reflexivity.
Qed.

Lemma col_of_length (B : ndarray) (j : nat) :
  length (col_of B j) = shape0 B.
Proof. unfold col_of, range. rewrite length_map, length_seq. reflexivity. Qed.

(** An optimal point of the LP built from [B] secures at least as much as
    any other mixed row strategy. *)
Lemma row_lp_optimal_maximin (B : ndarray) (p : list Q) (V : Q) :
  length p = shape0 B ->
  lp_optimal (row_lp B) (p ++ [V]) ->
  forall (p' : list Q) (V' : Q),
    distribution (shape0 B) p' ->
    (forall j, j < shape1 B -> (V' <= dot p' (col_of B j))%Q) ->
    (V' <= V)%Q.
Proof.
  intros Hlen [_ Hopt] p' V' (Hlen' & Hnn' & Hs') Hcols'.
  assert (lp_feasible (row_lp B) (p' ++ [V'])) as Hf'
    by (apply row_lp_feasible_iff; auto).
  specialize (Hopt _ Hf'). simpl in Hopt.
  rewrite objective_vector in Hopt.
  rewrite !dot_app in Hopt by (rewrite length_replicate; lia).
  rewrite !dot_zeros in Hopt. unfold dot in Hopt. simpl in Hopt. lra.
Qed.

Section LP_meaning.

Variable linprog : lp_problem -> lp_result.

Lemma solve_row_player_lp_inv (B : ndarray) (p : list Q) (V : Q) :
  solve_row_player_lp linprog B = Some (p, V) ->
  success (linprog (row_lp B)) = true /\
  x (linprog (row_lp B)) !! shape0 B = Some V /\
  p = take (shape0 B) (x (linprog (row_lp B))).
Proof using Type.
  unfold solve_row_player_lp.
  destruct (success (linprog (row_lp B))); [|discriminate].
  destruct (x (linprog (row_lp B)) !! shape0 B) as [v|]; [|discriminate].
  simpl. intros H. injection H as <- <-. auto.
Qed.

Hypothesis linprog_feasible :
  forall P, success (linprog P) = true -> lp_feasible P (x (linprog P)).

Lemma solve_row_player_lp_point (B : ndarray) (p : list Q) (V : Q) :
  solve_row_player_lp linprog B = Some (p, V) ->
  length p = shape0 B /\ x (linprog (row_lp B)) = p ++ [V] /\
  lp_feasible (row_lp B) (p ++ [V]).
Proof using linprog_feasible.
  intros H. apply solve_row_player_lp_inv in H. destruct H as (Hs & HV & ->).
  pose proof (linprog_feasible _ Hs) as Hf.
  pose proof Hf as (Hlen & _). rewrite row_lp_c_length in Hlen.
  rewrite <- (split_last _ _ _ Hlen HV).
  split; [rewrite length_take; lia | auto].
Qed.

Lemma solve_row_player_lp_secures (B : ndarray) (p : list Q) (V : Q) :
  solve_row_player_lp linprog B = Some (p, V) ->
  distribution (shape0 B) p /\
  forall j, j < shape1 B -> (V <= dot p (col_of B j))%Q.
Proof using linprog_feasible.
  intros H. apply solve_row_player_lp_point in H.
  destruct H as (Hlen & _ & Hf).
  apply row_lp_feasible_iff in Hf; [|exact Hlen].
  destruct Hf as (Hnn & Hs & Hcols).
  split; [split; auto | exact Hcols].
Qed.

(** X1: the row strategy that [solve_row_player_lp] returns is a
    probability vector over the rows, and against every column it
    secures at least the value returned with it. *)
Theorem lp_strategy_secures_value (B : ndarray) (p : list Q) (V : Q) :
  solve_row_player_lp linprog B = Some (p, V) ->
  length p = shape0 B /\ Forall (fun v => (0 <= v)%Q) p /\
  (Qsum p == 1)%Q /\
  forall j, j < shape1 B -> (V <= dot p (col_of B j))%Q.
Proof using linprog_feasible.
  intros H. apply solve_row_player_lp_point in H.
  destruct H as (Hlen & _ & Hf).
  apply row_lp_feasible_iff in Hf; [|exact Hlen]. tauto.
Qed.

Hypothesis linprog_optimal :
  forall P, success (linprog P) = true -> lp_optimal P (x (linprog P)).

Lemma solve_row_player_lp_optimal (B : ndarray) (p : list Q) (V : Q) :
  solve_row_player_lp linprog B = Some (p, V) ->
  length p = shape0 B /\ lp_optimal (row_lp B) (p ++ [V]).
Proof using linprog_feasible linprog_optimal.
  intros H.
  pose proof (solve_row_player_lp_point _ _ _ H) as (Hlen & Hx & _).
  apply solve_row_player_lp_inv in H. destruct H as (Hs & _ & _).
  split; [exact Hlen|]. rewrite <- Hx. apply linprog_optimal, Hs.
Qed.

Lemma solve_row_player_lp_maximin (B : ndarray) (p : list Q) (V : Q) :
  solve_row_player_lp linprog B = Some (p, V) ->
  forall (p' : list Q) (V' : Q),
    distribution (shape0 B) p' ->
    (forall j, j < shape1 B -> (V' <= dot p' (col_of B j))%Q) ->
    (V' <= V)%Q.
Proof using linprog_feasible linprog_optimal.
  intros H. apply solve_row_player_lp_optimal in H. destruct H as [Hlen Hopt].
  exact (row_lp_optimal_maximin B p V Hlen Hopt).
Qed.

(** X2: the value that [solve_row_player_lp] returns is the maximin value
    of the matrix: no mixed row strategy secures more against every
    column. *)
Theorem lp_value_is_maximin (B : ndarray) (p : list Q) (V : Q) :
  solve_row_player_lp linprog B = Some (p, V) ->
  forall (p' : list Q) (V' : Q),
    length p' = shape0 B -> Forall (fun v => (0 <= v)%Q) p' ->
    (Qsum p' == 1)%Q ->
    (forall j, j < shape1 B -> (V' <= dot p' (col_of B j))%Q) ->
    (V' <= V)%Q.
Proof using linprog_feasible linprog_optimal.
  intros H p' V' Hlen' Hnn' Hs' Hcols'.
  pose proof (solve_row_player_lp_point _ _ _ H) as (Hlen & Hx & _).
  apply solve_row_player_lp_inv in H. destruct H as (Hs & _ & _).
  pose proof (linprog_optimal _ Hs) as Hopt. rewrite Hx in Hopt.
  apply (row_lp_optimal_maximin B p V Hlen Hopt p' V');
    [split; auto | exact Hcols'].
Qed.

(** X3: the value that [solve_row_player_lp] returns lies between the
    pure maximin and the pure minimax of the matrix: every row has an
    entry that is at most the value, and every column has an entry that
    is at least the value. *)
Theorem lp_value_between_pure_values (B : ndarray) (p : list Q) (V : Q) :
  solve_row_player_lp linprog B = Some (p, V) ->
  (forall i, i < shape0 B -> exists j, j < shape1 B /\ (item B i j <= V)%Q) /\
  (forall j, j < shape1 B -> exists i, i < shape0 B /\ (V <= item B i j)%Q).
Proof using linprog_feasible linprog_optimal.
  intros H. split.
  - intros i Hi.
    assert (shape1 B <> 0) as Hn.
    { intros Hn. apply solve_row_player_lp_inv in H. destruct H as (Hs & _).
      exact (row_lp_unbounded B _ Hn (linprog_optimal _ Hs)). }
    destruct (exists_maximal (fun j => (- item B i j)%Q) (range (shape1 B)))
      as (j & Hj & Hmin).
    { unfold range. destruct (shape1 B); [congruence | discriminate]. }
    apply in_range in Hj. exists j. split; [exact Hj|].
    apply (solve_row_player_lp_maximin B p V H
             (<[i:=1%Q]> (replicate (shape0 B) 0%Q))).
    + apply unit_distribution, Hi.
    + intros k Hk. rewrite dot_unit by (auto using col_of_length).
      rewrite col_of_nth by exact Hi.
      specialize (Hmin k (proj2 (in_range _ _) Hk)). simpl in Hmin. lra.
  - intros j Hj.
    destruct (solve_row_player_lp_secures B p V H)
      as ((Hlen & Hnn & Hs) & Hcols).
    specialize (Hcols j Hj).
    assert (shape0 B <> 0) as Hm.
    { intros Hm. rewrite Hm in Hlen. destruct p; [|discriminate].
      unfold Qsum in Hs. simpl in Hs.
      apply (Qeq_bool_neq 0 1); [reflexivity | exact Hs]. }
    destruct (exists_maximal (fun i => item B i j) (range (shape0 B)))
      as (i & Hi & Hmax).
    { unfold range. destruct (shape0 B); [congruence | discriminate]. }
    apply in_range in Hi. exists i. split; [exact Hi|].
    assert (dot p (col_of B j) <= item B i j * Qsum p)%Q as U.
    { apply dot_le_upper.
      - rewrite col_of_length. exact Hlen.
      - exact Hnn.
      - unfold col_of. apply Forall_map, Forall_forall. intros k Hk. simpl.
        apply list_elem_of_In in Hk. exact (Hmax k Hk). }
    rewrite Hs in U. lra.
Qed.

End LP_meaning.

(** ** Expansion: too short and too long reduced vectors *)

Lemma count_ones_zero_scatter (fl : list nat) (red red' : list Q) :
  count_ones fl = 0 -> scatter fl red = scatter fl red'.
Proof.
  induction fl as [|f fl IH]; intros H; [reflexivity|].
  rewrite count_ones_cons in H. simpl.
  destruct (Nat.eqb f 1); [simpl in H; lia|].
  f_equal. apply IH. simpl in H. lia.
Qed.

Lemma scatter_surplus (fl : list nat) :
  forall red extra : list Q,
    length red = count_ones fl -> scatter fl (red ++ extra) = scatter fl red.
Proof.
  induction fl as [|f fl IH]; intros red extra Hlen; [reflexivity|].
  rewrite count_ones_cons in Hlen. simpl.
  destruct (Nat.eqb f 1).
  - destruct red as [|v red]; [discriminate|]. simpl.
    f_equal. apply IH. simpl in Hlen. lia.
  - f_equal. apply IH. simpl in Hlen. lia.
Qed.

(** X4: the expansion loop raises [IndexError] exactly when the reduced
    vector has fewer entries than there are flags equal to 1; entries of
    the reduced vector beyond that number are ignored. *)
Theorem expansion_error_behaviour (flags : list nat) (reduced : list Q) :
  (expand flags reduced = None <-> length reduced < count_ones flags) /\
  (forall extra,
     length reduced = count_ones flags ->
     expand flags (reduced ++ extra) = expand flags reduced).
Proof.
  split.
  - split.
    + intros H.
      destruct (Nat.le_gt_cases (count_ones flags) (length reduced))
        as [Hle|Hgt]; [|exact Hgt].
      rewrite expand_scatter in H by exact Hle. discriminate.
    + intros H. unfold expand, enumerate, range.
      rewrite expand_loop_raises by (simpl; lia). reflexivity.
  - intros extra Hlen.
    rewrite !expand_scatter by (try rewrite length_app; lia).
    f_equal. apply scatter_surplus, Hlen.
Qed.

(** ** The reducer: order of the active lists *)

Lemma sublist_StronglySorted {T} (R : relation T) (l1 l2 : list T) :
  l1 `sublist_of` l2 -> StronglySorted R l2 -> StronglySorted R l1.
Proof.
  induction 1 as [|x l1 l2 Hsub IH|x l1 l2 Hsub IH]; intros Hs.
  - constructor.
  - apply StronglySorted_inv in Hs. destruct Hs as [Hs Hall].
    constructor; [apply IH, Hs|].
    rewrite Forall_forall in *. intros y Hy.
    apply Hall. eapply elem_of_sublist; eauto.
  - apply StronglySorted_inv in Hs. destruct Hs as [Hs _]. apply IH, Hs.
Qed.

Lemma StronglySorted_seq (s n : nat) : StronglySorted lt (seq s n).
Proof.
  revert s. induction n as [|n IH]; intros s; simpl; constructor.
  - apply IH.
  - apply Forall_forall. intros y Hy. apply elem_of_seq in Hy. lia.
Qed.

Lemma StronglySorted_flagged_from (fl : list nat) :
  forall s, StronglySorted lt (flagged_from s fl).
Proof.
  induction fl as [|f fl IH]; intros s; simpl; [constructor|].
  destruct (Nat.eqb f 1); [|apply IH].
  constructor; [apply IH|].
  apply Forall_forall. intros y Hy.
  apply elem_of_flagged_from in Hy. destruct Hy as (i & -> & _). lia.
Qed.

(** A sorted active list is the list of flagged indices. *)
Lemma tracks_sorted (n : nat) (active flags : list nat) :
  tracks n active flags -> StronglySorted lt active ->
  active = true_indices flags.
Proof.
  intros [_ Hnd Hmem _] Hs. unfold true_indices.
  apply (StronglySorted_unique_strong lt);
    [| exact Hs | apply StronglySorted_flagged_from |].
  - intros x1 x2 _ _ H1 H2. lia.
  - apply NoDup_Permutation;
      [exact Hnd | apply NoDup_flagged_from |].
    intros r. rewrite elem_of_flagged_from, Hmem. split.
    + intros Hr. exists r. auto.
    + intros (i & -> & Hi). exact Hi.
Qed.

(** Whatever one loop iteration preserves holds of the state the loop
    ends in. *)
Lemma reduction_loop_preserves (I : reducer_state -> Prop) (A : ndarray) :
  (forall st, I st -> I (fst (reduction_pass A st))) ->
  forall fuel st st' k,
    reduction_loop fuel A st = Some (st', k) -> I st -> I st'.
Proof.
  intros Hpres fuel.
  induction fuel as [|fuel IH]; intros st st' k H HI; [discriminate|].
  rewrite reduction_loop_S in H. specialize (Hpres st HI).
  destruct (reduction_pass A st) as [st1 [|]]; simpl in *.
  - destruct (reduction_loop fuel A st1) as [[st2 k2]|] eqn:Hl;
      [|discriminate].
    simpl in H. injection H as -> _. eapply IH; eauto.
  - injection H as -> _. exact Hpres.
Qed.

Lemma reduction_pass_sorted (A : ndarray) (st : reducer_state) :
  sorted_state st -> sorted_state (fst (reduction_pass A st)).
Proof.
  intros [Hr Hc]. rewrite reduction_pass_eq. simpl.
  assert (sorted_state (fst (row_step A st))) as [Hr1 Hc1].
  { unfold row_step. destruct (_ <? _); simpl; [|split; assumption].
    split; simpl; [|exact Hc].
    eapply sublist_StronglySorted; [apply select_kept_sublist | exact Hr]. }
  unfold col_step. destruct (_ <? _); simpl; [|split; assumption].
  split; simpl; [exact Hr1|].
  eapply sublist_StronglySorted; [apply select_kept_sublist | exact Hc1].
Qed.

Lemma reducer_result (A B : ndarray) (rf cf : list nat) :
  iterated_elimination_dominated_strategies A = Some (B, rf, cf) ->
  exists st,
    B = ix_ A (active_rows st) (active_cols st) /\
    rf = row_flags st /\ cf = col_flags st /\
    state_inv A st /\ sorted_state st /\
    reduction_pass A st = (st, false) /\
    exists k,
      reduction_loop (S (shape0 A + shape1 A)) A (initial_state A)
      = Some (st, k).
Proof.
  intros Hret.
  destruct (reducer_returns A) as (st & k & Hl & Hret' & Hinv & Hfix & _).
  rewrite Hret in Hret'. injection Hret' as -> -> ->.
  exists st. repeat (split; [auto; fail|]). split; [|eauto].
  eapply (reduction_loop_preserves sorted_state);
    [apply reduction_pass_sorted | exact Hl |].
  split; apply StronglySorted_seq.
Qed.

(** X5: the reduced matrix is the original matrix restricted to the rows
    and columns whose flag is 1, taken in increasing order of index; its
    shape is the number of ones in each flag vector. *)
Theorem reduced_matrix_indexing (A B : ndarray) (rf cf : list nat) :
  iterated_elimination_dominated_strategies A = Some (B, rf, cf) ->
  B = ix_ A (true_indices rf) (true_indices cf) /\
  shape0 B = count_ones rf /\ shape1 B = count_ones cf /\
  count_ones rf = sum_list rf /\ count_ones cf = sum_list cf.
Proof.
  intros Hret.
  destruct (reducer_result A B rf cf Hret)
    as (st & -> & -> & -> & [Hr Hc] & [Sr Sc] & _).
  rewrite <- (tracks_sorted _ _ _ Hr Sr), <- (tracks_sorted _ _ _ Hc Sc).
  destruct (tracks_count _ _ _ Hr) as [Cr Ur].
  destruct (tracks_count _ _ _ Hc) as [Cc Uc].
  simpl. repeat split; congruence.
Qed.

(** ** The reducer: what is left and what was removed *)

Lemma dominance_pass_full (dom : nat -> nat -> bool) (n : nat) :
  length (dominance_pass dom n) <= sum_list (dominance_pass dom n) <->
  forall i j, i < n -> j < n -> i <> j -> dom i j = false.
Proof.
  split.
  - intros H i j Hi Hj Hne.
    destruct (dom i j) eqn:Hd; [|reflexivity].
    assert (dominance_pass dom n !! i = Some 1) as H1.
    { apply binary_sum_full;
        [apply dominance_pass_binary | exact H |].
      rewrite dominance_pass_length. exact Hi. }
    assert (dominance_pass dom n !! i = Some 0) as H0.
    { apply dominance_pass_marked; [exact Hi|]. exists j. auto. }
    congruence.
  - intros H.
    assert (dominance_pass dom n = replicate n 1) as ->.
    { apply list_eq. intros i.
      destruct (Nat.lt_ge_cases i n) as [Hi|Hi].
      - rewrite dominance_pass_lookup by exact Hi.
        destruct (inner_scan dom i (range n)) eqn:Hs.
        + apply inner_scan_true in Hs. destruct Hs as (j & Hj & Hne & Hd).
          apply in_range in Hj. rewrite H in Hd by auto. discriminate.
        + symmetry. apply lookup_replicate_2. exact Hi.
      - rewrite !(proj2 (lookup_ge_None _ _)); [reflexivity | |].
        + rewrite length_replicate. exact Hi.
        + rewrite dominance_pass_length. exact Hi. }
    rewrite length_replicate, sum_list_replicate. lia.
Qed.

(** X6: the matrix returned by the reducer has no weakly dominated row
    and no weakly dominated column. *)
Theorem reduced_matrix_is_dominance_free (A B : ndarray) (rf cf : list nat) :
  iterated_elimination_dominated_strategies A = Some (B, rf, cf) ->
  (forall i j, i < shape0 B -> j < shape0 B -> i <> j ->
     ~ ((forall k, k < shape1 B -> (item B i k <= item B j k)%Q) /\
        (exists k, k < shape1 B /\ (item B i k < item B j k)%Q))) /\
  (forall j k, j < shape1 B -> k < shape1 B -> j <> k ->
     ~ ((forall i, i < shape0 B -> (item B i k <= item B i j)%Q) /\
        (exists i, i < shape0 B /\ (item B i k < item B i j)%Q))).
Proof.
  intros Hret.
  destruct (reducer_result A B rf cf Hret)
    as (st & -> & _ & _ & _ & _ & Hfix & _).
  destruct (reduction_pass_stable _ _ _ Hfix) as (_ & Hr & Hc).
  split.
  - intros i j Hi Hj Hne Hd. apply row_dominated_by_iff in Hd.
    rewrite (proj1 (dominance_pass_full _ _) Hr i j Hi Hj Hne) in Hd.
    discriminate.
  - intros j k Hj Hk Hne Hd. apply col_dominated_by_iff in Hd.
    rewrite (proj1 (dominance_pass_full _ _) Hc j k Hj Hk Hne) in Hd.
    discriminate.
Qed.

Lemma reduction_loop_weight (A : ndarray) (fuel : nat) :
  forall st st' k,
    reduction_loop fuel A st = Some (st', k) ->
    weight st' <= weight st /\
    (weight st' = weight st -> reduction_pass A st = (st, false)).
Proof.
  induction fuel as [|fuel IH]; intros st st' k H; [discriminate|].
  rewrite reduction_loop_S in H.
  destruct (reduction_pass A st) as [st1 [|]] eqn:Hp; simpl in *.
  - destruct (reduction_loop fuel A st1) as [[st2 k2]|] eqn:Hl;
      [|discriminate].
    simpl in H. injection H as -> _.
    apply reduction_pass_progress in Hp.
    destruct (IH _ _ _ Hl) as [Hle _]. split; lia.
  - injection H as -> _.
    destruct (reduction_pass_stable _ _ _ Hp) as (-> & _).
    split; [lia | intros _; reflexivity].
Qed.

(** X7: the reducer returns all-ones flag vectors exactly when the input
    matrix has no weakly dominated row and no weakly dominated column. *)
Theorem reducer_keeps_everything_iff (A B : ndarray) (rf cf : list nat) :
  iterated_elimination_dominated_strategies A = Some (B, rf, cf) ->
  (rf = replicate (shape0 A) 1 /\ cf = replicate (shape1 A) 1 <->
   (forall i j, i < shape0 A -> j < shape0 A -> i <> j ->
      row_dominated_by A i j = false) /\
   (forall j k, j < shape1 A -> k < shape1 A -> j <> k ->
      col_dominated_by A j k = false)).
Proof.
  intros Hret. split.
  - intros [-> ->].
    destruct (reducer_result A B _ _ Hret)
      as (st & _ & Hrf & Hcf & [Hr Hc] & _ & _ & k & Hl).
    destruct (tracks_count _ _ _ Hr) as [_ Ur].
    destruct (tracks_count _ _ _ Hc) as [_ Uc].
    rewrite <- Hrf, sum_list_replicate in Ur.
    rewrite <- Hcf, sum_list_replicate in Uc.
    destruct (reduction_loop_weight _ _ _ _ _ Hl) as [_ Hsame].
    destruct (reduction_pass_stable A (initial_state A) (initial_state A))
      as (_ & Kr & Kc).
    { apply Hsame. rewrite initial_state_weight. unfold weight. lia. }
    simpl in Kr, Kc.
    rewrite (rows_check_arr_eq _ _ (ix_range A)) in Kr.
    rewrite (cols_check_arr_eq _ _ (ix_range A)) in Kc.
    split; apply dominance_pass_full; assumption.
  - intros [Hr Hc].
    pose proof (reducer_on_fixed_point A
                  (proj2 (dominance_pass_full _ _) Hr)
                  (proj2 (dominance_pass_full _ _) Hc)) as Hp.
    unfold iterated_elimination_dominated_strategies in Hret.
    rewrite reduction_loop_S, Hp in Hret. simpl in Hret.
    injection Hret as _ <- <-. auto.
Qed.

Lemma row_all_le_iff (M : ndarray) (i j : nat) :
  row_all_le M i j = true <->
  forall k, k < shape1 M -> (item M i k <= item M j k)%Q.
Proof.
  unfold row_all_le. rewrite forallb_forall. split.
  - intros H k Hk. apply Qle_bool_iff, H, in_range, Hk.
  - intros H k Hk. apply Qle_bool_iff, H, in_range, Hk.
Qed.

(** Every row lies below a row that the row check keeps. *)
Lemma rows_cover (M : ndarray) (i : nat) :
  i < shape0 M ->
  exists j, j < shape0 M /\ row_all_le M i j = true /\
            eliminate_weakly_dominated_rows M !! j = Some 1.
Proof.
  intros Hi.
  destruct (exists_maximal (fun j => Qsum (row_of M j))
              (List.filter (row_all_le M i) (range (shape0 M))))
    as (j & Hj & Hmax).
  { intros Hnil.
    assert (In i (List.filter (row_all_le M i) (range (shape0 M)))) as Hin.
    { apply filter_In. split; [apply in_range, Hi|].
      apply row_all_le_iff. intros k _. lra. }
    rewrite Hnil in Hin. contradiction. }
  apply filter_In in Hj. destruct Hj as [Hj Hij]. apply in_range in Hj.
  exists j. split; [exact Hj|]. split; [exact Hij|].
  unfold eliminate_weakly_dominated_rows.
  rewrite dominance_pass_lookup by exact Hj.
  destruct (inner_scan _ j _) eqn:Hs; [|reflexivity].
  apply inner_scan_true in Hs. destruct Hs as (j' & Hj' & _ & Hd).
  pose proof (row_dominated_by_sum _ _ _ Hd) as Hlt.
  assert (In j' (List.filter (row_all_le M i) (range (shape0 M)))) as Hin.
  { apply filter_In. split; [exact Hj'|].
    apply row_all_le_iff. intros k Hk.
    apply row_dominated_by_iff in Hd. destruct Hd as [Hd _].
    pose proof (proj1 (row_all_le_iff M i j) Hij k Hk).
    specialize (Hd k Hk). lra. }
  specialize (Hmax j' Hin). lra.
Qed.

Lemma col_all_ge_row (M : ndarray) (j k : nat) :
  col_all_ge M j k = row_all_le (neg_transpose M) j k.
Proof.
  unfold col_all_ge, row_all_le. simpl.
  apply forallb_ext_in. intros i _. symmetry. apply Qle_bool_opp.
Qed.

(** Every column lies above a column that the column check keeps. *)
Lemma cols_cover (M : ndarray) (j : nat) :
  j < shape1 M ->
  exists k, k < shape1 M /\
            (forall i, i < shape0 M -> (item M i k <= item M i j)%Q) /\
            eliminate_weakly_dominated_cols M !! k = Some 1.
Proof.
  intros Hj. destruct (rows_cover (neg_transpose M) j Hj) as (k & Hk & Hle & H1).
  exists k. split; [exact Hk|]. split.
  - intros i Hi. apply row_all_le_iff with (k := i) in Hle; [|exact Hi].
    simpl in Hle. lra.
  - rewrite col_check_neg_transpose. exact H1.
Qed.

Lemma elem_of_select_kept (active keep : list nat) (r : nat) :
  r ∈ select_kept active keep <->
  exists i, active !! i = Some r /\ keep !! i = Some 1.
Proof.
  unfold select_kept. revert keep.
  induction active as [|a active IH]; intros [|k keep]; simpl.
  - split; [intros H; inversion H | intros (i & H & _); discriminate].
  - split; [intros H; inversion H | intros (i & H & _); discriminate].
  - split; [intros H; inversion H | intros (i & _ & H); discriminate].
  - destruct (Nat.eqb_spec k 1) as [->|Hne]; simpl.
    + rewrite elem_of_cons, IH. split.
      * intros [->|(i & Ha & Hk)]; [exists 0 | exists (S i)]; auto.
      * intros ([|i] & Ha & Hk); simpl in *;
          [left; congruence | right; eauto].
    + rewrite IH. split.
      * intros (i & Ha & Hk). exists (S i). auto.
      * intros ([|i] & Ha & Hk); simpl in *; [congruence | eauto].
Qed.

Lemma nth_of_lookup (l : list nat) (i x : nat) :
  l !! i = Some x -> nth i l 0 = x /\ i < length l.
Proof.
  intros H. split; [apply nth_lookup_Some, H | eapply lookup_lt_Some, H].
Qed.

Lemma row_step_covered (A : ndarray) (st : reducer_state) :
  covered A st -> covered A (fst (row_step A st)).
Proof.
  intros [Hr Hc]. unfold row_step.
  set (cur := ix_ A (active_rows st) (active_cols st)).
  destruct (_ <? _); simpl; [|split; assumption].
  split; simpl.
  - intros r Hlt. destruct (Hr r Hlt) as (r' & Hr' & Hle).
    apply list_elem_of_lookup in Hr'. destruct Hr' as [i Hi].
    destruct (nth_of_lookup _ _ _ Hi) as [Hn Hil].
    destruct (rows_cover cur i Hil) as (j & Hj & Hij & Hkeep).
    simpl in Hj.
    destruct (lookup_lt_is_Some_2 (active_rows st) j Hj) as [r'' Hj'].
    destruct (nth_of_lookup _ _ _ Hj') as [Hn' _].
    exists r''. split.
    + apply elem_of_select_kept. eauto.
    + intros c Hcin. specialize (Hle c Hcin).
      apply list_elem_of_lookup in Hcin. destruct Hcin as [l Hl].
      destruct (nth_of_lookup _ _ _ Hl) as [Hnl Hll].
      apply row_all_le_iff with (k := l) in Hij; [|exact Hll].
      simpl in Hij. rewrite Hn, Hn', Hnl in Hij. lra.
  - intros c Hlt. destruct (Hc c Hlt) as (c' & Hc' & Hle).
    exists c'. split; [exact Hc'|].
    intros r Hrin. apply Hle.
    eapply elem_of_sublist; [exact Hrin | apply select_kept_sublist].
Qed.

Lemma col_step_covered (A : ndarray) (st : reducer_state) :
  covered A st -> covered A (fst (col_step A st)).
Proof.
  intros [Hr Hc]. unfold col_step.
  set (cur := ix_ A (active_rows st) (active_cols st)).
  destruct (_ <? _); simpl; [|split; assumption].
  split; simpl.
  - intros r Hlt. destruct (Hr r Hlt) as (r' & Hr' & Hle).
    exists r'. split; [exact Hr'|].
    intros c Hcin. apply Hle.
    eapply elem_of_sublist; [exact Hcin | apply select_kept_sublist].
  - intros c Hlt. destruct (Hc c Hlt) as (c' & Hc' & Hle).
    apply list_elem_of_lookup in Hc'. destruct Hc' as [j Hj].
    destruct (nth_of_lookup _ _ _ Hj) as [Hn Hjl].
    destruct (cols_cover cur j Hjl) as (k & Hk & Hjk & Hkeep).
    simpl in Hk.
    destruct (lookup_lt_is_Some_2 (active_cols st) k Hk) as [c'' Hk'].
    destruct (nth_of_lookup _ _ _ Hk') as [Hn' _].
    exists c''. split.
    + apply elem_of_select_kept. eauto.
    + intros r Hrin. specialize (Hle r Hrin).
      apply list_elem_of_lookup in Hrin. destruct Hrin as [i Hi].
      destruct (nth_of_lookup _ _ _ Hi) as [Hni Hil].
      specialize (Hjk i Hil). simpl in Hjk.
      rewrite Hn, Hn', Hni in Hjk. lra.
Qed.

Lemma reduction_pass_covered (A : ndarray) (st : reducer_state) :
  covered A st -> covered A (fst (reduction_pass A st)).
Proof.
  intros H. rewrite reduction_pass_eq. simpl.
  apply col_step_covered, row_step_covered, H.
Qed.

Lemma initial_state_covered (A : ndarray) : covered A (initial_state A).
Proof.
  split; simpl.
  - intros r Hr. exists r. split; [apply elem_of_seq; lia|].
    intros c _. lra.
  - intros c Hc. exists c. split; [apply elem_of_seq; lia|].
    intros r _. lra.
Qed.

(** X8: nothing is lost by the elimination.  On the surviving columns
    every row of the original matrix is entrywise at most some surviving
    row, and on the surviving rows every column of the original matrix is
    entrywise at least some surviving column. *)
Theorem eliminated_strategies_are_covered (A B : ndarray) (rf cf : list nat) :
  iterated_elimination_dominated_strategies A = Some (B, rf, cf) ->
  (forall r, r < shape0 A ->
     exists r', rf !! r' = Some 1 /\
       forall c, cf !! c = Some 1 -> (item A r c <= item A r' c)%Q) /\
  (forall c, c < shape1 A ->
     exists c', cf !! c' = Some 1 /\
       forall r, rf !! r = Some 1 -> (item A r c' <= item A r c)%Q).
Proof.
  intros Hret.
  destruct (reducer_result A B rf cf Hret)
    as (st & _ & -> & -> & [Hr Hc] & _ & _ & k & Hl).
  assert (covered A st) as [Cr Cc].
  { eapply (reduction_loop_preserves (covered A));
      [apply reduction_pass_covered | exact Hl | apply initial_state_covered]. }
  split.
  - intros r Hlt. destruct (Cr r Hlt) as (r' & Hr' & Hle).
    exists r'. split; [apply (tracks_member _ _ _ Hr), Hr'|].
    intros c Hcin. apply Hle, (tracks_member _ _ _ Hc), Hcin.
  - intros c Hlt. destruct (Cc c Hlt) as (c' & Hc' & Hle).
    exists c'. split; [apply (tracks_member _ _ _ Hc), Hc'|].
    intros r Hrin. apply Hle, (tracks_member _ _ _ Hr), Hrin.
Qed.

(** ** The pipeline: the returned row strategy in the original game *)

Lemma dot_nil_l (xs : list Q) : dot [] xs = 0%Q.
Proof. reflexivity. Qed.

Lemma dot_nil_r (w : list Q) : dot w [] = 0%Q.
Proof. destruct w; reflexivity. Qed.

Lemma dot_map_linear (a : Q) (g h : nat -> Q) (c : list Q) (L : list nat) :
  (dot c (map (fun j => a * g j + h j) L)
   == a * dot c (map g L) + dot c (map h L))%Q.
Proof.
  revert c. induction L as [|j L IH]; intros c.
  - simpl. rewrite !dot_nil_r. ring.
  - destruct c as [|v c]; [rewrite !dot_nil_l; ring|].
    simpl map. rewrite !dot_cons, IH. ring.
Qed.

Lemma dot_map_mono (f g : nat -> Q) (L : list nat) :
  forall p : list Q,
    Forall (fun v => (0 <= v)%Q) p ->
    (forall r, In r L -> (f r <= g r)%Q) ->
    (dot p (map f L) <= dot p (map g L))%Q.
Proof.
  induction L as [|r L IH]; intros p Hp H.
  - simpl. rewrite !dot_nil_r. lra.
  - destruct p as [|a p]; [rewrite !dot_nil_l; lra|].
    inversion Hp; subst. simpl map. rewrite !dot_cons.
    assert (dot p (map f L) <= dot p (map g L))%Q
      by (apply IH; [assumption | intros; apply H; right; assumption]).
    assert (f r * a <= g r * a)%Q
      by (apply Qmult_le_compat_r; [apply H; left; reflexivity | assumption]).
    lra.
Qed.

(** Reading an expanded vector against all indices is reading the reduced
    vector against the flagged indices. *)
Lemma dot_scatter (f : nat -> Q) (fl : list nat) :
  forall (p : list Q) (s : nat),
    length p = count_ones fl ->
    (dot (scatter fl p) (map f (seq s (length fl)))
     == dot p (map f (flagged_from s fl)))%Q.
Proof.
  induction fl as [|b fl IH]; intros p s Hlen.
  - destruct p; [reflexivity | discriminate].
  - rewrite count_ones_cons in Hlen. simpl.
    destruct (Nat.eqb b 1).
    + destruct p as [|v p]; [discriminate|].
      simpl map. rewrite !dot_cons, IH by (simpl in Hlen; lia). reflexivity.
    + rewrite dot_cons, IH by (simpl in Hlen; lia). ring.
Qed.

Lemma map_nth_seq {T} (g : nat -> T) (l : list nat) :
  map (fun k => g (nth k l 0)) (seq 0 (length l)) = map g l.
Proof.
  induction l as [|a l IH]; [reflexivity|].
  simpl. f_equal. rewrite <- seq_shift, map_map. exact IH.
Qed.

Lemma col_of_ix (A : ndarray) (rows cols : list nat) (l : nat) :
  col_of (ix_ A rows cols) l = map (fun r => item A r (nth l cols 0)) rows.
Proof.
  unfold col_of, range. simpl.
  apply (map_nth_seq (fun r => item A r (nth l cols 0))).
Qed.

Lemma Qsum_insert_add (l : list Q) (k : nat) (v w : Q) :
  l !! k = Some v -> (Qsum (<[k:=(v + w)%Q]> l) == Qsum l + w)%Q.
Proof.
  revert k. induction l as [|a l IH]; intros [|k] H; try discriminate.
  - simpl in H. injection H as ->. simpl. ring.
  - simpl in *. rewrite (IH k H). ring.
Qed.

Lemma dot_insert_add (l xs : list Q) (k : nat) (v w : Q) :
  l !! k = Some v -> length l = length xs ->
  (dot (<[k:=(v + w)%Q]> l) xs == dot l xs + w * nth k xs 0)%Q.
Proof.
  revert k xs. induction l as [|a l IH]; intros [|k] [|y xs] H Hlen;
    try discriminate.
  - simpl in H. injection H as ->. simpl. rewrite !dot_cons. ring.
  - simpl in *. rewrite !dot_cons, (IH k xs H) by lia. ring.
Qed.

Lemma reducer_result_covered (A B : ndarray) (rf cf : list nat) :
  iterated_elimination_dominated_strategies A = Some (B, rf, cf) ->
  exists st,
    B = ix_ A (active_rows st) (active_cols st) /\
    rf = row_flags st /\ cf = col_flags st /\
    state_inv A st /\ covered A st /\
    active_rows st = true_indices rf /\ active_cols st = true_indices cf.
Proof.
  intros Hret.
  destruct (reducer_result A B rf cf Hret)
    as (st & -> & -> & -> & [Hr Hc] & [Sr Sc] & _ & k & Hl).
  exists st. repeat (split; [auto; fail|]).
  split; [split; assumption|]. split.
  - eapply (reduction_loop_preserves (covered A));
      [apply reduction_pass_covered | exact Hl | apply initial_state_covered].
  - split; [exact (tracks_sorted _ _ _ Hr Sr) | exact (tracks_sorted _ _ _ Hc Sc)].
Qed.

(** A mixed strategy over all rows can be moved onto the active rows
    without losing anything against an active column. *)
Lemma transfer_to_active (A : ndarray) (rows cols : list nat) :
  (forall r, r < shape0 A ->
     exists r', r' ∈ rows /\
       forall c, c ∈ cols -> (item A r c <= item A r' c)%Q) ->
  forall (rs : list nat) (ws : list Q),
    length ws = length rs ->
    Forall (fun v => (0 <= v)%Q) ws ->
    (forall r, In r rs -> r < shape0 A) ->
    exists q,
      length q = length rows /\ Forall (fun v => (0 <= v)%Q) q /\
      (Qsum q == Qsum ws)%Q /\
      forall l, l < length cols ->
        (dot ws (map (fun r => item A r (nth l cols 0%nat)) rs)
         <= dot q (col_of (ix_ A rows cols) l))%Q.
Proof.
  intros Hcov rs. induction rs as [|r rs IH]; intros [|w ws] Hlen Hnn Hin;
    try discriminate.
  - exists (replicate (length rows) 0%Q).
    split; [apply length_replicate|].
    split; [apply Forall_replicate; lra|]. split.
    + rewrite <- (dot_ones (replicate _ 0%Q)), dot_comm, dot_zeros.
      reflexivity.
    + intros l _. rewrite dot_zeros, dot_nil_l. lra.
  - inversion Hnn as [|? ? Hw Hnn']; subst.
    destruct (IH ws) as (q & Hq & Hqn & Hqs & Hqd);
      [simpl in Hlen; lia | assumption
       | intros; apply Hin; right; assumption |].
    destruct (Hcov r) as (r' & Hr' & Hle); [apply Hin; left; reflexivity|].
    apply list_elem_of_lookup in Hr'. destruct Hr' as [k Hk].
    destruct (nth_of_lookup _ _ _ Hk) as [Hnk Hkl].
    destruct (lookup_lt_is_Some_2 q k) as [v Hv]; [lia|].
    exists (<[k:=(v + w)%Q]> q).
    split; [rewrite length_insert; exact Hq|]. split; [|split].
    + apply Forall_insert; [exact Hqn|].
      eapply Forall_lookup in Hqn; [|exact Hv]. simpl in Hqn. lra.
    + rewrite Qsum_insert_add by exact Hv. simpl. rewrite Hqs. ring.
    + intros l Hl. simpl map. rewrite dot_cons.
      rewrite dot_insert_add;
        [| exact Hv | rewrite col_of_length; simpl; exact Hq].
      rewrite col_of_nth by (simpl; exact Hkl). simpl. rewrite Hnk.
      specialize (Hqd l Hl).
      assert (item A r (nth l cols 0%nat) <= item A r' (nth l cols 0%nat))%Q as Hrr.
      { apply Hle. apply list_elem_of_lookup. exists l.
        apply list_lookup_lookup_total_lt in Hl.
        rewrite Hl. f_equal. symmetry. apply nth_lookup_Some. exact Hl. }
      assert (item A r (nth l cols 0%nat) * w <= item A r' (nth l cols 0%nat) * w)%Q
        by (apply Qmult_le_compat_r; assumption).
      lra.
Qed.

Section EPA_game.

Variable linprog : lp_problem -> lp_result.

Lemma epa_inv (A : ndarray) (r c : list Q) (v : Q) :
  chaterjee_epa_algorithm linprog A = Some (r, c, v) ->
  exists B rf cf p V,
    iterated_elimination_dominated_strategies A = Some (B, rf, cf) /\
    solve_row_player_lp linprog B = Some (p, V) /\
    expand rf p = Some r /\
    expand cf (uniform (sum_list cf)) = Some c /\
    shape1 A = length c /\ length r = shape0 A /\
    v = dot r (map (fun i => dot (row_of A i) c) (range (shape0 A))).
Proof using Type.
  unfold chaterjee_epa_algorithm. intros He.
  destruct (iterated_elimination_dominated_strategies A)
    as [[[B rf] cf]|] eqn:Hret; [|discriminate].
  simpl in He.
  destruct (solve_row_player_lp linprog B) as [[p V]|] eqn:Hlp;
    [|discriminate].
  simpl in He.
  destruct (expand rf p) as [r'|] eqn:Er; [|discriminate]. simpl in He.
  fold (uniform (sum_list cf)) in He.
  destruct (expand cf (uniform (sum_list cf))) as [c'|] eqn:Ec;
    [|discriminate].
  simpl in He. unfold np_dot_mat in He.
  destruct (Nat.eqb_spec (shape1 A) (length c')) as [Hn|]; [|discriminate].
  simpl in He. unfold np_dot_vec in He.
  destruct (Nat.eqb_spec (length r') (length (map (fun i => dot (row_of A i) c')
                                                  (range (shape0 A)))))
    as [Hm|]; [|discriminate].
  simpl in He. injection He as <- <- <-.
  rewrite length_map in Hm. unfold range in Hm. rewrite length_seq in Hm.
  exists B, rf, cf, p, V. repeat split; auto.
Qed.

Hypothesis linprog_feasible :
  forall P, success (linprog P) = true -> lp_feasible P (x (linprog P)).

(** Everything the later statements need about a successful run. *)
Lemma epa_core (A : ndarray) (r c : list Q) (v : Q) :
  chaterjee_epa_algorithm linprog A = Some (r, c, v) ->
  exists st p V,
    iterated_elimination_dominated_strategies A
    = Some (ix_ A (active_rows st) (active_cols st),
            row_flags st, col_flags st) /\
    solve_row_player_lp linprog (ix_ A (active_rows st) (active_cols st))
    = Some (p, V) /\
    state_inv A st /\ covered A st /\
    active_rows st = true_indices (row_flags st) /\
    active_cols st = true_indices (col_flags st) /\
    r = scatter (row_flags st) p /\
    c = scatter (col_flags st) (uniform (length (active_cols st))) /\
    length p = count_ones (row_flags st) /\
    length (uniform (length (active_cols st))) = count_ones (col_flags st) /\
    v = dot r (map (fun i => dot (row_of A i) c) (range (shape0 A))).
Proof using linprog_feasible.
  intros He. apply epa_inv in He.
  destruct He as (B & rf & cf & p & V & Hret & Hlp & Er & Ec & _ & _ & Hv).
  destruct (reducer_result_covered A B rf cf Hret)
    as (st & -> & -> & -> & Hinv & Hcov & Hrows & Hcols).
  exists st, p, V. destruct Hinv as [Hr Hc].
  destruct (tracks_count _ _ _ Hr) as [Cr _].
  destruct (tracks_count _ _ _ Hc) as [Cc Uc].
  rewrite Uc in Ec.
  apply expand_Some in Er, Ec. destruct Er as [_ ->], Ec as [_ ->].
  pose proof (solve_row_player_lp_point linprog linprog_feasible _ _ _ Hlp)
    as (Hpl & _).
  simpl in Hpl.
  repeat (split; [auto; fail|]).
  split; [split; assumption|].
  repeat (split; [auto; fail|]).
  split; [lia|]. split; [|exact Hv].
  unfold uniform. rewrite length_map, length_replicate. lia.
Qed.

Hypothesis linprog_optimal :
  forall P, success (linprog P) = true -> lp_optimal P (x (linprog P)).

(** The returned row strategy in the original game: it is a mixed
    strategy, it secures the LP value against every original column, and
    no mixed strategy over the original rows secures more than the LP
    value. *)
Lemma epa_row_strategy (A : ndarray) (r c : list Q) (v : Q) :
  chaterjee_epa_algorithm linprog A = Some (r, c, v) ->
  exists V,
    distribution (shape0 A) r /\ distribution (shape1 A) c /\
    (forall j, j < shape1 A -> (V <= dot r (col_of A j))%Q) /\
    (forall (q : list Q) (V' : Q),
       distribution (shape0 A) q ->
       (forall j, j < shape1 A -> (V' <= dot q (col_of A j))%Q) ->
       (V' <= V)%Q).
Proof using linprog_feasible linprog_optimal.
  intros He.
  destruct (epa_core A r c v He)
    as (st & p & V & _ & Hlp & [Hr Hc] & [Cr Cc] & Hrows & Hcols
        & -> & -> & Hpl & Hul & _).
  set (B := ix_ A (active_rows st) (active_cols st)) in *.
  destruct (solve_row_player_lp_secures linprog linprog_feasible B p V Hlp)
    as ((_ & Hpn & Hps) & Hsec).
  exists V. split; [|split; [|split]].
  - split; [rewrite scatter_length; apply Hr|].
    split; [apply scatter_nonneg, Hpn|].
    rewrite scatter_sum by exact Hpl. exact Hps.
  - assert (0 < length (active_cols st)) as Hpos.
    { destruct (length (active_cols st)) eqn:E; [|lia]. exfalso.
      destruct (solve_row_player_lp_optimal linprog linprog_feasible
                  linprog_optimal B p V Hlp) as [_ Hopt].
      exact (row_lp_unbounded B _ E Hopt). }
    destruct (uniform_distribution _ Hpos) as (Ul & Un & Us).
    fold (uniform (length (active_cols st))) in Ul, Un, Us.
    split; [rewrite scatter_length; apply Hc|].
    split; [apply scatter_nonneg, Un|].
    rewrite scatter_sum by exact Hul. exact Us.
  - intros j Hj. destruct (Cc j Hj) as (c' & Hc' & Hle).
    apply list_elem_of_lookup in Hc'. destruct Hc' as [l Hl].
    destruct (nth_of_lookup _ _ _ Hl) as [Hnl Hll].
    specialize (Hsec l Hll). unfold B in Hsec.
    rewrite col_of_ix, Hnl in Hsec.
    unfold col_of, range. rewrite <- (tracks_length _ _ _ Hr).
    rewrite dot_scatter by exact Hpl.
    fold (true_indices (row_flags st)). rewrite <- Hrows.
    eapply Qle_trans; [exact Hsec|].
    apply dot_map_mono; [exact Hpn|].
    intros r Hrin. apply Hle, list_elem_of_In, Hrin.
  - intros q V' (Hql & Hqn & Hqs) Hq.
    destruct (transfer_to_active A (active_rows st) (active_cols st) Cr
                (seq 0 (shape0 A)) q)
      as (q' & Hl' & Hn' & Hs' & Hd').
    + rewrite length_seq. exact Hql.
    + exact Hqn.
    + intros i Hi. apply in_seq in Hi. lia.
    + apply (solve_row_player_lp_maximin linprog linprog_feasible
               linprog_optimal B p V Hlp q' V').
      * split; [exact Hl'|]. split; [exact Hn'|]. rewrite Hs'. exact Hqs.
      * intros l Hl. simpl in Hl. eapply Qle_trans; [|apply Hd', Hl].
        apply Hq.
        assert (nth l (active_cols st) 0 ∈ active_cols st) as Hin.
        { apply list_elem_of_lookup. exists l.
          apply list_lookup_lookup_total_lt in Hl. rewrite Hl. f_equal.
          symmetry. apply nth_lookup_Some. exact Hl. }
        apply (tracks_member _ _ _ Hc) in Hin.
        apply lookup_lt_Some in Hin. rewrite (tracks_length _ _ _ Hc) in Hin.
        exact Hin.
Qed.

(** X10: the row strategy that the orchestrator returns is a maximin
    strategy of the original game, eliminated columns included: whatever
    payoff level some mixed strategy over the original rows secures
    against every original column, the returned strategy secures it
    too. *)
Theorem epa_row_strategy_is_maximin (A : ndarray) (r c : list Q) (v : Q) :
  chaterjee_epa_algorithm linprog A = Some (r, c, v) ->
  forall (q : list Q) (V' : Q),
    length q = shape0 A -> Forall (fun w => (0 <= w)%Q) q ->
    (Qsum q == 1)%Q ->
    (forall j, j < shape1 A -> (V' <= dot q (col_of A j))%Q) ->
    forall j, j < shape1 A -> (V' <= dot r (col_of A j))%Q.
Proof using linprog_feasible linprog_optimal.
  intros He q V' Hql Hqn Hqs Hq j Hj.
  destruct (epa_row_strategy A r c v He) as (V & _ & _ & Hsec & Hmax).
  eapply Qle_trans; [|apply Hsec, Hj].
  apply (Hmax q V'); [split; auto | exact Hq].
Qed.

End EPA_game.

(** ** Rescaled payoffs *)

Lemma Qle_bool_affine (a b u v : Q) :
  (0 < a)%Q -> Qle_bool (a * u + b) (a * v + b) = Qle_bool u v.
Proof.
  intros Ha. apply eq_true_iff_eq. rewrite !Qle_bool_iff. split; intros H.
  - apply (Qmult_le_l u v a Ha). lra.
  - apply (Qmult_le_l u v a Ha) in H. lra.
Qed.

Lemma Qlt_bool_affine (a b u v : Q) :
  (0 < a)%Q -> Qlt_bool (a * u + b) (a * v + b) = Qlt_bool u v.
Proof.
  intros Ha. apply eq_true_iff_eq. rewrite !Qlt_bool_iff. split; intros H.
  - apply (Qmult_lt_l u v a Ha). lra.
  - apply (Qmult_lt_l u v a Ha) in H. lra.
Qed.

Lemma rows_check_affine (a b : Q) (M : ndarray) :
  (0 < a)%Q ->
  eliminate_weakly_dominated_rows (affine a b M)
  = eliminate_weakly_dominated_rows M.
Proof.
  intros Ha. unfold eliminate_weakly_dominated_rows. simpl.
  apply dominance_pass_ext. intros i j _ _.
  unfold row_dominated_by, row_all_le, row_any_lt. simpl. f_equal.
  - apply forallb_ext_in. intros k _. apply Qle_bool_affine, Ha.
  - apply existsb_ext_in. intros k _. apply Qlt_bool_affine, Ha.
Qed.

Lemma cols_check_affine (a b : Q) (M : ndarray) :
  (0 < a)%Q ->
  eliminate_weakly_dominated_cols (affine a b M)
  = eliminate_weakly_dominated_cols M.
Proof.
  intros Ha. unfold eliminate_weakly_dominated_cols. simpl.
  apply dominance_pass_ext. intros i j _ _.
  unfold col_dominated_by, col_all_ge, col_any_gt. simpl. f_equal.
  - apply forallb_ext_in. intros k _. apply Qle_bool_affine, Ha.
  - apply existsb_ext_in. intros k _. apply Qlt_bool_affine, Ha.
Qed.

Lemma reduction_pass_affine (a b : Q) (A : ndarray) (st : reducer_state) :
  (0 < a)%Q -> reduction_pass (affine a b A) st = reduction_pass A st.
Proof.
  intros Ha.
  assert (forall s, row_step (affine a b A) s = row_step A s) as Hr.
  { intros s. unfold row_step.
    change (ix_ (affine a b A) (active_rows s) (active_cols s))
      with (affine a b (ix_ A (active_rows s) (active_cols s))).
    rewrite rows_check_affine by exact Ha. reflexivity. }
  assert (forall s, col_step (affine a b A) s = col_step A s) as Hc.
  { intros s. unfold col_step.
    change (ix_ (affine a b A) (active_rows s) (active_cols s))
      with (affine a b (ix_ A (active_rows s) (active_cols s))).
    rewrite cols_check_affine by exact Ha. reflexivity. }
  unfold reduction_pass. rewrite Hr.
  destruct (row_step A st) as [st1 ch1]. rewrite Hc. reflexivity.
Qed.

Lemma reduction_loop_affine (a b : Q) (A : ndarray) (fuel : nat) :
  (0 < a)%Q ->
  forall st, reduction_loop fuel (affine a b A) st = reduction_loop fuel A st.
Proof.
  intros Ha. induction fuel as [|fuel IH]; intros st; [reflexivity|].
  rewrite !reduction_loop_S, reduction_pass_affine by exact Ha.
  destruct (snd (reduction_pass A st)); [|reflexivity].
  rewrite IH. reflexivity.
Qed.

(** X12: multiplying all payoffs by a positive number and adding a
    constant changes nothing in the reduction: the same rows and columns
    are eliminated, and the reduced matrix is the rescaled reduced
    matrix. *)
Theorem reduction_invariant_under_rescaling (a b : Q) (A : ndarray) :
  (0 < a)%Q ->
  iterated_elimination_dominated_strategies (affine a b A)
  = match iterated_elimination_dominated_strategies A with
    | Some (B, rf, cf) => Some (affine a b B, rf, cf)
    | None => None
    end.
Proof.
  intros Ha. unfold iterated_elimination_dominated_strategies.
  change (initial_state (affine a b A)) with (initial_state A).
  change (shape0 (affine a b A)) with (shape0 A).
  change (shape1 (affine a b A)) with (shape1 A).
  rewrite reduction_loop_affine by exact Ha.
  destruct (reduction_loop _ A (initial_state A)) as [[st k]|]; reflexivity.
Qed.

(** ** The Colonel Blotto generator *)

Lemma tuple_leb_refl (a : list nat) : tuple_leb a a = true.
Proof.
  induction a as [|u a IH]; [reflexivity|]. simpl.
  rewrite Nat.ltb_irrefl. exact IH.
Qed.

Lemma tuple_leb_cons (u v : nat) (a b : list nat) :
  tuple_leb (u :: a) (v :: b) = true <->
  u < v \/ (u = v /\ tuple_leb a b = true).
Proof.
  simpl. destruct (Nat.ltb_spec u v) as [Hlt|Hge].
  - split; auto.
  - destruct (Nat.ltb_spec v u) as [Hlt|Hge'].
    + split; [discriminate | intros [?|[? _]]; lia].
    + split; [intros H; right; split; [lia | exact H]|].
      intros [?|[_ H]]; [lia | exact H].
Qed.

#[global] Instance tuple_le_trans : Transitive tuple_le.
Proof.
  unfold tuple_le. intros a. induction a as [|u a IH]; intros b c Hab Hbc.
  - reflexivity.
  - destruct b as [|v b]; [discriminate|].
    destruct c as [|w c]; [discriminate|].
    apply tuple_leb_cons in Hab, Hbc. apply tuple_leb_cons.
    destruct Hab as [?|[-> Hab]], Hbc as [?|[-> Hbc]]; try (left; lia).
    right. split; [reflexivity | eapply IH; eauto].
Qed.

#[global] Instance tuple_le_total : Total tuple_le.
Proof.
  unfold tuple_le. intros a. induction a as [|u a IH]; intros b.
  - left. reflexivity.
  - destruct b as [|v b]; [right; reflexivity|].
    rewrite !tuple_leb_cons.
    destruct (Nat.lt_trichotomy u v) as [?|[->|?]]; [auto | | auto].
    destruct (IH b); auto.
Qed.

#[global] Instance tuple_le_antisym : AntiSymm (=) tuple_le.
Proof.
  unfold tuple_le. intros a. induction a as [|u a IH]; intros b Hab Hba.
  - destruct b; [reflexivity | discriminate].
  - destruct b as [|v b]; [discriminate|].
    apply tuple_leb_cons in Hab, Hba.
    destruct Hab as [?|[-> Hab]], Hba as [?|[? Hba]]; try lia.
    f_equal. apply IH; assumption.
Qed.

Lemma elem_of_combinations_from (rec : list nat -> list (list nat))
  (c : list nat) (n : nat) :
  forall s,
    c ∈ combinations_from rec (seq s n) <->
    exists i c', i < n /\ c = (s + i) :: c' /\ c' ∈ rec (seq (s + i) (n - i)).
Proof.
  induction n as [|n IH]; intros s.
  - simpl. split; [intros H; inversion H | intros (i & _ & Hi & _); lia].
  - change (combinations_from rec (seq s (S n)))
      with (map (cons s) (rec (seq s (S n)))
            ++ combinations_from rec (seq (S s) n)).
    rewrite elem_of_app, IH. split.
    + intros [H|(i & c' & Hi & -> & Hc')].
      * apply list_elem_of_fmap in H. destruct H as (c' & -> & Hc').
        exists 0, c'. rewrite Nat.add_0_r, Nat.sub_0_r.
        split; [lia|]. auto.
      * exists (S i), c'. split; [lia|].
        replace (s + S i) with (S s + i) by lia. auto.
    + intros ([|i] & c' & Hi & -> & Hc').
      * left. rewrite Nat.add_0_r, Nat.sub_0_r in *.
        apply list_elem_of_fmap. eauto.
      * right. exists i, c'. split; [lia|].
        replace (S s + i) with (s + S i) by lia. auto.
Qed.

(** The combinations with replacement from [s, s+1, ..., s+n-1] are the
    non-decreasing tuples over that range. *)
Lemma elem_of_combinations (k : nat) :
  forall (s n : nat) (c : list nat),
    c ∈ combinations_with_replacement (seq s n) k <->
    length c = k /\ StronglySorted le c /\
    Forall (fun e => s <= e < s + n) c.
Proof.
  induction k as [|k IH]; intros s n c.
  - simpl. rewrite list_elem_of_singleton. split.
    + intros ->. repeat constructor.
    + intros (H & _). destruct c; [reflexivity | discriminate].
  - simpl. rewrite elem_of_combinations_from. split.
    + intros (i & c' & Hi & -> & Hc'). apply IH in Hc'.
      destruct Hc' as (Hlen & Hs & Hb). split; [simpl; lia|]. split.
      * constructor; [exact Hs|].
        eapply Forall_impl; [exact Hb|]. simpl. intros; lia.
      * constructor; [lia|].
        eapply Forall_impl; [exact Hb|]. simpl. intros; lia.
    + intros (Hlen & Hs & Hb). destruct c as [|e c]; [discriminate|].
      apply StronglySorted_inv in Hs. destruct Hs as [Hs He].
      inversion Hb as [|? ? Hbe Hbc]; subst.
      exists (e - s), c. split; [lia|].
      replace (s + (e - s)) with e by lia. split; [reflexivity|].
      apply IH. split; [simpl in Hlen; lia|]. split; [exact Hs|].
      apply Forall_forall. intros y Hy.
      rewrite Forall_forall in He, Hbc.
      specialize (He y Hy). specialize (Hbc y Hy). lia.
Qed.

Lemma NoDup_combinations_from (rec : list nat -> list (list nat)) (n : nat) :
  (forall s' n', NoDup (rec (seq s' n'))) ->
  forall s, NoDup (combinations_from rec (seq s n)).
Proof.
  intros Hrec. induction n as [|n IH]; intros s; [constructor|].
  change (combinations_from rec (seq s (S n)))
    with (map (cons s) (rec (seq s (S n)))
          ++ combinations_from rec (seq (S s) n)).
  apply NoDup_app. split; [|split].
  - apply (NoDup_fmap_2 (cons s)), Hrec.
  - intros c Hc Hc'. apply list_elem_of_fmap in Hc.
    destruct Hc as (c1 & -> & _).
    apply elem_of_combinations_from in Hc'.
    destruct Hc' as (i & c2 & _ & Heq & _). injection Heq as Heq _. lia.
  - apply IH.
Qed.

Lemma NoDup_combinations (k : nat) :
  forall s n, NoDup (combinations_with_replacement (seq s n) k).
Proof.
  induction k as [|k IH]; intros s n; simpl.
  - apply NoDup_singleton.
  - apply NoDup_combinations_from. intros s' n'. apply IH.
Qed.

Section Blotto_correct.

Variable set_iter : list (list nat) -> list (list nat).

(** Iterating over a set visits every element once. *)
Hypothesis set_iter_spec :
  forall l, NoDup (set_iter l) /\ forall a, a ∈ set_iter l <-> a ∈ l.

Lemma elem_of_blotto_allocations (total : Z) (k : nat) (a : list nat) :
  a ∈ blotto_allocations set_iter total k <->
  length a = k /\ Z.of_nat (sum_list a) = total.
Proof using set_iter_spec.
  unfold blotto_allocations. rewrite merge_sort_Permutation.
  rewrite list_elem_of_bind. split.
  - intros (c & Ha & Hc). apply elem_of_combinations in Hc.
    destruct Hc as (Hlen & _ & _).
    destruct (Z.eqb_spec (Z.of_nat (sum_list c)) total) as [Hsum|];
      [|inversion Ha].
    apply set_iter_spec, permutations_Permutation in Ha.
    rewrite <- Ha. auto.
  - intros [Hlen Hsum]. exists (merge_sort le a).
    pose proof (merge_sort_Permutation le a) as Hp.
    assert (sum_list (merge_sort le a) = sum_list a) as Hs
      by (rewrite Hp; reflexivity).
    rewrite Hs, Hsum, Z.eqb_refl. split.
    + apply set_iter_spec, permutations_Permutation. exact Hp.
    + apply elem_of_combinations.
      split; [rewrite (Permutation_length Hp); exact Hlen|]. split.
      * apply StronglySorted_merge_sort; apply _.
      * apply Forall_forall. intros e He. rewrite Hp in He.
        apply (sum_list_with_in _ id) in He. simpl in He. lia.
Qed.

Lemma NoDup_blotto_allocations (total : Z) (k : nat) :
  NoDup (blotto_allocations set_iter total k).
Proof using set_iter_spec.
  unfold blotto_allocations. rewrite merge_sort_Permutation.
  apply NoDup_bind.
  - intros c1 c2 a Hc1 Hc2 Ha1 Ha2.
    apply elem_of_combinations in Hc1, Hc2.
    destruct Hc1 as (_ & S1 & _), Hc2 as (_ & S2 & _).
    destruct (_ =? _)%Z; [|inversion Ha1].
    destruct (_ =? _)%Z; [|inversion Ha2].
    apply set_iter_spec, permutations_Permutation in Ha1, Ha2.
    apply (StronglySorted_unique le); [assumption..|].
    rewrite Ha1, Ha2. reflexivity.
  - intros c _. destruct (_ =? _)%Z; [apply set_iter_spec | constructor].
  - apply NoDup_combinations.
Qed.

Lemma sorted_blotto_allocations (total : Z) (k : nat) :
  StronglySorted tuple_le (blotto_allocations set_iter total k).
Proof using Type.
  unfold blotto_allocations. apply StronglySorted_merge_sort; apply _.
Qed.

(** X13: the allocation lists returned by the generator are exactly the
    ways of splitting the force over the arsenals: a tuple is listed if
    and only if it has one entry per arsenal and its entries add up to
    the force; no tuple is listed twice; the lists are in increasing
    lexicographic order; and the matrix has one row per guerrilla
    allocation and one column per police allocation. *)
Theorem blotto_allocations_are_the_compositions
  (guerrillas police : Z) (num_arsenals : nat) :
  let '(M, ga, pa) :=
    generate_colonel_blotto_payoffs set_iter guerrillas police num_arsenals in
  (forall a, a ∈ ga <->
     length a = num_arsenals /\ Z.of_nat (sum_list a) = guerrillas) /\
  (forall a, a ∈ pa <->
     length a = num_arsenals /\ Z.of_nat (sum_list a) = police) /\
  NoDup ga /\ NoDup pa /\
  StronglySorted tuple_le ga /\ StronglySorted tuple_le pa /\
  shape0 M = length ga /\ shape1 M = length pa.
Proof using set_iter_spec.
  simpl. split; [intros a; apply elem_of_blotto_allocations|].
  split; [intros a; apply elem_of_blotto_allocations|].
  split; [apply NoDup_blotto_allocations|].
  split; [apply NoDup_blotto_allocations|].
  split; [apply sorted_blotto_allocations|].
  split; [apply sorted_blotto_allocations|]. auto.
Qed.

Lemma blotto_cell_self (a : list nat) : blotto_cell a a = (1 # 2)%Q.
Proof using Type.
  unfold blotto_cell.
  assert (existsb (fun gp => snd gp <? fst gp) (combine a a) = false) as ->.
  { induction a as [|u a IH]; [reflexivity|]. simpl.
    rewrite Nat.ltb_irrefl. exact IH. }
  assert (forallb (fun gp => fst gp =? snd gp) (combine a a) = true) as ->.
  { induction a as [|u a IH]; [reflexivity|]. simpl.
    rewrite Nat.eqb_refl. exact IH. }
  reflexivity.
Qed.

(** If the guerrillas outnumber the police nowhere, they are at most as
    many in total, and exactly as many only for the same allocation. *)
Lemma nowhere_outnumbered (a : list nat) :
  forall b,
    length a = length b ->
    existsb (fun gp => snd gp <? fst gp) (combine a b) = false ->
    sum_list a <= sum_list b /\ (sum_list a = sum_list b -> a = b).
Proof using Type.
  induction a as [|u a IH]; intros [|v b] Hlen Hex; try discriminate.
  - auto.
  - simpl in Hex. apply orb_false_iff in Hex. destruct Hex as [Huv Hex].
    apply Nat.ltb_ge in Huv.
    destruct (IH b) as [Hle Heq]; [simpl in Hlen; lia | exact Hex |].
    simpl. split; [lia|]. intros Hs.
    assert (u = v) as -> by lia. f_equal. apply Heq. lia.
Qed.

Lemma all_equal_same (a : list nat) :
  forall b,
    length a = length b ->
    forallb (fun gp => fst gp =? snd gp) (combine a b) = true -> a = b.
Proof using Type.
  induction a as [|u a IH]; intros [|v b] Hlen Hall; try discriminate.
  - reflexivity.
  - simpl in Hall. apply andb_true_iff in Hall. destruct Hall as [Huv Hall].
    apply Nat.eqb_eq in Huv. subst v. f_equal.
    apply IH; [simpl in Hlen; lia | exact Hall].
Qed.

Lemma blotto_cell_more (a b : list nat) :
  length a = length b -> sum_list b < sum_list a ->
  blotto_cell a b = 1%Q.
Proof using Type.
  intros Hlen Hs. unfold blotto_cell.
  destruct (existsb _ (combine a b)) eqn:He; [reflexivity|].
  apply nowhere_outnumbered in He; [lia | exact Hlen].
Qed.

Lemma blotto_cell_same_total (a b : list nat) :
  length a = length b -> sum_list a = sum_list b -> a <> b ->
  blotto_cell a b = 1%Q.
Proof using Type.
  intros Hlen Hs Hne. unfold blotto_cell.
  destruct (existsb _ (combine a b)) eqn:He; [reflexivity|].
  apply nowhere_outnumbered in He; [|exact Hlen].
  destruct He as [_ He]. elim Hne. auto.
Qed.

Lemma blotto_cell_fewer (a b : list nat) :
  length a = length b -> sum_list a < sum_list b ->
  blotto_cell a b = 0%Q \/ blotto_cell a b = 1%Q.
Proof using Type.
  intros Hlen Hs. unfold blotto_cell.
  destruct (existsb _ (combine a b)); [auto|].
  destruct (forallb _ (combine a b)) eqn:Ha; [|auto].
  apply all_equal_same in Ha; [subst; lia | exact Hlen].
Qed.

Lemma nth_blotto_allocations (total : Z) (k i : nat) :
  i < length (blotto_allocations set_iter total k) ->
  blotto_allocations set_iter total k
    !! i = Some (nth i (blotto_allocations set_iter total k) []) /\
  length (nth i (blotto_allocations set_iter total k) []) = k /\
  Z.of_nat (sum_list (nth i (blotto_allocations set_iter total k) []))
  = total.
Proof using set_iter_spec.
  intros Hi.
  destruct (lookup_lt_is_Some_2 _ _ Hi) as [a Ha].
  rewrite (nth_lookup_Some _ _ [] a Ha). split; [exact Ha|].
  apply elem_of_blotto_allocations. eapply list_elem_of_lookup_2, Ha.
Qed.

Lemma equal_forces_cell (force : Z) (k i j : nat) :
  i < length (blotto_allocations set_iter force k) ->
  j < length (blotto_allocations set_iter force k) ->
  blotto_cell (nth i (blotto_allocations set_iter force k) [])
              (nth j (blotto_allocations set_iter force k) [])
  = if i =? j then (1 # 2)%Q else 1%Q.
Proof using set_iter_spec.
  intros Hi Hj.
  destruct (nth_blotto_allocations force k i Hi) as (Li & Ki & Si).
  destruct (nth_blotto_allocations force k j Hj) as (Lj & Kj & Sj).
  destruct (Nat.eqb_spec i j) as [->|Hne].
  - apply blotto_cell_self.
  - apply blotto_cell_same_total; [lia | lia |].
    intros Heq. rewrite Heq in Li. apply Hne.
    eapply NoDup_lookup; [apply NoDup_blotto_allocations | exact Li | exact Lj].
Qed.

(** X14: with equal forces the two allocation lists coincide, and the
    payoff is 1/2 on the diagonal and 1 everywhere else. *)
Theorem blotto_equal_forces (force : Z) (num_arsenals : nat) :
  let '(M, ga, pa) :=
    generate_colonel_blotto_payoffs set_iter force force num_arsenals in
  ga = pa /\ shape0 M = length ga /\ shape1 M = length ga /\
  forall i j, i < length ga -> j < length ga ->
    item M i j = if i =? j then (1 # 2)%Q else 1%Q.
Proof using set_iter_spec.
  simpl. repeat (split; [reflexivity|]). intros i j Hi Hj.
  apply equal_forces_cell; assumption.
Qed.

(** X15: when the guerrillas are more numerous than the police, every
    entry of the payoff matrix is 1. *)
Theorem blotto_more_guerrillas (guerrillas police : Z) (num_arsenals : nat) :
  (police < guerrillas)%Z ->
  let '(M, ga, pa) :=
    generate_colonel_blotto_payoffs set_iter guerrillas police num_arsenals in
  forall i j, i < shape0 M -> j < shape1 M -> item M i j = 1%Q.
Proof using set_iter_spec.
  simpl. intros Hlt i j Hi Hj.
  destruct (nth_blotto_allocations _ _ i Hi) as (_ & Ki & Si).
  destruct (nth_blotto_allocations _ _ j Hj) as (_ & Kj & Sj).
  apply blotto_cell_more; lia.
Qed.

(** X16: when the police are more numerous than the guerrillas, every
    entry of the payoff matrix is 0 or 1, and with at least one arsenal
    every guerrilla allocation meets a police allocation against which
    the payoff is 0. *)
Theorem blotto_more_police (guerrillas police : Z) (num_arsenals : nat) :
  (guerrillas < police)%Z ->
  let '(M, ga, pa) :=
    generate_colonel_blotto_payoffs set_iter guerrillas police num_arsenals in
  (forall i j, i < shape0 M -> j < shape1 M ->
     item M i j = 0%Q \/ item M i j = 1%Q) /\
  (0 < num_arsenals ->
   forall i, i < shape0 M -> exists j, j < shape1 M /\ item M i j = 0%Q).
Proof using set_iter_spec.
  simpl. intros Hlt. split.
  - intros i j Hi Hj.
    destruct (nth_blotto_allocations _ _ i Hi) as (_ & Ki & Si).
    destruct (nth_blotto_allocations _ _ j Hj) as (_ & Kj & Sj).
    apply blotto_cell_fewer; lia.
  - intros Hk i Hi.
    destruct (nth_blotto_allocations _ _ i Hi) as (_ & Ki & Si).
    set (a := nth i (blotto_allocations set_iter guerrillas num_arsenals) [])
      in *.
    destruct a as [|u a]; [simpl in Ki; lia|].
    set (b := (u + Z.to_nat (police - guerrillas)) :: a).
    assert (b ∈ blotto_allocations set_iter police num_arsenals) as Hb.
    { apply elem_of_blotto_allocations. unfold b. simpl in *. lia. }
    apply list_elem_of_lookup in Hb. destruct Hb as [j Hj].
    exists j. split; [eapply lookup_lt_Some, Hj|].
    rewrite (nth_lookup_Some _ _ [] b Hj). unfold blotto_cell, b. simpl.
    replace (u + Z.to_nat (police - guerrillas) <? u) with false
      by (symmetry; apply Nat.ltb_ge; lia).
    replace (u =? u + Z.to_nat (police - guerrillas)) with false
      by (symmetry; apply Nat.eqb_neq; lia).
    simpl.
    assert (existsb (fun gp => snd gp <? fst gp) (combine a a) = false) as ->.
    { clear. induction a as [|w a IH]; [reflexivity|]. simpl.
      rewrite Nat.ltb_irrefl. exact IH. }
    reflexivity.
Qed.

Lemma sorted_map_seq (f : nat -> list nat) (n : nat) :
  (forall i j, i < j -> tuple_le (f i) (f j)) ->
  forall s, StronglySorted tuple_le (map f (seq s n)).
Proof using Type.
  intros Hf. induction n as [|n IH]; intros s; simpl; constructor.
  - apply IH.
  - apply Forall_map, Forall_forall. intros j Hj. simpl.
    apply elem_of_seq in Hj. apply Hf. lia.
Qed.

Lemma two_arsenal_allocations (g : nat) :
  blotto_allocations set_iter (Z.of_nat g) 2
  = map (fun i => [i; g - i]) (seq 0 (S g)).
Proof using set_iter_spec.
  apply (StronglySorted_unique tuple_le).
  - apply sorted_blotto_allocations.
  - apply sorted_map_seq. intros i j Hij. unfold tuple_le. simpl.
    replace (i <? j) with true by (symmetry; apply Nat.ltb_lt; lia).
    reflexivity.
  - apply NoDup_Permutation.
    + apply NoDup_blotto_allocations.
    + apply (NoDup_fmap_2_strong (fun i => [i; g - i])); [|apply NoDup_seq].
      intros i j _ _ Heq. injection Heq as ->. reflexivity.
    + intros a. rewrite elem_of_blotto_allocations.
      rewrite (list_elem_of_fmap (fun i => [i; g - i])). split.
      * intros [Hlen Hsum].
        destruct a as [|u [|v [|? ?]]]; try discriminate.
        simpl in Hsum. exists u. split; [f_equal; f_equal; lia|].
        apply elem_of_seq. lia.
      * intros (i & -> & Hi). apply elem_of_seq in Hi. simpl.
        split; [reflexivity | lia].
Qed.

(** X17: with two arsenals the allocations of a force [g] are
    [(0, g), (1, g-1), ..., (g, 0)], so the matrix has [g + 1] rows and
    [p + 1] columns, and its entry [(i, j)] is 1 if [i > j] or
    [g - i > p - j], 1/2 if [i = j] and [g - i = p - j], and 0
    otherwise. *)
Theorem blotto_two_arsenals (g p : nat) :
  let '(M, ga, pa) :=
    generate_colonel_blotto_payoffs set_iter (Z.of_nat g) (Z.of_nat p) 2 in
  ga = map (fun i => [i; g - i]) (seq 0 (S g)) /\
  pa = map (fun j => [j; p - j]) (seq 0 (S p)) /\
  shape0 M = S g /\ shape1 M = S p /\
  forall i j, i <= g -> j <= p ->
    item M i j =
    if (j <? i) || (p - j <? g - i) then 1%Q
    else if (i =? j) && (g - i =? p - j) then (1 # 2)%Q else 0%Q.
Proof using set_iter_spec.
  simpl. rewrite !two_arsenal_allocations.
  split; [reflexivity|]. split; [reflexivity|].
  split; [rewrite length_map, length_seq; reflexivity|].
  split; [rewrite length_map, length_seq; reflexivity|].
  intros i j Hi Hj.
  rewrite (nth_lookup_Some _ i [] [i; g - i]).
  2:{ rewrite list_lookup_fmap, lookup_seq_lt by lia. reflexivity. }
  rewrite (nth_lookup_Some _ j [] [j; p - j]).
  2:{ rewrite list_lookup_fmap, lookup_seq_lt by lia. reflexivity. }
  unfold blotto_cell. simpl. rewrite orb_false_r, andb_true_r. reflexivity.
Qed.

End Blotto_correct.

(** ** The reducer on the equal-forces Blotto game *)

Lemma reducer_identity (A : ndarray) :
  (forall i j, i < shape0 A -> j < shape0 A -> i <> j ->
     row_dominated_by A i j = false) ->
  (forall j k, j < shape1 A -> k < shape1 A -> j <> k ->
     col_dominated_by A j k = false) ->
  iterated_elimination_dominated_strategies A
  = Some (ix_ A (range (shape0 A)) (range (shape1 A)),
          replicate (shape0 A) 1, replicate (shape1 A) 1).
Proof.
  intros Hr Hc.
  pose proof (reducer_on_fixed_point A
                (proj2 (dominance_pass_full _ _) Hr)
                (proj2 (dominance_pass_full _ _) Hc)) as Hp.
  unfold iterated_elimination_dominated_strategies.
  rewrite reduction_loop_S, Hp. reflexivity.
Qed.

Section Blotto_pipeline.

Variable set_iter : list (list nat) -> list (list nat).

Hypothesis set_iter_spec :
  forall l, NoDup (set_iter l) /\ forall a, a ∈ set_iter l <-> a ∈ l.

(** X18: on the Blotto game with equal forces no allocation is weakly
    dominated, so the reducer eliminates nothing: it returns all-ones
    flag vectors and a reduced matrix equal to the payoff matrix. *)
Theorem blotto_equal_forces_irreducible (force : Z) (num_arsenals : nat) :
  let '(M, ga, pa) :=
    generate_colonel_blotto_payoffs set_iter force force num_arsenals in
  exists B,
    iterated_elimination_dominated_strategies M
    = Some (B, replicate (length ga) 1, replicate (length pa) 1) /\
    arr_eq B M.
Proof using set_iter_spec.
  unfold generate_colonel_blotto_payoffs.
  set (L := blotto_allocations set_iter force num_arsenals).
  set (n := length L).
  set (M := NdArray n n (fun i j => blotto_cell (nth i L []) (nth j L []))).
  assert (forall i j, i < n -> j < n ->
            item M i j = if i =? j then (1 # 2)%Q else 1%Q) as Hentry
    by (intros i j Hi Hj; apply equal_forces_cell; assumption).
  exists (ix_ M (range (shape0 M)) (range (shape1 M))).
  split; [|apply ix_range].
  apply (reducer_identity M).
  - intros i j Hi Hj Hne.
    destruct (row_dominated_by M i j) eqn:Hd; [|reflexivity].
    apply row_dominated_by_iff in Hd. destruct Hd as [Hd _].
    specialize (Hd j Hj). simpl in Hi, Hj.
    rewrite !Hentry in Hd by assumption.
    rewrite Nat.eqb_refl in Hd.
    destruct (Nat.eqb_spec i j); [contradiction|].
    exfalso. apply (Qle_bool_iff 1 (1 # 2)) in Hd. discriminate.
  - intros j k Hj Hk Hne.
    destruct (col_dominated_by M j k) eqn:Hd; [|reflexivity].
    apply col_dominated_by_iff in Hd. destruct Hd as [Hd _].
    specialize (Hd j Hj). simpl in Hj, Hk.
    rewrite !Hentry in Hd by assumption.
    rewrite Nat.eqb_refl in Hd.
    destruct (Nat.eqb_spec j k); [contradiction|].
    exfalso. apply (Qle_bool_iff 1 (1 # 2)) in Hd. discriminate.
Qed.

End Blotto_pipeline.

(** ** The further properties at concrete inputs *)

Lemma table_solver_feasible (known : lp_problem) (solution : list Q) :
  lp_optimal known solution ->
  forall P, success (table_solver known solution P) = true ->
            lp_feasible P (x (table_solver known solution P)).
Proof.
  intros [Hf _] P. unfold table_solver.
  destruct (decide (P = known)) as [->|_]; simpl; [auto | discriminate].
Qed.

Lemma table_solver_optimal (known : lp_problem) (solution : list Q) :
  lp_optimal known solution ->
  forall P, success (table_solver known solution P) = true ->
            lp_optimal P (x (table_solver known solution P)).
Proof.
  intros Ho P. unfold table_solver.
  destruct (decide (P = known)) as [->|_]; simpl; [auto | discriminate].
Qed.

(** In the reduced interleaved game both rows pay 1 against the one
    column left, so the value is 1. *)
Lemma interleaved_lp_optimal :
  lp_optimal (row_lp (ix_ interleaved_game [0; 1] [1]))
             [1 # 2; 1 # 2; 1]%Q.
Proof.
  split.
  - apply lp_feasible_b_sound. reflexivity.
  - intros ys Hf. pose proof Hf as (Hlen & _).
    destruct ys as [|y0 [|y1 [|y2 [|? ?]]]]; try discriminate.
    apply (row_lp_feasible_iff (ix_ interleaved_game [0; 1] [1])
                               [y0; y1] y2 eq_refl) in Hf.
    destruct Hf as (_ & Hs & Hc).
    specialize (Hc 0 (Nat.lt_0_1)).
    unfold col_of, dot, Qsum in *. simpl in *. lra.
Qed.

Lemma remove_dups_spec (l : list (list nat)) :
  NoDup (remove_dups l) /\ forall a, a ∈ remove_dups l <-> a ∈ l.
Proof.
  split; [apply NoDup_remove_dups | intros a; apply elem_of_remove_dups].
Qed.

Example interleaved_game_epa :
  exists v,
    chaterjee_epa_algorithm
      (table_solver (row_lp (ix_ interleaved_game [0; 1] [1]))
                    [1 # 2; 1 # 2; 1]%Q)
      interleaved_game
    = Some ([1 # 2; 1 # 2; 0]%Q, [0; 1]%Q, v) /\ (v == 1)%Q.
Proof. eexists. split; [vm_compute; reflexivity | vm_compute; reflexivity]. Qed.

Lemma lp_strategy_secures_value_witness :
  solve_row_player_lp (checking_solver [1 # 2; 1 # 2; 1 # 2]%Q) identity_game
  = Some ([1 # 2; 1 # 2]%Q, (1 # 2)%Q) /\
  (length [1 # 2; 1 # 2]%Q = shape0 identity_game /\
   Forall (fun v => (0 <= v)%Q) [1 # 2; 1 # 2]%Q /\
   (Qsum [1 # 2; 1 # 2] == 1)%Q /\
   forall j, j < shape1 identity_game ->
             (1 # 2 <= dot [1 # 2; 1 # 2] (col_of identity_game j))%Q).
Proof.
  split; [reflexivity|].
  exact (lp_strategy_secures_value
           (checking_solver [1 # 2; 1 # 2; 1 # 2]%Q)
           (checking_solver_feasible _)
           identity_game [1 # 2; 1 # 2]%Q (1 # 2)%Q eq_refl).
Defined.

Lemma lp_value_is_maximin_witness :
  solve_row_player_lp
    (table_solver (row_lp (ix_ interleaved_game [0; 1] [1]))
                  [1 # 2; 1 # 2; 1]%Q)
    (ix_ interleaved_game [0; 1] [1])
  = Some ([1 # 2; 1 # 2]%Q, 1%Q) /\
  forall (p' : list Q) (V' : Q),
    length p' = shape0 (ix_ interleaved_game [0; 1] [1]) ->
    Forall (fun v => (0 <= v)%Q) p' -> (Qsum p' == 1)%Q ->
    (forall j, j < shape1 (ix_ interleaved_game [0; 1] [1]) ->
       (V' <= dot p' (col_of (ix_ interleaved_game [0%nat; 1%nat] [1%nat]) j))%Q) ->
    (V' <= 1)%Q.
Proof.
  split; [reflexivity|].
  exact (lp_value_is_maximin
           (table_solver (row_lp (ix_ interleaved_game [0; 1] [1]))
                         [1 # 2; 1 # 2; 1]%Q)
           (table_solver_feasible _ _ interleaved_lp_optimal)
           (table_solver_optimal _ _ interleaved_lp_optimal)
           (ix_ interleaved_game [0; 1] [1]) [1 # 2; 1 # 2]%Q 1%Q eq_refl).
Defined.

Lemma lp_value_between_pure_values_witness :
  solve_row_player_lp
    (table_solver (row_lp (ix_ interleaved_game [0; 1] [1]))
                  [1 # 2; 1 # 2; 1]%Q)
    (ix_ interleaved_game [0; 1] [1])
  = Some ([1 # 2; 1 # 2]%Q, 1%Q) /\
  ((forall i, i < shape0 (ix_ interleaved_game [0; 1] [1]) ->
      exists j, j < shape1 (ix_ interleaved_game [0; 1] [1]) /\
        (item (ix_ interleaved_game [0%nat; 1%nat] [1%nat]) i j <= 1)%Q) /\
   (forall j, j < shape1 (ix_ interleaved_game [0; 1] [1]) ->
      exists i, i < shape0 (ix_ interleaved_game [0; 1] [1]) /\
        (1 <= item (ix_ interleaved_game [0%nat; 1%nat] [1%nat]) i j)%Q)).
Proof.
  split; [reflexivity|].
  exact (lp_value_between_pure_values
           (table_solver (row_lp (ix_ interleaved_game [0; 1] [1]))
                         [1 # 2; 1 # 2; 1]%Q)
           (table_solver_feasible _ _ interleaved_lp_optimal)
           (table_solver_optimal _ _ interleaved_lp_optimal)
           (ix_ interleaved_game [0; 1] [1]) [1 # 2; 1 # 2]%Q 1%Q eq_refl).
Defined.

Lemma reduced_matrix_indexing_witness :
  iterated_elimination_dominated_strategies interleaved_game
  = Some (ix_ interleaved_game [0; 1] [1], [1; 1; 0], [0; 1]) /\
  ix_ interleaved_game [0; 1] [1]
  = ix_ interleaved_game (true_indices [1; 1; 0]) (true_indices [0; 1]) /\
  shape0 (ix_ interleaved_game [0; 1] [1]) = count_ones [1; 1; 0] /\
  shape1 (ix_ interleaved_game [0; 1] [1]) = count_ones [0; 1] /\
  count_ones [1; 1; 0] = sum_list [1; 1; 0] /\
  count_ones [0; 1] = sum_list [0; 1].
Proof.
  split; [reflexivity|].
  exact (reduced_matrix_indexing interleaved_game
           (ix_ interleaved_game [0; 1] [1]) [1; 1; 0] [0; 1] eq_refl).
Defined.

Lemma reduced_matrix_is_dominance_free_witness :
  iterated_elimination_dominated_strategies interleaved_game
  = Some (ix_ interleaved_game [0; 1] [1], [1; 1; 0], [0; 1]) /\
  forall i j, i < 2 -> j < 2 -> i <> j ->
    ~ ((forall k, k < 1 ->
          (item (ix_ interleaved_game [0%nat; 1%nat] [1%nat]) i k
           <= item (ix_ interleaved_game [0%nat; 1%nat] [1%nat]) j k)%Q) /\
       (exists k, k < 1 /\
          (item (ix_ interleaved_game [0%nat; 1%nat] [1%nat]) i k
           < item (ix_ interleaved_game [0%nat; 1%nat] [1%nat]) j k)%Q)).
Proof.
  split; [reflexivity|].
  exact (proj1 (reduced_matrix_is_dominance_free interleaved_game
                  (ix_ interleaved_game [0; 1] [1]) [1; 1; 0] [0; 1]
                  eq_refl)).
Defined.

Lemma reducer_keeps_everything_iff_witness :
  iterated_elimination_dominated_strategies identity_game
  = Some (ix_ identity_game [0; 1] [0; 1], [1; 1], [1; 1]) /\
  ([1; 1] = replicate (shape0 identity_game) 1 /\
   [1; 1] = replicate (shape1 identity_game) 1 <->
   (forall i j, i < shape0 identity_game -> j < shape0 identity_game ->
      i <> j -> row_dominated_by identity_game i j = false) /\
   (forall j k, j < shape1 identity_game -> k < shape1 identity_game ->
      j <> k -> col_dominated_by identity_game j k = false)).
Proof.
  split; [reflexivity|].
  exact (reducer_keeps_everything_iff identity_game
           (ix_ identity_game [0; 1] [0; 1]) [1; 1] [1; 1] eq_refl).
Defined.

Lemma eliminated_strategies_are_covered_witness :
  iterated_elimination_dominated_strategies interleaved_game
  = Some (ix_ interleaved_game [0; 1] [1], [1; 1; 0], [0; 1]) /\
  forall r, r < shape0 interleaved_game ->
    exists r', [1; 1; 0] !! r' = Some 1 /\
      forall c, [0; 1] !! c = Some 1 ->
        (item interleaved_game r c <= item interleaved_game r' c)%Q.
Proof.
  split; [reflexivity|].
  exact (proj1 (eliminated_strategies_are_covered interleaved_game
                  (ix_ interleaved_game [0; 1] [1]) [1; 1; 0] [0; 1]
                  eq_refl)).
Defined.

Lemma epa_row_strategy_is_maximin_witness :
  exists v,
    chaterjee_epa_algorithm
      (table_solver (row_lp (ix_ interleaved_game [0; 1] [1]))
                    [1 # 2; 1 # 2; 1]%Q)
      interleaved_game
    = Some ([1 # 2; 1 # 2; 0]%Q, [0; 1]%Q, v) /\
    forall (q : list Q) (V' : Q),
      length q = shape0 interleaved_game ->
      Forall (fun w => (0 <= w)%Q) q -> (Qsum q == 1)%Q ->
      (forall j, j < shape1 interleaved_game ->
         (V' <= dot q (col_of interleaved_game j))%Q) ->
      forall j, j < shape1 interleaved_game ->
        (V' <= dot [1 # 2; 1 # 2; 0] (col_of interleaved_game j))%Q.
Proof.
  exists (4 # 4)%Q.
  assert (chaterjee_epa_algorithm
            (table_solver (row_lp (ix_ interleaved_game [0; 1] [1]))
                          [1 # 2; 1 # 2; 1]%Q)
            interleaved_game
          = Some ([1 # 2; 1 # 2; 0]%Q, [0; 1]%Q, (4 # 4)%Q)) as He
    by reflexivity.
  split; [exact He|].
  exact (epa_row_strategy_is_maximin
           (table_solver (row_lp (ix_ interleaved_game [0; 1] [1]))
                         [1 # 2; 1 # 2; 1]%Q)
           (table_solver_feasible _ _ interleaved_lp_optimal)
           (table_solver_optimal _ _ interleaved_lp_optimal)
           interleaved_game [1 # 2; 1 # 2; 0]%Q [0; 1]%Q (4 # 4)%Q He).
Defined.

Lemma reduction_invariant_under_rescaling_witness :
  (0 < 2)%Q /\
  iterated_elimination_dominated_strategies (affine 2 (-1) interleaved_game)
  = match iterated_elimination_dominated_strategies interleaved_game with
    | Some (B, rf, cf) => Some (affine 2 (-1) B, rf, cf)
    | None => None
    end.
Proof.
  assert (0 < 2)%Q as Ha by reflexivity.
  split; [exact Ha|].
  exact (reduction_invariant_under_rescaling 2 (-1) interleaved_game Ha).
Defined.

Lemma blotto_allocations_are_the_compositions_witness :
  (forall l : list (list nat),
     NoDup (remove_dups l) /\ forall a, a ∈ remove_dups l <-> a ∈ l) /\
  let '(M, ga, pa) := generate_colonel_blotto_payoffs remove_dups 2 3 2 in
  (forall a, a ∈ ga <-> length a = 2 /\ Z.of_nat (sum_list a) = 2%Z) /\
  (forall a, a ∈ pa <-> length a = 2 /\ Z.of_nat (sum_list a) = 3%Z) /\
  NoDup ga /\ NoDup pa /\
  StronglySorted tuple_le ga /\ StronglySorted tuple_le pa /\
  shape0 M = length ga /\ shape1 M = length pa.
Proof.
  split; [exact remove_dups_spec|].
  exact (blotto_allocations_are_the_compositions
           remove_dups remove_dups_spec 2 3 2).
Defined.

Lemma blotto_equal_forces_witness :
  (forall l : list (list nat),
     NoDup (remove_dups l) /\ forall a, a ∈ remove_dups l <-> a ∈ l) /\
  let '(M, ga, pa) := generate_colonel_blotto_payoffs remove_dups 2 2 2 in
  ga = pa /\ shape0 M = length ga /\ shape1 M = length ga /\
  forall i j, i < length ga -> j < length ga ->
    item M i j = if i =? j then (1 # 2)%Q else 1%Q.
Proof.
  split; [exact remove_dups_spec|].
  exact (blotto_equal_forces remove_dups remove_dups_spec 2 2).
Defined.

Lemma blotto_more_guerrillas_witness :
  (2 < 3)%Z /\
  let '(M, ga, pa) := generate_colonel_blotto_payoffs remove_dups 3 2 2 in
  forall i j, i < shape0 M -> j < shape1 M -> item M i j = 1%Q.
Proof.
  assert (2 < 3)%Z as Hlt by reflexivity.
  split; [exact Hlt|].
  exact (blotto_more_guerrillas remove_dups remove_dups_spec 3 2 2 Hlt).
Defined.

Lemma blotto_more_police_witness :
  (2 < 3)%Z /\
  let '(M, ga, pa) := generate_colonel_blotto_payoffs remove_dups 2 3 2 in
  (forall i j, i < shape0 M -> j < shape1 M ->
     item M i j = 0%Q \/ item M i j = 1%Q) /\
  (0 < 2 ->
   forall i, i < shape0 M -> exists j, j < shape1 M /\ item M i j = 0%Q).
Proof.
  assert (2 < 3)%Z as Hlt by reflexivity.
  split; [exact Hlt|].
  exact (blotto_more_police remove_dups remove_dups_spec 2 3 2 Hlt).
Defined.

Lemma blotto_two_arsenals_witness :
  (forall l : list (list nat),
     NoDup (remove_dups l) /\ forall a, a ∈ remove_dups l <-> a ∈ l) /\
  let '(M, ga, pa) :=
    generate_colonel_blotto_payoffs remove_dups (Z.of_nat 2) (Z.of_nat 3) 2 in
  ga = map (fun i => [i; 2 - i]) (seq 0 3) /\
  pa = map (fun j => [j; 3 - j]) (seq 0 4) /\
  shape0 M = 3 /\ shape1 M = 4 /\
  forall i j, i <= 2 -> j <= 3 ->
    item M i j =
    if (j <? i) || (3 - j <? 2 - i) then 1%Q
    else if (i =? j) && (2 - i =? 3 - j) then (1 # 2)%Q else 0%Q.
Proof.
  split; [exact remove_dups_spec|].
  exact (blotto_two_arsenals remove_dups remove_dups_spec 2 3).
Defined.

Lemma blotto_equal_forces_irreducible_witness :
  (forall l : list (list nat),
     NoDup (remove_dups l) /\ forall a, a ∈ remove_dups l <-> a ∈ l) /\
  let '(M, ga, pa) := generate_colonel_blotto_payoffs remove_dups 2 2 2 in
  exists B,
    iterated_elimination_dominated_strategies M
    = Some (B, replicate (length ga) 1, replicate (length pa) 1) /\
    arr_eq B M.
Proof.
  split; [exact remove_dups_spec|].
  exact (blotto_equal_forces_irreducible remove_dups remove_dups_spec 2 2).
Defined.

Lemma expansion_error_behaviour_witness :
  length [1 # 2; 1 # 2]%Q = count_ones [1; 0; 1] /\
  expand [1; 0; 1] ([1 # 2; 1 # 2] ++ [7])%Q
  = expand [1; 0; 1] [1 # 2; 1 # 2]%Q.
Proof.
  split; [reflexivity|].
  exact (proj2 (expansion_error_behaviour [1; 0; 1] [1 # 2; 1 # 2]%Q)
               [7]%Q eq_refl).
Defined.

(** ** Rounding and malformed arguments at concrete inputs *)



(** In exact arithmetic the same game, with the same LP result, has
    value exactly 100. *)
Example hundreds_exact_value :
  exists c v,
    chaterjee_epa_algorithm
      (table_solver (row_lp (Binary64.exact hundreds))
                    (map Binary64.to_Q [1; 100]%float))
      (Binary64.exact hundreds)
    = Some (map Binary64.to_Q [1]%float, c, v) /\
    (v == 100)%Q /\ (matrix_min (Binary64.exact hundreds) == 100)%Q.
Proof.
  eexists _, _. split; [vm_compute; reflexivity|].
  split; vm_compute; reflexivity.
Qed.

Lemma malformed_input_behaviour_witness :
  (exists v,
     chaterjee_epa_algorithm
       (table_solver (row_lp (ix_ interleaved_game [0; 1] [1]))
                     [1 # 2; 1 # 2; 1]%Q)
       interleaved_game
     = Some ([1 # 2; 1 # 2; 0]%Q, [0; 1]%Q, v)) /\
  reduce_call (ObjectArray [[1; 2]; [3]]%Q) = (0, None) /\
  solve_call (table_solver (row_lp (ix_ interleaved_game [0; 1] [1]))
                           [1 # 2; 1 # 2; 1]%Q)
             (ObjectArray [[1; 2]; [3]]%Q) = (0, None) /\
  exists B,
    reduce_call (Matrix empty_game) = (1, Some (B, [1], [])) /\
    arr_eq B empty_game /\
    solve_row_player_lp
      (table_solver (row_lp (ix_ interleaved_game [0; 1] [1]))
                    [1 # 2; 1 # 2; 1]%Q) B = None /\
    solve_call (table_solver (row_lp (ix_ interleaved_game [0; 1] [1]))
                             [1 # 2; 1 # 2; 1]%Q)
               (Matrix empty_game) = (1, None).
Proof.
  split; [exists (4 # 4)%Q; reflexivity|].
  destruct (malformed_input_behaviour
              (table_solver (row_lp (ix_ interleaved_game [0; 1] [1]))
                            [1 # 2; 1 # 2; 1]%Q)
              (table_solver_optimal _ _ interleaved_lp_optimal))
    as (_ & Hragged & Hempty).
  split; [exact (proj1 (Hragged [[1; 2]; [3]]%Q))|].
  split; [exact (proj2 (Hragged [[1; 2]; [3]]%Q))|].
  exact (Hempty empty_game (or_intror eq_refl)).
Defined.
